(** * The adaptive quantization field estimator of the JPEG XL encoder

    A shallow embedding of the search routines of
    [jxl/enc_adaptive_quantization.cc] and the properties the specification
    states about them.

    Arithmetic.  The C++ code computes on [float] and [double].  Every
    definition below is written once, over a type [F] that carries the
    arithmetic the code uses (class [FloatOps]; [Libm] adds the two
    [<cmath>] functions the code calls).  Three instances are given:
    - [f32], IEEE 754 binary32 as the code computes it: every operation
      is the exact operation followed by rounding to nearest, ties to
      even, on 24 bits, with gradual underflow, overflow to an
      infinity, signed zeros and NaN; it runs, and it is compared with
      the Standard Library's [SpecFloat] on a table of operands;
    - [Q], exact rational arithmetic, on which every definition runs;
    - [R], the real numbers.
    [Q] and [R] read a [float] as the number it denotes, without
    rounding, with a division by zero that yields [0].  What depends on
    rounding, overflow or NaN is stated and proved on [f32]: the
    ceiling of [AdjustQuantVal], the assertion of
    [FindBestQuantization] and the cutoff of [DiffPrecompute].  What
    is proved for every [F] holds for [f32] as well.

    Images.  An [ImageF] is read as the code reads it, through [Row y]
    and a column index; the row stride only appears in pointer
    arithmetic of the form [Row(y)[x + iy * stride]], which is cell
    [x] of [Row (y + iy)]. *)

From Stdlib Require Import Reals QArith Qreals Qround Qabs Qpower ZArith Lia Lra List Bool.
From Stdlib Require Import SpecFloat.
From Stdlib Require Import Rpower R_sqrt.
Import ListNotations.

Set Implicit Arguments.

(* ================================================================== *)
(** * Arithmetic of the code *)

Class FloatOps (F : Type) : Type := {
  flit : Q -> F;              (* a literal, or an integer converted to float *)
  fadd : F -> F -> F;
  fsub : F -> F -> F;
  fmul : F -> F -> F;
  fdiv : F -> F -> F;
  fabs : F -> F;              (* std::abs / std::fabs *)
  fltb : F -> F -> bool;      (* a < b *)
  fleb : F -> F -> bool;      (* a <= b *)
  feqb : F -> F -> bool;      (* a == b *)
  ftrunc : F -> Z             (* conversion to int: towards zero *)
}.

Class Libm (F : Type) : Type := {
  fsqrt : F -> F;             (* std::sqrt *)
  fpow : F -> F -> F          (* std::pow *)
}.

Arguments flit {F _} q%_Q.

Declare Scope fl_scope.
Delimit Scope fl_scope with fl.
Infix "+" := fadd : fl_scope.
Infix "-" := fsub : fl_scope.
Infix "*" := fmul : fl_scope.
Infix "/" := fdiv : fl_scope.
Infix "<?" := fltb : fl_scope.
Infix "<=?" := fleb : fl_scope.
Infix "==?" := feqb (at level 70) : fl_scope.
Notation "a >? b" := (fltb b a) (at level 70) : fl_scope.
Notation "a >=? b" := (fleb b a) (at level 70) : fl_scope.

(** ** Exact rationals: the instance that runs *)

Definition Qltb (a b : Q) : bool := negb (Qle_bool b a).

Definition Qtrunc (q : Q) : Z := Z.quot (Qnum q) (Zpos (Qden q)).

#[global] Instance Q_ops : FloatOps Q := {
  flit q := q;
  fadd := Qplus;
  fsub := Qminus;
  fmul := Qmult;
  fdiv := Qdiv;
  fabs := Qabs.Qabs;
  fltb := Qltb;
  fleb := Qle_bool;
  feqb := Qeq_bool;
  ftrunc := Qtrunc
}.

(** ** Real numbers: the instance the inequalities are proved on *)

Definition Rltb (a b : R) : bool := if Rlt_dec a b then true else false.
Definition Rleb (a b : R) : bool := if Rle_dec a b then true else false.
Definition Reqb (a b : R) : bool := if Req_dec_T a b then true else false.

Definition Rtrunc (x : R) : Z :=
  if Rle_dec 0 x then Int_part x else Z.opp (Int_part (Ropp x)).

#[global] Instance R_ops : FloatOps R := {
  flit := Q2R;
  fadd := Rplus;
  fsub := Rminus;
  fmul := Rmult;
  fdiv := Rdiv;
  fabs := Rabs;
  fltb := Rltb;
  fleb := Rleb;
  feqb := Reqb;
  ftrunc := Rtrunc
}.

(** [std::pow(x, y)] on the reals: [exp (y * ln x)] for a positive base.
    A zero base gives [0] (the code only uses positive exponents); a
    negative base, NaN in C++, is outside the model. *)
Definition Rpow (x y : R) : R :=
  if Rlt_dec 0 x then Rpower x y else 0%R.

#[global] Instance R_libm : Libm R := {
  fsqrt := sqrt;
  fpow := Rpow
}.


(* ================================================================== *)
(** * Images and loops *)

(** [Row img y x] is [img.Row(y)[x]]; [xsize] and [ysize] are the pixel
    dimensions.  Cells outside the dimensions are memory the image does
    not own. *)
Record ImageF (F : Type) : Type := mkImageF {
  xsize : nat;
  ysize : nat;
  Row : nat -> nat -> F
}.

(** An [Image3F]: three planes of one size, read through
    [PlaneRow c y]. *)
Record Image3F (F : Type) : Type := mkImage3F {
  xsize3 : nat;
  ysize3 : nat;
  PlaneRow : nat -> nat -> nat -> F
}.

(** [img.xsize()] and [img.ysize()], for the places where the code also has
    locals called [xsize] and [ysize]. *)
Definition xsize_of {F : Type} (img : ImageF F) : nat := xsize img.
Definition ysize_of {F : Type} (img : ImageF F) : nat := ysize img.

(** [img.Row(y)[x] = v]. *)
Definition store {F : Type} (img : ImageF F) (y x : nat) (v : F) : ImageF F :=
  mkImageF (xsize img) (ysize img)
    (fun y' x' => if (y' =? y)%nat && (x' =? x)%nat then v else Row img y' x').

(** [for (i = lo; i < hi; ++i) body], threading the state. *)
Definition for_loop {S : Type} (lo hi : nat) (body : nat -> S -> S) (s : S) : S :=
  fold_left (fun s i => body i s) (seq lo (hi - lo)) s.

(** The same loop when the body may hit a failing [JXL_ASSERT]
    ([None]: the process aborts). *)
Definition for_loop_opt {S : Type} (lo hi : nat) (body : nat -> S -> option S)
  (s : S) : option S :=
  fold_left (fun o i => match o with Some s => body i s | None => None end)
    (seq lo (hi - lo)) (Some s).

(** [for (int i = lo; i < hi; ++i) body] on [int] bounds. *)
Definition for_int {S : Type} (lo hi : Z) (body : Z -> S -> S) (s : S) : S :=
  fold_left (fun s k => body (lo + Z.of_nat k)%Z s) (seq 0 (Z.to_nat (hi - lo))) s.

(** Modelled from the spec: the per-block entry of the AC-strategy image
    ([jxl/ac_strategy.h] is not under src/): whether the block is the
    first (top-left) block of its transform, and how many 8x8 blocks the
    transform covers in each direction. *)
Record AcStrategy : Type := mkAcStrategy {
  IsFirstBlock : bool;
  covered_blocks_x : nat;
  covered_blocks_y : nat
}.

(** [ac_strategy y x] is [ac_strategy.ConstRow(y)[x]]. *)
Definition AcStrategyImage : Type := nat -> nat -> AcStrategy.

Definition kBlockDim : nat := 8.

(** Modelled from the spec: [RoundUpToBlockDim] ([jxl/common.h] is not
    under src/) pads a size to the next multiple of 8. *)
Definition RoundUpToBlockDim (x : nat) : nat := (x + 7) / 8 * 8.

(* ================================================================== *)
(** * <algorithm> *)

Section Std.
Context {F : Type} `{FloatOps F}.
Local Open Scope fl_scope.

(** [std::max(a, b)] is [(a < b) ? b : a]. *)
Definition std_max (a b : F) : F := if a <? b then b else a.

(** [std::min(a, b)] is [(b < a) ? b : a]. *)
Definition std_min (a b : F) : F := if b <? a then b else a.

End Std.

(* ================================================================== *)
(** * DiffPrecompute *)

Section DiffPrecompute.
Context {F : Type} `{FloatOps F}.
Local Open Scope fl_scope.

Definition kSGmul : F := flit 200.
Definition kSGmul2 : F := flit 1 / flit 74.
Definition kLog2 : F := flit 0.693147181.
Definition kSGRetMul : F := kSGmul2 * flit 18.6580932135 * kLog2.
Definition kSGVOffset : F := flit 7.14672470003.

(** Both the vector and the scalar version compute this; [MulAdd(a, b, c)]
    is [a * b + c], rounded after the product and after the sum.  (A
    target with a fused multiply-add rounds it once; what is proved
    about binary32 below does not depend on the last bit of [den].) *)
Definition RatioOfDerivativesOfCubicRootToSimpleGamma (invert : bool) (v : F) : F :=
  let v := if v <? flit 0 then flit 0 else v in
  let kNumMul := kSGRetMul * flit 3 * kSGmul in
  let kVOffset := kSGVOffset * kLog2 in
  let kDenMul := kLog2 * kSGmul in
  let v2 := v * v in
  let num := kNumMul * v2 in
  let den := (kDenMul * v) * v2 + kVOffset in
  if invert then num / den else den / num.

Definition mul0 : F := flit 0.030220460298316064.

(** The code writes this constant without the suffix [f]: a [double]
    that is converted to [float].  Both roundings together give the
    float nearest to the decimal ([match_gamma_offset_literal]). *)
Definition match_gamma_offset : F := flit 0.6542639346391887.

(** The first pixel of a row and the pixels of the scalar loop. *)
Definition scalar_pixel (cutoff : F) (row_in row_in1 row_in2 : nat -> F)
  (x x1 x2 : nat) : F :=
  let diff := mul0 * (fabs (row_in x - row_in x2) +
                      fabs (row_in x - row_in2 x) +
                      fabs (row_in x - row_in x1) +
                      fabs (row_in x - row_in1 x) +
                      flit 3 * (fabs (row_in2 x - row_in1 x) +
                                fabs (row_in x1 - row_in x2))) in
  let diff := diff * RatioOfDerivativesOfCubicRootToSimpleGamma false
                       (row_in x + match_gamma_offset) in
  std_min cutoff diff.

(** One lane of the vector loop: [in_t] is read from [row_in2], [in_b]
    from [row_in1], and the clamp is [IfThenElse(diff > cutoff, cutoff,
    diff)]. *)
Definition simd_pixel (cutoff : F) (row_in row_in1 row_in2 : nat -> F)
  (x : nat) : F :=
  let in_ := row_in x in
  let in_r := row_in (x + 1)%nat in
  let in_l := row_in (x - 1)%nat in
  let in_t := row_in2 x in
  let in_b := row_in1 x in
  let diff := mul0 * (fabs (in_ - in_r) + fabs (in_ - in_l) +
                      fabs (in_ - in_b) + fabs (in_ - in_t) +
                      flit 3 * (fabs (in_t - in_b) + fabs (in_l - in_r))) in
  let diff := diff * RatioOfDerivativesOfCubicRootToSimpleGamma false
                       (in_ + match_gamma_offset) in
  if diff >? cutoff then cutoff else diff.

(** The last pixel of a row. *)
Definition last_pixel (cutoff : F) (row_in row_in2 : nat -> F) (x : nat) : F :=
  let diff := flit 7 * mul0 * fabs (row_in x - row_in2 x) in
  let diff := diff * RatioOfDerivativesOfCubicRootToSimpleGamma false
                       (row_in x + match_gamma_offset) in
  std_min cutoff diff.

(** A pixel of the pass over the last row. *)
Definition last_row_pixel (cutoff : F) (row_in : nat -> F) (x : nat) : F :=
  let x2 := (x + 1)%nat in
  let diff := flit 7 * mul0 * fabs (row_in x - row_in x2) in
  let diff := diff * RatioOfDerivativesOfCubicRootToSimpleGamma false
                       (row_in x + match_gamma_offset) in
  std_min cutoff diff.

(** [for (; x + 1 + Lanes(df) < xsize; x += Lanes(df))]: every iteration
    stores [lanes] pixels.  The loop runs at most [fuel] times; it
    returns the column it stopped at. *)
Fixpoint simd_loop (cutoff : F) (row_in row_in1 row_in2 : nat -> F)
  (xsize lanes y : nat) (fuel x : nat) (img : ImageF F) : nat * ImageF F :=
  match fuel with
  | O => (x, img)
  | S fuel' =>
      if (x + 1 + lanes <? xsize)%nat then
        simd_loop cutoff row_in row_in1 row_in2 xsize lanes y fuel' (x + lanes)
          (for_loop 0 lanes
             (fun l img =>
                store img y (x + l) (simd_pixel cutoff row_in row_in1 row_in2 (x + l)))
             img)
      else (x, img)
  end.

(** [for (; x + 1 < xsize; ++x)]. *)
Definition scalar_loop (cutoff : F) (row_in row_in1 row_in2 : nat -> F)
  (xsize y : nat) (x : nat) (img : ImageF F) : nat * ImageF F :=
  (Nat.max x (xsize - 1),
   for_loop x (xsize - 1)
     (fun x img =>
        store img y x (scalar_pixel cutoff row_in row_in1 row_in2 x (x - 1) (x + 1)))
     img).

(** "Extend to multiple of 8 columns": the value written to the right
    of the row. *)
Definition row_lastval (row_out : nat -> F) (xsize : nat) : F :=
  let lastval := row_out (xsize - 1)%nat in
  if (3 <=? xsize)%nat then
    let lastval := lastval + row_out (xsize - 3)%nat in
    let lastval := lastval + row_out (xsize - 2)%nat in
    lastval * (flit 1 / flit 3)
  else if (2 <=? xsize)%nat then
    let lastval := lastval + row_out (xsize - 2)%nat in
    lastval * flit 0.5
  else lastval.

(** "Extend to multiple of 8 rows": the value written below column [x]. *)
Definition col_lastval (padded_diff : ImageF F) (ysize x : nat) : F :=
  let lastval := Row padded_diff (ysize - 1) x in
  if (3 <=? ysize)%nat then
    let lastval := lastval + Row padded_diff (ysize - 2) x in
    let lastval := lastval + Row padded_diff (ysize - 3) x in
    lastval * (flit 1 / flit 3)
  else if (2 <=? ysize)%nat then
    let lastval := lastval + Row padded_diff (ysize - 2) x in
    lastval * flit 0.5
  else lastval.

(** The task [RunOnPool] runs for row [y]. *)
Definition DiffPrecomputeRow (xyb : Image3F F) (xsize ysize : nat) (cutoff : F)
  (lanes : nat) (y : nat) (padded_diff : ImageF F) : ImageF F :=
  let y2 := if (y + 1 <? ysize)%nat then (y + 1)%nat
            else if (0 <? y)%nat then (y - 1)%nat else y in
  let y1 := if (y =? 0)%nat && (2 <=? ysize)%nat then (y + 1)%nat
            else if (0 <? y)%nat then (y - 1)%nat else y in
  let row_in := PlaneRow xyb 1 y in
  let row_in1 := PlaneRow xyb 1 y1 in
  let row_in2 := PlaneRow xyb 1 y2 in
  let x := 0%nat in
  (* First pixel of the row. *)
  let x2 := if (xsize <? 1)%nat then 0%nat else 1%nat in
  let x1 := x2 in
  let img := store padded_diff y x (scalar_pixel cutoff row_in row_in1 row_in2 x x1 x2) in
  let x := (x + 1)%nat in
  (* SIMD *)
  let '(x, img) := simd_loop cutoff row_in row_in1 row_in2 xsize lanes y xsize x img in
  (* Scalar *)
  let '(x, img) := scalar_loop cutoff row_in row_in1 row_in2 xsize y x img in
  (* Last pixel of the row. *)
  let img := store img y x (last_pixel cutoff row_in row_in2 x) in
  let x := (x + 1)%nat in
  (* Extend to multiple of 8 columns *)
  let lastval := row_lastval (Row img y) xsize in
  for_loop x (xsize_of img) (fun x img => store img y x lastval) img.

(** The block "Last row". *)
Definition DiffPrecomputeLastRow (xyb : Image3F F) (xsize ysize : nat) (cutoff : F)
  (padded_diff : ImageF F) : ImageF F :=
  let y := (ysize - 1)%nat in
  let row_in := PlaneRow xyb 1 y in
  let img := for_loop 0 (xsize - 1)
               (fun x img => store img y x (last_row_pixel cutoff row_in x))
               padded_diff in
  (* Last pixel of the last row. *)
  let x := (xsize - 1)%nat in
  if (0 <? x)%nat then store img y x (Row img y (x - 1)) else img.

(** The block "Extend to multiple of 8 rows". *)
Definition DiffPrecomputeExtendRows (ysize : nat) (padded_diff : ImageF F) : ImageF F :=
  if negb (ysize =? ysize_of padded_diff)%nat then
    for_loop 0 (xsize padded_diff)
      (fun x img =>
         let lastval := col_lastval img ysize x in
         for_loop ysize (ysize_of img) (fun y img => store img y x lastval) img)
      padded_diff
  else padded_diff.

(** The image after [RunOnPool] has run the tasks of all rows.  [xsize]
    and [ysize] are [frame_dim.xsize] and [frame_dim.ysize]; [lanes] is
    [Lanes(df)] of the target; [fresh] is what the memory of the new
    image holds.  The tasks write one row each and read only the input
    and their own row, so they are run in row order. *)
Definition DiffPrecomputeRows (xyb : Image3F F) (xsize ysize : nat) (cutoff : F)
  (lanes : nat) (fresh : nat -> nat -> F) : ImageF F :=
  let padded_xsize := RoundUpToBlockDim xsize in
  let padded_ysize := RoundUpToBlockDim ysize in
  let padded_diff := mkImageF padded_xsize padded_ysize fresh in
  for_loop 0 ysize (DiffPrecomputeRow xyb xsize ysize cutoff lanes) padded_diff.

(** [DiffPrecompute(xyb, frame_dim, cutoff, pool)]. *)
Definition DiffPrecompute (xyb : Image3F F) (xsize ysize : nat) (cutoff : F)
  (lanes : nat) (fresh : nat -> nat -> F) : ImageF F :=
  let padded_diff := DiffPrecomputeRows xyb xsize ysize cutoff lanes fresh in
  let padded_diff := DiffPrecomputeLastRow xyb xsize ysize cutoff padded_diff in
  DiffPrecomputeExtendRows ysize padded_diff.

End DiffPrecompute.

(* ================================================================== *)
(** * AdjustQuantVal, DistToPeakMap, AdjustQuantField *)

Section Search.
Context {F : Type} `{FloatOps F}.
Local Open Scope fl_scope.

(** The result is the returned flag and the value left in [*q]. *)
Definition AdjustQuantVal (q d factor quant_max : F) : bool * F :=
  if q >=? flit 0.999 * quant_max then (false, q)
  else
    let inv_q := flit 1 / q in
    let adj_inv_q := inv_q - factor / (d + flit 1) in
    (true, flit 1 / std_max (flit 1 / quant_max) adj_inv_q).

(** [x0 + 1 + local_radius] is computed in [size_t]: the [int] is
    converted, and the sum wraps at 2^64. *)
Definition size_t_wrap (z : Z) : Z := (z mod 2 ^ 64)%Z.

(** The window of the cell [(x0, y0)]: [(x_min, x_max, y_min, y_max)]. *)
Definition peak_window (field : ImageF F) (local_radius : Z) (x0 y0 : nat)
  : Z * Z * Z * Z :=
  let x_min := Z.max 0 (Z.of_nat x0 - local_radius) in
  let y_min := Z.max 0 (Z.of_nat y0 - local_radius) in
  let x_max := Z.min (Z.of_nat (xsize field))
                 (size_t_wrap (Z.of_nat x0 + 1 + local_radius)) in
  let y_max := Z.min (Z.of_nat (ysize field))
                 (size_t_wrap (Z.of_nat y0 + 1 + local_radius)) in
  (x_min, x_max, y_min, y_max).

(** The greatest value of the window, seeded with [peak_min]. *)
Definition window_max (field : ImageF F) (peak_min : F) (local_radius : Z)
  (x0 y0 : nat) : F :=
  let '(x_min, x_max, y_min, y_max) := peak_window field local_radius x0 y0 in
  for_int y_min y_max
    (fun y local_max =>
       for_int x_min x_max
         (fun x local_max =>
            std_max local_max (Row field (Z.to_nat y) (Z.to_nat x)))
         local_max)
    peak_min.

(** The test [field.Row(y0)[x0] > (1 - peak_weight) * peak_min +
    peak_weight * local_max]. *)
Definition is_peak (field : ImageF F) (peak_min : F) (local_radius : Z)
  (peak_weight : F) (x0 y0 : nat) : bool :=
  let local_max := window_max field peak_min local_radius x0 y0 in
  Row field y0 x0 >?
    (flit 1 - peak_weight) * peak_min + peak_weight * local_max.

(** What a peak at [(x0, y0)] writes into its window. *)
Definition stamp_peak (field : ImageF F) (local_radius : Z) (x0 y0 : nat)
  (result : ImageF F) : ImageF F :=
  let '(x_min, x_max, y_min, y_max) := peak_window field local_radius x0 y0 in
  for_int y_min y_max
    (fun y result =>
       for_int x_min x_max
         (fun x result =>
            let dist := flit (inject_Z (Z.max (Z.abs (y - Z.of_nat y0))
                                              (Z.abs (x - Z.of_nat x0)))) in
            let cur_dist := Row result (Z.to_nat y) (Z.to_nat x) in
            if (cur_dist <? flit 0) || (cur_dist >? dist)
            then store result (Z.to_nat y) (Z.to_nat x) dist
            else result)
         result)
    result.

(** [ImageF result(xsize, ysize); FillImage(-1.0f, &result);] and the
    loop over all cells. *)
Definition DistToPeakMap (field : ImageF F) (peak_min : F) (local_radius : Z)
  (peak_weight : F) : ImageF F :=
  let result := mkImageF (xsize field) (ysize field) (fun _ _ => flit (-1)) in
  for_loop 0 (ysize field)
    (fun y0 result =>
       for_loop 0 (xsize field)
         (fun x0 result =>
            if is_peak field peak_min local_radius peak_weight x0 y0
            then stamp_peak field local_radius x0 y0 result
            else result)
         result)
    result.

(** The greatest of the cells a block covers, as the code accumulates it:
    [quant_row[x + ix + iy * stride]] is cell [x + ix] of row [y + iy]. *)
Definition block_max (quant_field : ImageF F) (acs : AcStrategy) (x y : nat) : F :=
  for_loop 0 (covered_blocks_y acs)
    (fun iy max =>
       for_loop 0 (covered_blocks_x acs)
         (fun ix max => std_max (Row quant_field (y + iy) (x + ix)) max)
         max)
    (Row quant_field y x).

(** Writing [max] to every cell the block covers. *)
Definition block_fill (acs : AcStrategy) (x y : nat) (max : F)
  (quant_field : ImageF F) : ImageF F :=
  for_loop 0 (covered_blocks_y acs)
    (fun iy quant_field =>
       for_loop 0 (covered_blocks_x acs)
         (fun ix quant_field => store quant_field (y + iy) (x + ix) max)
         quant_field)
    quant_field.

(** One iteration of the inner loop; [None] is a failing [JXL_ASSERT]. *)
Definition AdjustQuantFieldAt (ac_strategy : AcStrategyImage) (y x : nat)
  (quant_field : ImageF F) : option (ImageF F) :=
  let acs := ac_strategy y x in
  if negb (IsFirstBlock acs) then Some quant_field
  else if negb (x + covered_blocks_x acs <=? xsize quant_field)%nat then None
  else if negb (y + covered_blocks_y acs <=? ysize quant_field)%nat then None
  else
    let max := block_max quant_field acs x y in
    Some (block_fill acs x y max quant_field).

Definition AdjustQuantField (ac_strategy : AcStrategyImage)
  (quant_field : ImageF F) : option (ImageF F) :=
  for_loop_opt 0 (ysize quant_field)
    (fun y quant_field =>
       for_loop_opt 0 (xsize quant_field)
         (fun x quant_field => AdjustQuantFieldAt ac_strategy y x quant_field)
         quant_field)
    quant_field.

End Search.

(* ================================================================== *)
(** * FindBestQuantization, FindBestQuantizationMaxError, InitialQuantDC *)

Section FindBest.
Context {F : Type} `{FloatOps F}.
Local Open Scope fl_scope.

Definition kDcQuantPow : F := flit 0.55.
Definition kDcQuant : F := flit 1.18.
Definition kAcQuant : F := flit 0.84.

(** Modelled from the spec: [ImageMinMax] ([jxl/image_ops.h] is not under
    src/) returns the least and the greatest pixel of an image. *)
Definition ImageMinMax (image : ImageF F) : F * F :=
  for_loop 0 (ysize image)
    (fun y mm =>
       for_loop 0 (xsize image)
         (fun x mm =>
            (std_min (fst mm) (Row image y x), std_max (snd mm) (Row image y x)))
         mm)
    (Row image 0 0, Row image 0 0).

Definition kPow : list F :=
  [flit 0.2; flit 0.2; flit 0.0; flit 0.0; flit 0.0; flit 0.0; flit 0.0; flit 0.0].

Definition kPowMod : list F :=
  [flit 0.0; flit 0.0; flit 0.0; flit 0.0; flit 0.0; flit 0.0; flit 0.0; flit 0.0].

(** The exponent of iteration [i]. *)
Definition cur_pow (i : nat) (butteraugli_target : F) : F :=
  let cur_pow := flit 0.0 in
  if (i <? 7)%nat then
    let cur_pow := nth i kPow (flit 0) +
                   (butteraugli_target - flit 1.0) * nth i kPowMod (flit 0) in
    if cur_pow <? flit 0 then flit 0 else cur_pow
  else cur_pow.

(** The clamp that ends the update of a cell. *)
Definition clamp_qf (qf_lower qf_higher q : F) : F :=
  let q := if q >? qf_higher then qf_higher else q in
  if q <? qf_lower then qf_lower else q.

(** The branch [diff > 1.0f] of both loops; [inv_global_scale] and [scale]
    are [quantizer.InvGlobalScale()] and [quantizer.Scale()]. *)
Definition raise_cell (inv_global_scale scale diff q : F) : F :=
  let old := q in
  let q := q * diff in
  let qf_old := ftrunc (old * inv_global_scale + flit 0.5) in
  let qf_new := ftrunc (q * inv_global_scale + flit 0.5) in
  if (qf_old =? qf_new)%Z then old + scale else q.

End FindBest.

Section FindBestLibm.
Context {F : Type} `{FloatOps F} `{Libm F}.
Local Open Scope fl_scope.

(** The update of one cell [row_q[x]] at the end of an iteration, for
    both values of the test [cur_pow == 0.0]; [dist] is
    [row_dist[x]]. *)
Definition update_cell (inv_global_scale scale qf_lower qf_higher : F)
  (cur_pow butteraugli_target dist q : F) : F :=
  let diff := dist / butteraugli_target in
  if cur_pow ==? flit 0.0 then
    let q := if diff >? flit 1.0
             then raise_cell inv_global_scale scale diff q else q in
    clamp_qf qf_lower qf_higher q
  else
    let q := if diff <=? flit 1.0
             then q * fpow diff cur_pow
             else raise_cell inv_global_scale scale diff q in
    clamp_qf qf_lower qf_higher q.

(** The update of the whole field in iteration [i]. *)
Definition update_quant_field (inv_global_scale scale qf_lower qf_higher : F)
  (i : nat) (butteraugli_target : F) (tile_distmap quant_field : ImageF F)
  : ImageF F :=
  let cur_pow := cur_pow i butteraugli_target in
  for_loop 0 (ysize quant_field)
    (fun y quant_field =>
       for_loop 0 (xsize quant_field)
         (fun x quant_field =>
            store quant_field y x
              (update_cell inv_global_scale scale qf_lower qf_higher cur_pow
                 butteraugli_target (Row tile_distmap y x) (Row quant_field y x)))
         quant_field)
    quant_field.

(** The bounds of the search, from [ImageMinMax] to the [JXL_ASSERT]:
    [Some (qf_lower, qf_higher)] when the assertion holds, [None] when
    it aborts. *)
Definition qf_bounds (initial_quant_field : ImageF F) : option (F * F) :=
  let '(initial_qf_min, initial_qf_max) := ImageMinMax initial_quant_field in
  let initial_qf_ratio := initial_qf_max / initial_qf_min in
  let qf_max_deviation_low := fsqrt (flit 250 / initial_qf_ratio) in
  let asymmetry := flit 2 in
  let asymmetry := if qf_max_deviation_low <? asymmetry
                   then qf_max_deviation_low else asymmetry in
  let qf_lower := initial_qf_min / (asymmetry * qf_max_deviation_low) in
  let qf_higher := initial_qf_max * (qf_max_deviation_low / asymmetry) in
  if qf_higher / qf_lower <? flit 253 then Some (qf_lower, qf_higher) else None.

Definition InitialQuantDC (butteraugli_target : F) : F :=
  let kDcMul := flit 2.9 in
  let butteraugli_target_dc :=
    std_min butteraugli_target
      (kDcMul * fpow ((flit 1.0 / kDcMul) * butteraugli_target) kDcQuantPow) in
  std_min (kDcQuant / butteraugli_target_dc) (flit 50).

End FindBestLibm.

Section MaxError.
Context {F : Type} `{FloatOps F}.
Local Open Scope fl_scope.

(** The error of the block at [(bx, by')] ([by] in the code): the loops over the three
    channels and the pixels the block covers. *)
Definition block_max_error (opsin decoded : Image3F F) (inv_max_err : nat -> F)
  (acs : AcStrategy) (bx by' : nat) : F :=
  for_loop 0 3
    (fun c max_error =>
       for_loop (by' * kBlockDim) ((by' + covered_blocks_y acs) * kBlockDim)
         (fun y max_error =>
            if (ysize3 decoded <=? y)%nat then max_error
            else
              let in_row := PlaneRow opsin c y in
              let dec_row := PlaneRow decoded c y in
              for_loop (bx * kBlockDim) ((bx + covered_blocks_x acs) * kBlockDim)
                (fun x max_error =>
                   if (xsize3 decoded <=? x)%nat then max_error
                   else std_max (fabs (in_row x - dec_row x) * inv_max_err c)
                          max_error)
                max_error)
         max_error)
    (flit 0).

Definition qf_mul (max_error : F) : F :=
  if max_error <? flit 0.5 then max_error * flit 2.0
  else if max_error >? flit 1.0 then max_error else flit 1.0.

(** [quant_field_row[qx] *= qf_mul] over the cells of the block. *)
Definition scale_block (acs : AcStrategy) (bx by' : nat) (qf_mul : F)
  (quant_field : ImageF F) : ImageF F :=
  for_loop by' (by' + covered_blocks_y acs)
    (fun qy quant_field =>
       for_loop bx (bx + covered_blocks_x acs)
         (fun qx quant_field =>
            store quant_field qy qx (Row quant_field qy qx * qf_mul))
         quant_field)
    quant_field.

(** The body of the loop over the blocks, for the block at [(bx, by')]. *)
Definition MaxErrorBlock (opsin decoded : Image3F F) (inv_max_err : nat -> F)
  (ac_strategy : AcStrategyImage) (by' bx : nat) (quant_field : ImageF F)
  : ImageF F :=
  let acs := ac_strategy by' bx in
  if negb (IsFirstBlock acs) then quant_field
  else
    let max_error := block_max_error opsin decoded inv_max_err acs bx by' in
    scale_block acs bx by' (qf_mul max_error) quant_field.

End MaxError.

(* ================================================================== *)
(** * The vocabulary of the statements *)

(** Two images of the same size and content. *)
Definition same_image {F : Type} (a b : ImageF F) : Prop :=
  xsize a = xsize b /\ ysize a = ysize b /\ forall y x, Row a y x = Row b y x.

(** [body] rewrites the cells of [C], each to [g] of its old content,
    and nothing else. *)
Definition updates {F : Type} (body : ImageF F -> ImageF F) (C : nat -> nat -> bool)
  (g : nat -> nat -> F -> F) : Prop :=
  forall img,
    xsize (body img) = xsize img /\ ysize (body img) = ysize img /\
    forall y x, Row (body img) y x = if C y x then g y x (Row img y x) else Row img y x.

(** From [a] to [b], only cells of [C] were written, each with a value
    that satisfies [Pv]. *)
Definition writes {F : Type} (Pv : F -> Prop) (C : nat -> nat -> bool)
  (a b : ImageF F) : Prop :=
  xsize b = xsize a /\ ysize b = ysize a /\
  forall y x, if C y x then Pv (Row b y x) else Row b y x = Row a y x.

(** The cells [lo <= x < hi] of row [y]. *)
Definition row_seg (y lo hi : nat) (y' x' : nat) : bool :=
  (y' =? y)%nat && ((lo <=? x')%nat && (x' <? hi)%nat).

(** The cells [lo <= y < hi] of column [x]. *)
Definition col_seg (x lo hi : nat) (y' x' : nat) : bool :=
  (x' =? x)%nat && ((lo <=? y')%nat && (y' <? hi)%nat).

(** The cells the block at [(bx, by')] covers. *)
Definition covers (acs : AcStrategy) (bx by' : nat) (y x : nat) : bool :=
  (by' <=? y)%nat && (y <? by' + covered_blocks_y acs)%nat &&
  ((bx <=? x)%nat && (x <? bx + covered_blocks_x acs)%nat).

(** [(x, y)] is a first block of an [xs] by [ys] field. *)
Definition first_block (ac_strategy : AcStrategyImage) (xs ys y x : nat) : Prop :=
  (y < ys)%nat /\ (x < xs)%nat /\ IsFirstBlock (ac_strategy y x) = true.

(** The invariant of an AC-strategy image over an [xs] by [ys] field:
    every block covers at least one cell, lies inside the field, and
    no two blocks overlap. *)
Definition tiling (ac_strategy : AcStrategyImage) (xs ys : nat) : Prop :=
  forall y x, first_block ac_strategy xs ys y x ->
    (1 <= covered_blocks_x (ac_strategy y x))%nat /\
    (1 <= covered_blocks_y (ac_strategy y x))%nat /\
    (x + covered_blocks_x (ac_strategy y x) <= xs)%nat /\
    (y + covered_blocks_y (ac_strategy y x) <= ys)%nat /\
    forall y' x', first_block ac_strategy xs ys y' x' -> (y', x') <> (y, x) ->
      forall v u, covers (ac_strategy y x) x y v u = true ->
                  covers (ac_strategy y' x') x' y' v u = false.

(** Every block holds one value: the one in its first cell. *)
Definition block_constant {F : Type} (ac_strategy : AcStrategyImage)
  (img : ImageF F) : Prop :=
  forall y x, first_block ac_strategy (xsize img) (ysize img) y x ->
    forall v u, covers (ac_strategy y x) x y v u = true -> Row img v u = Row img y x.

(** What holds of [img] once [AdjustQuantField] has handled the blocks
    of [done], starting from [qf0]: their cells hold the block's maximum
    in [qf0], all other cells are as they were. *)
Definition adjusted {F : Type} `{FloatOps F} (ac_strategy : AcStrategyImage)
  (qf0 : ImageF F) (done : nat -> nat -> Prop) (img : ImageF F) : Prop :=
  xsize img = xsize qf0 /\ ysize img = ysize qf0 /\
  (forall y x, done y x -> first_block ac_strategy (xsize qf0) (ysize qf0) y x ->
     forall v u, covers (ac_strategy y x) x y v u = true ->
       Row img v u = block_max qf0 (ac_strategy y x) x y) /\
  (forall v u,
     (forall y x, done y x -> first_block ac_strategy (xsize qf0) (ysize qf0) y x ->
        covers (ac_strategy y x) x y v u = false) ->
     Row img v u = Row qf0 v u).

(** Whether the cell [(x, y)] lies in the window of [(x0, y0)]. *)
Definition in_window {F : Type} (field : ImageF F) (local_radius : Z)
  (x0 y0 : nat) (y x : nat) : bool :=
  let '(x_min, x_max, y_min, y_max) := peak_window field local_radius x0 y0 in
  ((y_min <=? Z.of_nat y)%Z && (Z.of_nat y <? y_max)%Z) &&
  ((x_min <=? Z.of_nat x)%Z && (Z.of_nat x <? x_max)%Z).

(** What a peak at [(x0, y0)] leaves in a cell of its window that held
    [cur_dist]. *)
Definition stamp_value {F : Type} `{FloatOps F} (x0 y0 : nat) (y x : nat)
  (cur_dist : F) : F :=
  let dist := flit (inject_Z (Z.max (Z.abs (Z.of_nat y - Z.of_nat y0))
                                    (Z.abs (Z.of_nat x - Z.of_nat x0)))) in
  if (fltb cur_dist (flit 0) || fltb dist cur_dist)%bool then dist else cur_dist.

(** [min(t, kDcMul * (t / kDcMul) ^ kDcQuantPow)] on the reals. *)
Definition target_dc (t : R) : R := Rmin t (2.9 * Rpower (t / 2.9) 0.55).

(* ================================================================== *)
(** * Inputs of the examples *)

(** [kDiffCutoff], the cutoff [AdaptiveQuantizationMap] passes to
    [DiffPrecompute]. *)
Definition kDiffCutoff {F : Type} `{FloatOps F} : F := flit 0.11883287948847132.

(** An input whose Y plane is 0 but for a 1 at column 1 of row 0. *)
Definition corner_step {F : Type} `{FloatOps F} : Image3F F :=
  mkImage3F 8 8
    (fun c y x =>
       if (c =? 1)%nat && (y =? 0)%nat && (x =? 1)%nat then flit 1 else flit 0).

(** A decoded image that equals the input: all samples are 1/4. *)
Definition flat_quarter {F : Type} `{FloatOps F} : Image3F F :=
  mkImage3F 8 8 (fun _ _ _ => flit 0.25).

(** The AC strategy of 8x8 transforms only. *)
Definition all_dct8 : AcStrategyImage := fun _ _ => mkAcStrategy true 1 1.

(** The AC strategy of one 16x16 transform at the origin. *)
Definition one_dct16 : AcStrategyImage :=
  fun y x => mkAcStrategy ((y =? 0)%nat && (x =? 0)%nat) 2 2.

(** The field of one cell that holds 1. *)
Definition unit_field {F : Type} `{FloatOps F} : ImageF F :=
  mkImageF 1 1 (fun _ _ => flit 1).

(** The 2x2 field that holds 1, 2 in its first row and 3, 4 in its
    second. *)
Definition field_1234 {F : Type} `{FloatOps F} : ImageF F :=
  mkImageF 2 2 (fun y x => flit (inject_Z (Z.of_nat (1 + x + 2 * y)))).

(** The 5x5 field of zeros with a 5 in the middle. *)
Definition centre_peak {F : Type} `{FloatOps F} : ImageF F :=
  mkImageF 5 5 (fun y x => if (y =? 2)%nat && (x =? 2)%nat then flit 5 else flit 0).

(** The cells of an image, row by row. *)
Definition cells (img : ImageF Q) : list (list Q) :=
  map (fun y => map (fun x => Qred (Row img y x)) (seq 0 (xsize img)))
    (seq 0 (ysize img)).

(* ================================================================== *)
(** * binary32 *)

(** A [float]: a finite number as sign and magnitude (so that zero has a
    sign), an infinity, or a NaN. *)
Inductive f32 : Type :=
| Fin (neg : bool) (mag : Q)
| Inf (neg : bool)
| NaN.

Section Binary32.
Local Open Scope Q_scope.

(** [floor (log2 m)] of a positive rational. *)
Definition ilog2 (m : Q) : Z :=
  let e := (Z.log2 (Qnum m) - Z.log2 (Zpos (Qden m)))%Z in
  if Qle_bool (2 ^ e) m then e else (e - 1)%Z.

(** The nearest integer, ties to even. *)
Definition rne (x : Q) : Z :=
  let f := Qfloor x in
  match ((x - inject_Z f) ?= (1 # 2))%Q with
  | Lt => f
  | Gt => (f + 1)%Z
  | Eq => if Z.even f then f else (f + 1)%Z
  end.

(** The distance between the floats around [m]: 24 bits of precision,
    gradual underflow below [2^-126]. *)
Definition ulp32 (m : Q) : Q := 2 ^ (Z.max (ilog2 m) (-126) - 23).

(** Rounding a magnitude to nearest, ties to even; [None] is overflow. *)
Definition round_mag (m : Q) : option Q :=
  let u := ulp32 m in
  let r := inject_Z (rne (m / u)) * u in
  if Qle_bool (2 ^ 128) r then None else Some (Qred r).

Definition rnd (neg : bool) (m : Q) : f32 :=
  match round_mag m with
  | Some m' => Fin neg m'
  | None => Inf neg
  end.

Definition Qneg (v : Q) : bool := negb (Qle_bool 0 v).

(** Rounding a signed number. *)
Definition rnd_val (v : Q) : f32 := rnd (Qneg v) (Qabs v).

(** The [double] nearest to a decimal of the normal range. *)
Definition round_double (v : Q) : Q :=
  let u := 2 ^ (ilog2 (Qabs v) - 52) in
  inject_Z (rne (v / u)) * u.

Definition val (neg : bool) (m : Q) : Q := if neg then - m else m.

Definition f32_compare (x y : f32) : option comparison :=
  match x, y with
  | NaN, _ | _, NaN => None
  | Inf s1, Inf s2 =>
      Some (match s1, s2 with
            | true, false => Lt
            | false, true => Gt
            | _, _ => Eq
            end)
  | Inf s, Fin _ _ => Some (if s then Lt else Gt)
  | Fin _ _, Inf s => Some (if s then Gt else Lt)
  | Fin s1 m1, Fin s2 m2 => Some (val s1 m1 ?= val s2 m2)
  end.

Definition f32_ltb (x y : f32) : bool :=
  match f32_compare x y with Some Lt => true | _ => false end.

Definition f32_leb (x y : f32) : bool :=
  match f32_compare x y with Some (Lt | Eq) => true | _ => false end.

Definition f32_eqb (x y : f32) : bool :=
  match f32_compare x y with Some Eq => true | _ => false end.

Definition f32_opp (x : f32) : f32 :=
  match x with
  | Fin s m => Fin (negb s) m
  | Inf s => Inf (negb s)
  | NaN => NaN
  end.

Definition f32_abs (x : f32) : f32 :=
  match x with
  | Fin _ m => Fin false m
  | Inf _ => Inf false
  | NaN => NaN
  end.

Definition f32_add (x y : f32) : f32 :=
  match x, y with
  | NaN, _ | _, NaN => NaN
  | Inf s1, Inf s2 => if Bool.eqb s1 s2 then Inf s1 else NaN
  | Inf s, Fin _ _ | Fin _ _, Inf s => Inf s
  | Fin s1 m1, Fin s2 m2 =>
      let v := val s1 m1 + val s2 m2 in
      if Qeq_bool v 0 then Fin (s1 && s2) 0 else rnd_val v
  end.

Definition f32_sub (x y : f32) : f32 := f32_add x (f32_opp y).

Definition f32_mul (x y : f32) : f32 :=
  match x, y with
  | NaN, _ | _, NaN => NaN
  | Inf s1, Inf s2 => Inf (xorb s1 s2)
  | Inf s1, Fin s2 m | Fin s2 m, Inf s1 =>
      if Qeq_bool m 0 then NaN else Inf (xorb s1 s2)
  | Fin s1 m1, Fin s2 m2 => rnd (xorb s1 s2) (m1 * m2)
  end.

Definition f32_div (x y : f32) : f32 :=
  match x, y with
  | NaN, _ | _, NaN => NaN
  | Inf _, Inf _ => NaN
  | Inf s1, Fin s2 _ => Inf (xorb s1 s2)
  | Fin s1 _, Inf s2 => Fin (xorb s1 s2) 0
  | Fin s1 m1, Fin s2 m2 =>
      if Qeq_bool m2 0
      then (if Qeq_bool m1 0 then NaN else Inf (xorb s1 s2))
      else rnd (xorb s1 s2) (m1 / m2)
  end.

(** A rational that rounds like the square root of [m]: the integer
    square root of [m * 4^k], with 27 bits or more, and a sticky
    half when it is not exact. *)
Definition sqrt_mag (m : Q) : Q :=
  let k := (27 - ilog2 m / 2)%Z in
  let scaled := m * 4 ^ k in
  let s := Z.sqrt (Qfloor scaled) in
  let sticky := if Qeq_bool (inject_Z (s * s)) scaled then 0%Z else 1%Z in
  inject_Z (2 * s + sticky) / 2 ^ (k + 1).

Definition f32_sqrt (x : f32) : f32 :=
  match x with
  | NaN => NaN
  | Inf false => Inf false
  | Inf true => NaN
  | Fin s m =>
      if Qeq_bool m 0 then Fin s 0
      else if s then NaN
      else rnd false (sqrt_mag m)
  end.

(** Conversion to [int]: towards zero.  An infinity or a NaN is
    undefined behaviour in C++; they give 0 here. *)
Definition f32_trunc (x : f32) : Z :=
  match x with
  | Fin s m => if s then (- Qfloor m)%Z else Qfloor m
  | _ => 0%Z
  end.

End Binary32.

#[global] Instance F32_ops : FloatOps f32 := {
  flit := rnd_val;
  fadd := f32_add;
  fsub := f32_sub;
  fmul := f32_mul;
  fdiv := f32_div;
  fabs := f32_abs;
  fltb := f32_ltb;
  fleb := f32_leb;
  feqb := f32_eqb;
  ftrunc := f32_trunc
}.

(** [std::sqrt] is correctly rounded; [std::pow] is whatever the C
    library computes, a parameter here. *)
Definition F32_libm (powf : f32 -> f32 -> f32) : Libm f32 := {|
  fsqrt := f32_sqrt;
  fpow := powf
|}.

(** The numbers of Stdlib's [spec_float] at [prec = 24], [emax = 128]. *)
Definition of_spec_float (x : spec_float) : f32 :=
  match x with
  | S754_zero s => Fin s 0%Q
  | S754_infinity s => Inf s
  | S754_nan => NaN
  | S754_finite s m e => Fin s (Qred (inject_Z (Zpos m) * 2 ^ e)%Q)
  end.

Definition sf (num : Z) (e : Z) : spec_float := binary_normalize 24 128 num e false.

Definition check2 (op : f32 -> f32 -> f32) (sop : spec_float -> spec_float -> spec_float)
  (a b : spec_float) : bool :=
  match op (of_spec_float a) (of_spec_float b), of_spec_float (sop a b) with
  | Fin s m, Fin s' m' => Bool.eqb s s' && Qeq_bool m m'
  | Inf s, Inf s' => Bool.eqb s s'
  | NaN, NaN => true
  | _, _ => false
  end.

Definition samples : list spec_float :=
  [sf 1 0; sf 3 0; sf 7 (-3); sf 10 0; sf 61 (-3); sf 16777215 0; sf 16777215 104;
   sf 1 (-149); sf 3 (-149); sf 1 (-126); sf 8388609 (-149); sf (-5) 2; sf 0 0;
   sf 999 (-10); sf 123456789 (-40); sf 1 127; sf (-16777215) 104; sf 5 (-151);
   S754_infinity false; S754_infinity true; S754_nan; S754_zero true;
   sf 11184811 (-25); sf 13421773 (-27); sf 1 (-100); sf 250 100].

Definition all_pairs (f : spec_float -> spec_float -> bool) : bool :=
  forallb (fun a => forallb (fun b => f a b) samples) samples.

(** ** What the proofs about binary32 speak of *)

(** The exponent of the binade [round_mag] rounds in. *)
Definition binade (m : Q) : Z := Z.max (ilog2 m) (-126).

(** The number [round_mag] rounds to, before the test for overflow. *)
Definition rounded (m : Q) : Q := (inject_Z (rne (m / ulp32 m)) * ulp32 m)%Q.

(** A float whose magnitude is not negative. *)
Definition valid (x : f32) : Prop :=
  match x with
  | Fin _ m => (0 <= m)%Q
  | _ => True
  end.

(** The reciprocal [1.0f / x] of a float that is not negative. *)
Definition recip_ok (r : f32) : Prop :=
  r = Inf false \/ exists m, r = Fin false m /\ (0 <= m)%Q.

(** One rounding changes a number by a factor of at most
    [eta = 1 + 2^-23]. *)
Definition eta : R := (1 + / 8388608)%R.

(** [x] is [y] up to [k] roundings. *)
Definition near (k : nat) (x y : R) : Prop :=
  (0 < y /\ y / eta ^ k <= x <= y * eta ^ k)%R.

(** ** Inputs of the binary32 examples *)

(** The ceilings [FindBestQuantizationHQ] passes: [quant_ceil] starts at
    5.0f and grows by 0.5f while it is below 8.0f. *)
Definition quant_ceilings : list f32 :=
  [flit 5; flit 5.5; flit 6; flit 6.5; flit 7; flit 7.5; flit 8].

(** The cells [FindBestQuantization] is proved for: finite floats
    between [2^-60] and [2^60]. *)
Definition qf_in_range (x : f32) : bool :=
  match x with
  | Fin false v => Qle_bool (2 ^ (-60)) v && Qle_bool v (2 ^ 60)
  | _ => false
  end.

(** The field [{2^-100, 250 * 2^100}]. *)
Definition field_wide : ImageF f32 :=
  mkImageF 2 1 (fun _ x => if (x =? 0)%nat then flit (2 ^ (-100)) else flit (250 * 2 ^ 100)).

(** A frame of 8x2 pixels whose Y plane is -1 everywhere. *)
Definition flat_dark : Image3F f32 := mkImage3F 8 2 (fun _ _ _ => flit (-1)).

(** A Y plane that alternates between 0 and 100. *)
Definition checkerboard : Image3F f32 :=
  mkImage3F 8 8 (fun _ y x => if Nat.even (x + y) then flit 0 else flit 100).

(** The set-up of the search does not call [std::pow]: where one
    function has to be named, this one is. *)
Definition powf_nan : f32 -> f32 -> f32 := fun _ _ => NaN.

(* ================================================================== *)
(** * The comparisons of the real instance *)

Lemma Rltb_true (a b : R) : Rltb a b = true <-> (a < b)%R.
Proof. unfold Rltb; destruct (Rlt_dec a b); split; intros; try easy; lra. Qed.

Lemma Rltb_false (a b : R) : Rltb a b = false <-> (b <= a)%R.
Proof. unfold Rltb; destruct (Rlt_dec a b); split; intros; try easy; lra. Qed.

Lemma Rleb_true (a b : R) : Rleb a b = true <-> (a <= b)%R.
Proof. unfold Rleb; destruct (Rle_dec a b); split; intros; try easy; lra. Qed.

Lemma Rleb_false (a b : R) : Rleb a b = false <-> (b < a)%R.
Proof. unfold Rleb; destruct (Rle_dec a b); split; intros; try easy; lra. Qed.

Lemma Reqb_true (a b : R) : Reqb a b = true <-> a = b.
Proof. unfold Reqb; destruct (Req_dec_T a b); split; intros; easy. Qed.

Lemma Reqb_false (a b : R) : Reqb a b = false <-> a <> b.
Proof. unfold Reqb; destruct (Req_dec_T a b); split; intros; easy. Qed.

(** Unfolds the arithmetic of the [R] instance down to [Rplus], [Rmult],
    ... and integer constants. *)
Ltac Rops :=
  cbn [flit fadd fsub fmul fdiv fabs fltb fleb feqb fsqrt fpow
       R_ops R_libm] in *;
  unfold Q2R in *; cbn [Qnum Qden] in *;
  rewrite ?Rinv_1, ?Rmult_1_r in *.

(** Turns the comparisons of the [R] instance into hypotheses, the
    innermost first. *)
Ltac Rplain t :=
  lazymatch t with
  | context [Rltb _ _] => fail
  | context [Rleb _ _] => fail
  | context [Reqb _ _] => fail
  | _ => idtac
  end.

Ltac Rcases :=
  repeat match goal with
  | |- context [Rltb ?a ?b] =>
      Rplain a; Rplain b;
      let E := fresh "E" in
      destruct (Rltb a b) eqn:E;
      [apply Rltb_true in E | apply Rltb_false in E]
  | |- context [Rleb ?a ?b] =>
      Rplain a; Rplain b;
      let E := fresh "E" in
      destruct (Rleb a b) eqn:E;
      [apply Rleb_true in E | apply Rleb_false in E]
  | |- context [Reqb ?a ?b] =>
      Rplain a; Rplain b;
      let E := fresh "E" in
      destruct (Reqb a b) eqn:E;
      [apply Reqb_true in E | apply Reqb_false in E]
  end.

Lemma std_max_R (a b : R) : std_max a b = Rmax a b.
Proof.
  unfold std_max; Rops; Rcases; unfold Rmax; destruct (Rle_dec a b); lra.
Qed.

Lemma std_min_R (a b : R) : std_min a b = Rmin a b.
Proof.
  unfold std_min; Rops; Rcases; unfold Rmin; destruct (Rle_dec a b); lra.
Qed.

(* ================================================================== *)
(** * Loops *)

Section Loops.
Variable S : Type.

Lemma for_loop_nil (lo hi : nat) (body : nat -> S -> S) (s : S) :
  (hi <= lo)%nat -> for_loop lo hi body s = s.
Proof.
  intros Hle. unfold for_loop. replace (hi - lo)%nat with 0%nat by lia. reflexivity.
Qed.

Lemma for_loop_snoc (lo hi : nat) (body : nat -> S -> S) (s : S) :
  (lo <= hi)%nat ->
  for_loop lo (Datatypes.S hi) body s = body hi (for_loop lo hi body s).
Proof.
  intros Hle. unfold for_loop.
  replace (Datatypes.S hi - lo)%nat with (Datatypes.S (hi - lo)) by lia.
  rewrite seq_S, fold_left_app. cbn. do 2 f_equal. lia.
Qed.

Lemma for_loop_cons (lo hi : nat) (body : nat -> S -> S) (s : S) :
  (lo < hi)%nat ->
  for_loop lo hi body s = for_loop (Datatypes.S lo) hi body (body lo s).
Proof.
  intros Hlt. unfold for_loop.
  replace (hi - lo)%nat with (Datatypes.S (hi - Datatypes.S lo)) by lia.
  reflexivity.
Qed.

(** The invariant rule of [for_loop]. *)
Lemma for_loop_inv (P : nat -> S -> Prop) (lo hi : nat) (body : nat -> S -> S) (s : S) :
  (lo <= hi)%nat ->
  P lo s ->
  (forall i s, (lo <= i < hi)%nat -> P i s -> P (Datatypes.S i) (body i s)) ->
  P hi (for_loop lo hi body s).
Proof.
  intros Hle H0 Hstep. induction hi as [|hi IH].
  - replace lo with 0%nat in * by lia. exact H0.
  - destruct (Nat.eq_dec lo (Datatypes.S hi)) as [->|Hne].
    + rewrite for_loop_nil by lia. exact H0.
    + rewrite for_loop_snoc by lia. apply Hstep; [lia|].
      apply IH; [lia|]. intros i s' Hi. apply Hstep. lia.
Qed.

(** The same rule for an invariant that does not mention the counter. *)
Lemma for_loop_inv' (P : S -> Prop) (lo hi : nat) (body : nat -> S -> S) (s : S) :
  P s ->
  (forall i s, (lo <= i < hi)%nat -> P s -> P (body i s)) ->
  P (for_loop lo hi body s).
Proof.
  intros H0 Hstep. destruct (Nat.le_gt_cases lo hi) as [Hle|Hgt].
  - apply (for_loop_inv (fun _ => P)); auto.
  - rewrite for_loop_nil by lia. exact H0.
Qed.

End Loops.


Section MoreLoops.
Variable S : Type.

Lemma for_loop_ext (lo hi : nat) (body body' : nat -> S -> S) (s : S) :
  (forall i s, (lo <= i < hi)%nat -> body i s = body' i s) ->
  for_loop lo hi body s = for_loop lo hi body' s.
Proof.
  intros Hext. destruct (Nat.le_gt_cases lo hi) as [Hle|Hgt].
  - apply (for_loop_inv (fun k r => r = for_loop lo k body' s)); auto.
    + now rewrite for_loop_nil.
    + intros i r Hi ->. rewrite for_loop_snoc by lia. apply Hext. exact Hi.
  - now rewrite !for_loop_nil by lia.
Qed.
End MoreLoops.


Section LoopsOpt.
Variable S : Type.

Lemma for_loop_opt_nil (lo hi : nat) (body : nat -> S -> option S) (s : S) :
  (hi <= lo)%nat -> for_loop_opt lo hi body s = Some s.
Proof.
  intros Hle. unfold for_loop_opt. replace (hi - lo)%nat with 0%nat by lia. reflexivity.
Qed.

Lemma for_loop_opt_snoc (lo hi : nat) (body : nat -> S -> option S) (s : S) :
  (lo <= hi)%nat ->
  for_loop_opt lo (Datatypes.S hi) body s =
  match for_loop_opt lo hi body s with Some s' => body hi s' | None => None end.
Proof.
  intros Hle. unfold for_loop_opt.
  replace (Datatypes.S hi - lo)%nat with (Datatypes.S (hi - lo)) by lia.
  rewrite seq_S, fold_left_app. cbn. replace (lo + (hi - lo))%nat with hi by lia.
  reflexivity.
Qed.

(** The invariant rule of [for_loop_opt]: a body that keeps the
    invariant never fails. *)
Lemma for_loop_opt_inv (P : nat -> S -> Prop) (lo hi : nat)
  (body : nat -> S -> option S) (s : S) :
  (lo <= hi)%nat ->
  P lo s ->
  (forall i s, (lo <= i < hi)%nat -> P i s ->
     exists s', body i s = Some s' /\ P (Datatypes.S i) s') ->
  exists s', for_loop_opt lo hi body s = Some s' /\ P hi s'.
Proof.
  intros Hle H0 Hstep. induction hi as [|hi IH].
  - replace lo with 0%nat in * by lia. exists s. split; [reflexivity|exact H0].
  - destruct (Nat.eq_dec lo (Datatypes.S hi)) as [->|Hne].
    + rewrite for_loop_opt_nil by lia. eauto.
    + rewrite for_loop_opt_snoc by lia.
      destruct IH as (s' & -> & Hs'); [lia| |].
      * intros i s' Hi. apply Hstep. lia.
      * apply Hstep; [lia|exact Hs'].
Qed.

End LoopsOpt.

(* ================================================================== *)
(** * Stores *)

Section Stores.
Variable F : Type.
Implicit Types (img : ImageF F) (body : ImageF F -> ImageF F).

Lemma Row_store img y x v y' x' :
  Row (store img y x v) y' x' =
  if (y' =? y)%nat && (x' =? x)%nat then v else Row img y' x'.
Proof. reflexivity. Qed.

Lemma updates_ext body (C C' : nat -> nat -> bool) g :
  (forall y x, C y x = C' y x) -> updates body C g -> updates body C' g.
Proof.
  intros HC Hb img. destruct (Hb img) as (Hx & Hy & Hr).
  repeat split; auto. intros y x. rewrite <- HC. apply Hr.
Qed.

Lemma updates_id (C : nat -> nat -> bool) g :
  (forall y x, C y x = false) -> updates (fun img => img) C g.
Proof. intros HC img. repeat split; auto. intros y x. now rewrite HC. Qed.

Lemma updates_store (py px : nat) (g : nat -> nat -> F -> F) :
  updates (fun img => store img py px (g py px (Row img py px)))
    (fun y x => (y =? py)%nat && (x =? px)%nat) g.
Proof.
  intros img. repeat split. intros y x. rewrite Row_store.
  destruct (Nat.eqb_spec y py), (Nat.eqb_spec x px); cbn; subst; reflexivity.
Qed.

Lemma existsb_seq (f : nat -> bool) (lo n : nat) :
  existsb f (seq lo n) = true <-> exists i, (lo <= i < lo + n)%nat /\ f i = true.
Proof.
  rewrite existsb_exists. split; intros (i & Hi & Hf); exists i; split; auto;
    apply in_seq; auto.
Qed.

Lemma existsb_seq_false (f : nat -> bool) (lo n : nat) :
  existsb f (seq lo n) = false <-> forall i, (lo <= i < lo + n)%nat -> f i = false.
Proof.
  split.
  - intros Hf i Hi. destruct (f i) eqn:E; [|reflexivity].
    rewrite <- Hf. symmetry. apply existsb_seq. eauto.
  - intros Hf. destruct (existsb f (seq lo n)) eqn:E; [|reflexivity].
    apply existsb_seq in E. destruct E as (i & Hi & Hfi).
    rewrite Hf in Hfi; [discriminate|exact Hi].
Qed.

(** A loop whose iteration [i] rewrites the cells of [C i], no cell in
    two iterations, rewrites the cells of all of them. *)
Lemma updates_for_loop (lo hi : nat) (body : nat -> ImageF F -> ImageF F)
  (C : nat -> nat -> nat -> bool) (g : nat -> nat -> F -> F) :
  (forall i, (lo <= i < hi)%nat -> updates (body i) (C i) g) ->
  (forall i j y x, (lo <= i < hi)%nat -> (lo <= j < hi)%nat ->
     C i y x = true -> C j y x = true -> i = j) ->
  updates (for_loop lo hi body)
    (fun y x => existsb (fun i => C i y x) (seq lo (hi - lo))) g.
Proof.
  intros Hbody Hdisj img.
  destruct (Nat.le_gt_cases lo hi) as [Hle|Hgt].
  2:{ rewrite for_loop_nil by lia. replace (hi - lo)%nat with 0%nat by lia.
      repeat split; auto. }
  pose (P := fun (k : nat) (res : ImageF F) =>
    xsize res = xsize img /\ ysize res = ysize img /\
    forall y x, Row res y x =
      if existsb (fun i => C i y x) (seq lo (k - lo))
      then g y x (Row img y x) else Row img y x).
  enough (P hi (for_loop lo hi body img)) as HP by exact HP.
  apply for_loop_inv; [exact Hle| |].
  - unfold P. rewrite Nat.sub_diag. repeat split; auto.
  - intros k res Hk (Hxs & Hys & Hrow).
    destruct (Hbody k Hk res) as (Bx & By & Br).
    repeat split; try congruence.
    intros y x. rewrite Br, Hrow.
    replace (S k - lo)%nat with (S (k - lo)) by lia.
    rewrite seq_S, existsb_app. cbn [existsb]. rewrite orb_false_r.
    replace (lo + (k - lo))%nat with k by lia.
    destruct (existsb (fun i => C i y x) (seq lo (k - lo))) eqn:Epre;
      destruct (C k y x) eqn:Ek; cbn; try reflexivity.
    apply existsb_seq in Epre. destruct Epre as (i & Hi & HCi).
    assert (i = k) by (apply (Hdisj i k y x); auto; lia). lia.
Qed.

End Stores.

Section Rects.
Variable F : Type.
Implicit Types img : ImageF F.

Lemma existsb_seq_id (lo hi y : nat) :
  existsb (fun i => (y =? i)%nat) (seq lo (hi - lo)) = (lo <=? y)%nat && (y <? hi)%nat.
Proof.
  apply eq_true_iff_eq. rewrite existsb_seq, andb_true_iff, Nat.leb_le, Nat.ltb_lt.
  split.
  - intros (i & Hi & He). apply Nat.eqb_eq in He. lia.
  - intros Hy. exists y. rewrite Nat.eqb_refl. split; [lia|reflexivity].
Qed.

Lemma existsb_seq_shift (y0 n y : nat) :
  existsb (fun i => (y =? y0 + i)%nat) (seq 0 (n - 0)) =
  (y0 <=? y)%nat && (y <? y0 + n)%nat.
Proof.
  apply eq_true_iff_eq. rewrite existsb_seq, andb_true_iff, Nat.leb_le, Nat.ltb_lt.
  split.
  - intros (i & Hi & He). apply Nat.eqb_eq in He. lia.
  - intros Hy. exists (y - y0)%nat. split; [lia|]. apply Nat.eqb_eq. lia.
Qed.

(** Two nested loops whose iteration [(i, j)] rewrites the cell
    [(py i, px j)]. *)
Lemma updates_nested (ylo yhi xlo xhi : nat)
  (body : nat -> nat -> ImageF F -> ImageF F) (py px : nat -> nat)
  (g : nat -> nat -> F -> F) :
  (forall i j, (ylo <= i < yhi)%nat -> (xlo <= j < xhi)%nat ->
     updates (body i j) (fun y x => (y =? py i)%nat && (x =? px j)%nat) g) ->
  (forall i i', (ylo <= i < yhi)%nat -> (ylo <= i' < yhi)%nat -> py i = py i' -> i = i') ->
  (forall j j', (xlo <= j < xhi)%nat -> (xlo <= j' < xhi)%nat -> px j = px j' -> j = j') ->
  updates
    (for_loop ylo yhi (fun i img => for_loop xlo xhi (fun j img => body i j img) img))
    (fun y x => existsb (fun i => (y =? py i)%nat) (seq ylo (yhi - ylo)) &&
                existsb (fun j => (x =? px j)%nat) (seq xlo (xhi - xlo)))
    g.
Proof.
  intros Hbody Hiy Hix.
  eapply updates_ext; cycle 1.
  - apply updates_for_loop with
      (C := fun i y x => (y =? py i)%nat &&
                         existsb (fun j => (x =? px j)%nat) (seq xlo (xhi - xlo))).
    + intros i Hi.
      eapply updates_ext; cycle 1.
      * apply updates_for_loop with
          (C := fun j y x => (y =? py i)%nat && (x =? px j)%nat).
        -- intros j Hj. now apply Hbody.
        -- intros j j' y x Hj Hj' H1 H2.
           apply andb_true_iff in H1, H2. destruct H1 as [_ H1], H2 as [_ H2].
           apply Nat.eqb_eq in H1, H2. apply Hix; auto. congruence.
      * intros y x. cbn beta.
        destruct (y =? py i)%nat; cbn.
        -- reflexivity.
        -- apply existsb_seq_false. reflexivity.
    + intros i i' y x Hi Hi' H1 H2.
      apply andb_true_iff in H1, H2. destruct H1 as [H1 _], H2 as [H2 _].
      apply Nat.eqb_eq in H1, H2. apply Hiy; auto. congruence.
  - intros y x. cbn beta.
    destruct (existsb (fun j => (x =? px j)%nat) (seq xlo (xhi - xlo))) eqn:Ex.
    + rewrite andb_true_r. apply eq_true_iff_eq. rewrite !existsb_seq.
      split; intros (i & Hi & He); exists i; split; auto.
      * now rewrite andb_true_r in He.
      * now rewrite andb_true_r.
    + rewrite andb_false_r. apply existsb_seq_false. intros i _.
      now rewrite andb_false_r.
Qed.

End Rects.

Section Writes.
Variable F : Type.
Implicit Types (img a b c : ImageF F) (Pv : F -> Prop) (C : nat -> nat -> bool).

Lemma writes_same Pv C a b y x :
  writes Pv C a b -> C y x = false -> Row b y x = Row a y x.
Proof. intros (_ & _ & Hr) Hc. specialize (Hr y x). now rewrite Hc in Hr. Qed.

Lemma writes_value Pv C a b y x :
  writes Pv C a b -> C y x = true -> Pv (Row b y x).
Proof. intros (_ & _ & Hr) Hc. specialize (Hr y x). now rewrite Hc in Hr. Qed.

Lemma writes_nothing Pv C img : (forall y x, C y x = false) -> writes Pv C img img.
Proof. intros HC. repeat split. intros y x. now rewrite HC. Qed.

Lemma writes_ext Pv C C' a b :
  (forall y x, C y x = C' y x) -> writes Pv C a b -> writes Pv C' a b.
Proof.
  intros HC (Hx & Hy & Hr). repeat split; auto. intros y x. rewrite <- HC. apply Hr.
Qed.

Lemma writes_weaken Pv Pv' C a b :
  (forall v, Pv v -> Pv' v) -> writes Pv C a b -> writes Pv' C a b.
Proof.
  intros HP (Hx & Hy & Hr). repeat split; auto. intros y x. specialize (Hr y x).
  destruct (C y x); auto.
Qed.

Lemma writes_trans Pv C1 C2 a b c :
  writes Pv C1 a b -> writes Pv C2 b c ->
  writes Pv (fun y x => C1 y x || C2 y x) a c.
Proof.
  intros (Hx1 & Hy1 & Hr1) (Hx2 & Hy2 & Hr2).
  split; [congruence|]. split; [congruence|]. intros y x.
  specialize (Hr1 y x). specialize (Hr2 y x).
  destruct (C2 y x), (C1 y x); cbn; congruence.
Qed.

Lemma writes_store Pv img (y x : nat) (v : F) :
  Pv v -> writes Pv (fun y' x' => (y' =? y)%nat && (x' =? x)%nat) img (store img y x v).
Proof.
  intros Hv. repeat split. intros y' x'. rewrite Row_store.
  now destruct ((y' =? y)%nat && (x' =? x)%nat).
Qed.

(** A loop of stores, iteration [i] to the cell [(py i, px i)]. *)
Lemma writes_for_loop Pv (lo hi : nat) (py px : nat -> nat) (v : nat -> ImageF F -> F) img :
  (forall i cur, (lo <= i < hi)%nat -> Pv (v i cur)) ->
  writes Pv
    (fun y x => existsb (fun i => (y =? py i)%nat && (x =? px i)%nat) (seq lo (hi - lo)))
    img
    (for_loop lo hi (fun i cur => store cur (py i) (px i) (v i cur)) img).
Proof.
  intros Hv. destruct (Nat.le_gt_cases lo hi) as [Hle|Hgt].
  2:{ rewrite for_loop_nil by lia. apply writes_nothing. intros y x.
      now replace (hi - lo)%nat with 0%nat by lia. }
  apply for_loop_inv with
    (P := fun k cur =>
       writes Pv
         (fun y x => existsb (fun i => (y =? py i)%nat && (x =? px i)%nat) (seq lo (k - lo)))
         img cur); [exact Hle| |].
  - apply writes_nothing. intros y x. now rewrite Nat.sub_diag.
  - intros k cur Hk Hcur.
    eapply writes_ext; [|eapply writes_trans; [exact Hcur|apply writes_store, Hv, Hk]].
    intros y x. cbn beta.
    replace (S k - lo)%nat with (S (k - lo)) by lia.
    rewrite seq_S, existsb_app. cbn [existsb]. rewrite orb_false_r.
    now replace (lo + (k - lo))%nat with k by lia.
Qed.

Lemma row_seg_loop (y lo hi off : nat) (y' x' : nat) :
  existsb (fun i => (y' =? y)%nat && (x' =? off + i)%nat) (seq lo (hi - lo)) =
  row_seg y (off + lo) (off + hi) y' x'.
Proof.
  unfold row_seg. apply eq_true_iff_eq.
  rewrite existsb_seq, !andb_true_iff, Nat.eqb_eq, Nat.leb_le, Nat.ltb_lt. split.
  - intros (i & Hi & He). rewrite andb_true_iff, !Nat.eqb_eq in He. lia.
  - intros Hy. exists (x' - off)%nat. split; [lia|].
    rewrite andb_true_iff, !Nat.eqb_eq. lia.
Qed.

Lemma col_seg_loop (x lo hi : nat) (y' x' : nat) :
  existsb (fun i => (y' =? i)%nat && (x' =? x)%nat) (seq lo (hi - lo)) =
  col_seg x lo hi y' x'.
Proof.
  unfold col_seg. apply eq_true_iff_eq.
  rewrite existsb_seq, !andb_true_iff, Nat.eqb_eq, Nat.leb_le, Nat.ltb_lt. split.
  - intros (i & Hi & He). rewrite andb_true_iff, !Nat.eqb_eq in He. lia.
  - intros Hy. exists y'. split; [lia|].
    rewrite andb_true_iff, !Nat.eqb_eq. lia.
Qed.

(** A loop of stores along row [y]. *)
Lemma writes_row_loop Pv (y lo hi : nat) (v : nat -> ImageF F -> F) img :
  (forall i cur, (lo <= i < hi)%nat -> Pv (v i cur)) ->
  writes Pv (row_seg y lo hi) img
    (for_loop lo hi (fun x cur => store cur y x (v x cur)) img).
Proof.
  intros Hv. eapply writes_ext;
    [|apply (@writes_for_loop Pv lo hi (fun _ => y) (fun x => x) v img Hv)].
  intros y' x'. cbn beta. apply (row_seg_loop y lo hi 0).
Qed.

(** A loop of stores along row [y], at the columns [off + i]. *)
Lemma writes_row_loop_off Pv (y off n : nat) (v : nat -> ImageF F -> F) img :
  (forall i cur, (i < n)%nat -> Pv (v i cur)) ->
  writes Pv (row_seg y off (off + n)) img
    (for_loop 0 n (fun i cur => store cur y (off + i) (v i cur)) img).
Proof.
  intros Hv. eapply writes_ext;
    [|apply (@writes_for_loop Pv 0 n (fun _ => y) (fun i => (off + i)%nat) v img)].
  - intros y' x'. cbn beta. rewrite (row_seg_loop y 0 n off). now rewrite Nat.add_0_r.
  - intros i cur Hi. apply Hv. lia.
Qed.

(** A loop of stores down column [x]. *)
Lemma writes_col_loop Pv (x lo hi : nat) (v : nat -> ImageF F -> F) img :
  (forall i cur, (lo <= i < hi)%nat -> Pv (v i cur)) ->
  writes Pv (col_seg x lo hi) img
    (for_loop lo hi (fun y cur => store cur y x (v y cur)) img).
Proof.
  intros Hv. eapply writes_ext;
    [|apply (@writes_for_loop Pv lo hi (fun y => y) (fun _ => x) v img Hv)].
  intros y' x'. cbn beta. apply col_seg_loop.
Qed.

Lemma row_seg_union (y a b c : nat) (y' x' : nat) :
  (a <= b <= c)%nat ->
  row_seg y a b y' x' || row_seg y b c y' x' = row_seg y a c y' x'.
Proof.
  intros Habc. unfold row_seg. destruct (Nat.eqb_spec y' y); cbn [andb orb]; [|reflexivity].
  apply eq_true_iff_eq.
  rewrite orb_true_iff, !andb_true_iff, !Nat.leb_le, !Nat.ltb_lt. lia.
Qed.

Lemma row_seg_single (y x : nat) (y' x' : nat) :
  (y' =? y)%nat && (x' =? x)%nat = row_seg y x (S x) y' x'.
Proof.
  unfold row_seg. destruct (Nat.eqb_spec y' y); cbn [andb]; [|reflexivity].
  apply eq_true_iff_eq. rewrite Nat.eqb_eq, !andb_true_iff, !Nat.leb_le, !Nat.ltb_lt. lia.
Qed.

End Writes.

(* ================================================================== *)
(** * AdjustQuantVal *)

Section AdjustQuantValFacts.
Local Open Scope R_scope.

Lemma AdjustQuantVal_at_ceiling (q d factor quant_max : R) :
  0.999 * quant_max <= q ->
  AdjustQuantVal q d factor quant_max = (false, q).
Proof.
  intros Hq. unfold AdjustQuantVal. Rops.
  destruct (Rleb _ q) eqn:E; [reflexivity|].
  apply Rleb_false in E. lra.
Qed.

Lemma AdjustQuantVal_below_ceiling (q d factor quant_max : R) :
  0 < quant_max -> q < 0.999 * quant_max ->
  exists q', AdjustQuantVal q d factor quant_max = (true, q') /\
             0 < q' <= quant_max.
Proof.
  intros Hm Hq. unfold AdjustQuantVal. Rops.
  destruct (Rleb _ q) eqn:E; [apply Rleb_true in E; lra|].
  eexists; split; [reflexivity|].
  rewrite std_max_R.
  set (m := Rmax _ _).
  assert (Hinv : 0 < / quant_max) by now apply Rinv_0_lt_compat.
  assert (Hm1 : / quant_max <= m).
  { unfold m. eapply Rle_trans; [|apply Rmax_l]. unfold Rdiv. lra. }
  assert (Hm0 : 0 < m) by lra.
  unfold Rdiv. rewrite Rmult_1_l. split.
  - now apply Rinv_0_lt_compat.
  - rewrite <- (Rinv_inv quant_max). apply Rinv_le_contravar; lra.
Qed.
End AdjustQuantValFacts.

(* ================================================================== *)
(** * FindBestQuantizationMaxError and InitialQuantDC *)

Section MaxErrorFacts.
Local Open Scope R_scope.

Lemma qf_mul_R (max_error : R) :
  qf_mul max_error =
  if Rlt_dec max_error 0.5 then max_error * 2
  else if Rlt_dec 1 max_error then max_error else 1.
Proof.
  unfold qf_mul. Rops. unfold Rltb.
  destruct (Rlt_dec max_error (5 * / 10)), (Rlt_dec max_error 0.5); try lra.
  destruct (Rlt_dec (10 * / 10) max_error), (Rlt_dec 1 max_error); lra.
Qed.

Lemma qf_mul_bounds (max_error : R) :
  (0.5 < max_error -> 1 <= qf_mul max_error) /\
  (0 < max_error <= 0.5 -> 0 < qf_mul max_error <= 1) /\
  (max_error = 0 -> qf_mul max_error = 0).
Proof.
  rewrite qf_mul_R.
  destruct (Rlt_dec max_error 0.5), (Rlt_dec 1 max_error); repeat split; intros; lra.
Qed.
End MaxErrorFacts.

Section MaxErrorBlockFacts.
Context {F : Type} `{FloatOps F}.

(** [scale_block] multiplies the cells of the block by [qf_mul]. *)
Lemma scale_block_updates (acs : AcStrategy) (bx by' : nat) (m : F) :
  updates (scale_block acs bx by' m) (covers acs bx by') (fun _ _ v => fmul v m).
Proof.
  unfold scale_block.
  eapply updates_ext; cycle 1.
  - apply updates_nested with
      (body := fun qy qx quant_field =>
                 store quant_field qy qx (fmul (Row quant_field qy qx) m))
      (py := fun qy => qy) (px := fun qx => qx).
    + intros i j _ _. apply (updates_store i j (fun _ _ v => fmul v m)).
    + auto.
    + auto.
  - intros v u. cbn beta. rewrite !existsb_seq_id. reflexivity.
Qed.
End MaxErrorBlockFacts.

Section MaxErrorR.
Local Open Scope R_scope.

Lemma block_max_error_nonneg (opsin decoded : Image3F R) (inv_max_err : nat -> R)
  (acs : AcStrategy) (bx by' : nat) :
  0 <= block_max_error opsin decoded inv_max_err acs bx by'.
Proof.
  unfold block_max_error.
  apply for_loop_inv' with (P := fun m : R => 0 <= m).
  - Rops. lra.
  - intros c m _ Hm.
    apply for_loop_inv' with (P := fun m : R => 0 <= m); [exact Hm|].
    intros y m1 _ Hm1. destruct (ysize3 decoded <=? y)%nat; [exact Hm1|].
    apply for_loop_inv' with (P := fun m : R => 0 <= m); [exact Hm1|].
    intros x m2 _ Hm2. destruct (xsize3 decoded <=? x)%nat; [exact Hm2|].
    rewrite std_max_R. eapply Rle_trans; [exact Hm2|apply Rmax_r].
Qed.
End MaxErrorR.


Section InitialQuantDCFacts.
Local Open Scope R_scope.

Lemma InitialQuantDC_R (t : R) : 0 < t ->
  InitialQuantDC t = Rmin (1.18 / target_dc t) 50.
Proof.
  intros Ht. unfold InitialQuantDC, kDcQuant, kDcQuantPow, target_dc.
  rewrite !std_min_R. Rops. unfold Rpow.
  destruct (Rlt_dec 0 _) as [_|n]; [|exfalso; apply n; lra].
  replace (10 * / 10 / (29 * / 10) * t) with (t / (29 * / 10)) by lra.
  reflexivity.
Qed.

Lemma target_dc_pos (t : R) : 0 < t -> 0 < target_dc t.
Proof.
  intros Ht. unfold target_dc. apply Rmin_glb_lt; [lra|].
  apply Rmult_lt_0_compat; [lra|]. unfold Rpower. apply exp_pos.
Qed.

Lemma target_dc_mono (t1 t2 : R) : 0 < t1 <= t2 -> target_dc t1 <= target_dc t2.
Proof.
  intros [H0 H12]. unfold target_dc.
  apply Rle_trans with (Rmin t2 (2.9 * Rpower (t1 / 2.9) 0.55)).
  - apply Rle_min_compat_r; lra.
  - apply Rle_min_compat_l.
    apply Rmult_le_compat_l; [lra|].
    apply Rle_Rpower_l; [lra|]. split.
    + apply Rdiv_lt_0_compat; lra.
    + unfold Rdiv. apply Rmult_le_compat_r; lra.
Qed.

Lemma InitialQuantDC_le_50 (t : R) : 0 < t -> InitialQuantDC t <= 50.
Proof. intros Ht. rewrite InitialQuantDC_R by easy. apply Rmin_r. Qed.

Lemma InitialQuantDC_antitone (t1 t2 : R) :
  0 < t1 <= t2 -> InitialQuantDC t2 <= InitialQuantDC t1.
Proof.
  intros [H0 H12]. rewrite !InitialQuantDC_R by lra.
  apply Rle_min_compat_r.
  pose proof (target_dc_pos H0). pose proof (target_dc_mono (conj H0 H12)).
  unfold Rdiv. apply Rmult_le_compat_l; [lra|].
  apply Rinv_le_contravar; lra.
Qed.

End InitialQuantDCFacts.

(* ================================================================== *)
(** * FindBestQuantization *)

Section CurPow.
Local Open Scope R_scope.

Lemma cur_pow_first_rounds (i : nat) (butteraugli_target : R) :
  (i < 2)%nat -> cur_pow i butteraugli_target = 0.2.
Proof.
  intros Hi. unfold cur_pow, kPow, kPowMod.
  destruct i as [|[|i]]; [| |lia]; cbn [Nat.ltb Nat.leb nth]; Rops; Rcases; lra.
Qed.

Lemma cur_pow_later_rounds (i : nat) (butteraugli_target : R) :
  (2 <= i)%nat -> cur_pow i butteraugli_target = 0.
Proof.
  intros Hi. unfold cur_pow, kPow, kPowMod.
  do 7 (destruct i as [|i]; [try lia; cbn [Nat.ltb Nat.leb nth]; Rops; Rcases; lra|]).
  cbn [Nat.ltb Nat.leb]. Rops. lra.
Qed.

Lemma clamp_qf_inside (qf_lower qf_higher q : R) :
  qf_lower <= q <= qf_higher -> clamp_qf qf_lower qf_higher q = q.
Proof.
  intros Hq. unfold clamp_qf. Rops. Rcases; lra.
Qed.

Lemma update_cell_zero_pow (inv_global_scale scale qf_lower qf_higher : R)
  (butteraugli_target dist q : R) :
  dist / butteraugli_target <= 1 ->
  update_cell inv_global_scale scale qf_lower qf_higher 0 butteraugli_target dist q =
  clamp_qf qf_lower qf_higher q.
Proof.
  intros Hd. unfold update_cell. Rops. Rcases; first [reflexivity | lra].
Qed.

Lemma update_cell_first_rounds (inv_global_scale scale qf_lower qf_higher : R)
  (butteraugli_target dist q : R) :
  dist / butteraugli_target <= 1 ->
  update_cell inv_global_scale scale qf_lower qf_higher 0.2 butteraugli_target dist q =
  clamp_qf qf_lower qf_higher (q * Rpow (dist / butteraugli_target) 0.2).
Proof.
  intros Hd. unfold update_cell. Rops. Rcases; first [reflexivity | lra].
Qed.

Lemma Rpow_lt_1 (x y : R) : 0 < x < 1 -> 0 < y -> 0 < Rpow x y < 1.
Proof.
  intros [H0 H1] Hy. unfold Rpow. destruct (Rlt_dec 0 x); [|lra].
  unfold Rpower. split; [apply exp_pos|].
  rewrite <- exp_0. apply exp_increasing.
  assert (ln x < 0) by (rewrite <- ln_1; apply ln_increasing; lra).
  nra.
Qed.
End CurPow.

Section QfBounds.
Local Open Scope R_scope.

Lemma ImageMinMax_pos (image : ImageF R) :
  (1 <= xsize image)%nat -> (1 <= ysize image)%nat ->
  (forall y x, (y < ysize image)%nat -> (x < xsize image)%nat -> 0 < Row image y x) ->
  0 < fst (ImageMinMax image) <= snd (ImageMinMax image).
Proof.
  intros Hx Hy Hpos. unfold ImageMinMax.
  apply for_loop_inv' with (P := fun mm : R * R => 0 < fst mm <= snd mm).
  - cbn. split; [apply Hpos; lia|lra].
  - intros y mm Hyr Hmm.
    apply for_loop_inv' with (P := fun mm : R * R => 0 < fst mm <= snd mm); [exact Hmm|].
    intros x [mn mx] Hxr Hmm'. cbn [fst snd] in *.
    rewrite std_min_R, std_max_R.
    specialize (Hpos y x ltac:(lia) ltac:(lia)).
    split.
    + apply Rmin_glb_lt; lra.
    + eapply Rle_trans; [apply Rmin_l|]. eapply Rle_trans; [|apply Rmax_l]. lra.
Qed.

Lemma qf_bounds_ratio (image : ImageF R) :
  0 < fst (ImageMinMax image) <= snd (ImageMinMax image) ->
  exists qf_lower qf_higher,
    qf_bounds image = Some (qf_lower, qf_higher) /\
    0 < qf_lower /\ qf_higher / qf_lower = 250.
Proof.
  unfold qf_bounds. destruct (ImageMinMax image) as [mn mx]. cbn [fst snd].
  intros [Hmn Hle]. Rops.
  set (ratio := mx / mn).
  assert (Hratio : 0 < ratio) by (apply Rdiv_lt_0_compat; lra).
  set (dev := sqrt (250 / ratio)).
  assert (Hq : 0 < 250 / ratio) by (apply Rdiv_lt_0_compat; lra).
  assert (Hdev : 0 < dev) by (now apply sqrt_lt_R0).
  assert (Hdev2 : dev * dev = 250 / ratio) by (apply sqrt_sqrt; lra).
  set (asym := if Rltb dev 2 then dev else 2).
  assert (Hasym : 0 < asym) by (unfold asym; destruct (Rltb dev 2); lra).
  assert (Hlo : 0 < mn / (asym * dev)).
  { apply Rdiv_lt_0_compat; [lra|]. now apply Rmult_lt_0_compat. }
  assert (Heq : mx * (dev / asym) / (mn / (asym * dev)) = 250).
  { replace (mx * (dev / asym) / (mn / (asym * dev))) with (ratio * (dev * dev))
      by (unfold ratio; field; lra).
    rewrite Hdev2. field. lra. }
  rewrite Heq.
  destruct (Rltb 250 253) eqn:E; [|apply Rltb_false in E; lra].
  eauto.
Qed.

End QfBounds.

(* ================================================================== *)
(** * AdjustQuantField *)

Section AdjustQuantFieldFacts.
Context {F : Type} `{FloatOps F}.
Implicit Types img : ImageF F.

Lemma std_max_same (a : F) : std_max a a = a.
Proof. unfold std_max. now destruct (fltb a a). Qed.

Lemma covers_corner (acs : AcStrategy) (x y : nat) :
  (1 <= covered_blocks_x acs)%nat -> (1 <= covered_blocks_y acs)%nat ->
  covers acs x y y x = true.
Proof.
  intros Hx Hy. unfold covers.
  rewrite !andb_true_iff, !Nat.leb_le, !Nat.ltb_lt. lia.
Qed.

Lemma covers_offset (acs : AcStrategy) (x y iy ix : nat) :
  (iy < covered_blocks_y acs)%nat -> (ix < covered_blocks_x acs)%nat ->
  covers acs x y (y + iy) (x + ix) = true.
Proof.
  intros Hy Hx. unfold covers.
  rewrite !andb_true_iff, !Nat.leb_le, !Nat.ltb_lt. lia.
Qed.

(** [block_max] only reads the cells of the block. *)
Lemma block_max_ext img img' (acs : AcStrategy) (x y : nat) :
  (1 <= covered_blocks_x acs)%nat -> (1 <= covered_blocks_y acs)%nat ->
  (forall v u, covers acs x y v u = true -> Row img v u = Row img' v u) ->
  block_max img acs x y = block_max img' acs x y.
Proof.
  intros Hx Hy Hsame. unfold block_max.
  rewrite (Hsame y x) by now apply covers_corner.
  apply for_loop_ext. intros iy m Hiy.
  apply for_loop_ext. intros ix m' Hix.
  rewrite Hsame; [reflexivity|]. apply covers_offset; lia.
Qed.

(** On a block that holds one value, [block_max] is that value. *)
Lemma block_max_const img (acs : AcStrategy) (x y : nat) (v : F) :
  (1 <= covered_blocks_x acs)%nat -> (1 <= covered_blocks_y acs)%nat ->
  (forall y' x', covers acs x y y' x' = true -> Row img y' x' = v) ->
  block_max img acs x y = v.
Proof.
  intros Hx Hy Hconst. unfold block_max.
  apply for_loop_inv' with (P := fun m => m = v).
  - apply Hconst. now apply covers_corner.
  - intros iy m Hiy ->.
    apply for_loop_inv' with (P := fun m => m = v); [reflexivity|].
    intros ix m Hix ->. rewrite Hconst by (apply covers_offset; lia).
    apply std_max_same.
Qed.

(** [block_fill] writes [max] to the cells of the block. *)
Lemma block_fill_updates (acs : AcStrategy) (x y : nat) (max : F) :
  updates (block_fill acs x y max) (covers acs x y) (fun _ _ _ => max).
Proof.
  unfold block_fill.
  eapply updates_ext; cycle 1.
  - apply updates_nested with
      (body := fun iy ix img => store img (y + iy) (x + ix) max)
      (py := fun iy => (y + iy)%nat) (px := fun ix => (x + ix)%nat).
    + intros i j _ _.
      apply (updates_store (y + i) (x + j) (fun _ _ _ => max)).
    + intros; lia.
    + intros; lia.
  - intros v u. cbn beta. rewrite !existsb_seq_shift. reflexivity.
Qed.

Section Run.
Variable ac_strategy : AcStrategyImage.
Variable qf0 : ImageF F.
Hypothesis Htiling : tiling ac_strategy (xsize qf0) (ysize qf0).

Lemma adjusted_ext (done done' : nat -> nat -> Prop) img :
  (forall y x, first_block ac_strategy (xsize qf0) (ysize qf0) y x ->
     (done y x <-> done' y x)) ->
  adjusted ac_strategy qf0 done img -> adjusted ac_strategy qf0 done' img.
Proof.
  intros Hd (Hx & Hy & Hin & Hout).
  split; [exact Hx|]. split; [exact Hy|]. split.
  - intros y x Hdone Hf. apply Hin; [now apply Hd|exact Hf].
  - intros v u Hnot. apply Hout. intros y x Hdone Hf. apply Hnot; [now apply Hd|exact Hf].
Qed.

Lemma AdjustQuantFieldAt_adjusted (done : nat -> nat -> Prop) img (y x : nat) :
  (y < ysize qf0)%nat -> (x < xsize qf0)%nat -> ~ done y x ->
  adjusted ac_strategy qf0 done img ->
  exists img', AdjustQuantFieldAt ac_strategy y x img = Some img' /\
               adjusted ac_strategy qf0 (fun y' x' => done y' x' \/ (y', x') = (y, x)) img'.
Proof.
  intros Hy Hx Hnew (Hxs & Hys & Hin & Hout). unfold AdjustQuantFieldAt.
  destruct (IsFirstBlock (ac_strategy y x)) eqn:Efirst; cbn [negb].
  2:{ exists img. split; [reflexivity|].
      split; [exact Hxs|]. split; [exact Hys|]. split.
      - intros y' x' [Hd|Heq] Hf; [now apply Hin|].
        injection Heq as -> ->. destruct Hf as (_ & _ & Hf). congruence.
      - intros v u Hnot. apply Hout. intros y' x' Hd. apply Hnot. now left. }
  assert (Hfirst : first_block ac_strategy (xsize qf0) (ysize qf0) y x) by (repeat split; assumption).
  destruct (Htiling Hfirst) as (Hcx & Hcy & Hbx & Hby & Hdisj).
  rewrite Hxs, Hys.
  destruct (Nat.leb_spec (x + covered_blocks_x (ac_strategy y x)) (xsize qf0)); [|lia].
  destruct (Nat.leb_spec (y + covered_blocks_y (ac_strategy y x)) (ysize qf0)); [|lia].
  cbn [negb]. eexists. split; [reflexivity|].
  assert (Hmax : block_max img (ac_strategy y x) x y = block_max qf0 (ac_strategy y x) x y).
  { apply block_max_ext; auto. intros v u Hc. apply Hout.
    intros y' x' Hd Hf. apply (Hdisj y' x' Hf); [|exact Hc].
    intros Heq. injection Heq as -> ->. contradiction. }
  rewrite Hmax.
  destruct (block_fill_updates (ac_strategy y x) x y
              (block_max qf0 (ac_strategy y x) x y) img) as (Bx & By & Br).
  split; [congruence|]. split; [congruence|]. split.
  - intros y' x' [Hd|Heq] Hf v u Hc.
    + rewrite Br.
      assert (Hno : covers (ac_strategy y x) x y v u = false).
      { destruct (Htiling Hf) as (_ & _ & _ & _ & Hdisj').
        apply (Hdisj' y x Hfirst); [|exact Hc].
        intros Heq. injection Heq as -> ->. contradiction. }
      rewrite Hno. now apply (Hin y' x').
    + injection Heq as -> ->. rewrite Br, Hc. reflexivity.
  - intros v u Hnot. rewrite Br.
    rewrite (Hnot y x) by (auto). apply Hout.
    intros y' x' Hd. apply Hnot. now left.
Qed.

Lemma adjusted_start : adjusted ac_strategy qf0 (fun _ _ => False) qf0.
Proof.
  split; [reflexivity|]. split; [reflexivity|]. split.
  - intros y x [].
  - reflexivity.
Qed.

(** On a tiling no assertion fails, and every block ends up holding its
    maximum. *)
Lemma AdjustQuantField_adjusted :
  exists res, AdjustQuantField ac_strategy qf0 = Some res /\
              adjusted ac_strategy qf0 (fun _ _ => True) res.
Proof.
  unfold AdjustQuantField.
  destruct (@for_loop_opt_inv (ImageF F)
              (fun k img => adjusted ac_strategy qf0 (fun y' _ => (y' < k)%nat) img)
              0 (ysize qf0)
              (fun y quant_field =>
                 for_loop_opt 0 (xsize quant_field)
                   (fun x quant_field => AdjustQuantFieldAt ac_strategy y x quant_field)
                   quant_field)
              qf0) as (res & Hres & Hadj).
  - lia.
  - eapply adjusted_ext; [|apply adjusted_start]. intros; lia.
  - intros k img Hk Hadj.
    destruct (@for_loop_opt_inv (ImageF F)
                (fun j img => adjusted ac_strategy qf0
                   (fun y' x' => (y' < k)%nat \/ (y' = k /\ (x' < j)%nat)) img)
                0 (xsize qf0)
                (fun x quant_field => AdjustQuantFieldAt ac_strategy k x quant_field)
                img) as (img' & Himg' & Hadj').
    + lia.
    + eapply adjusted_ext; [|exact Hadj]. intros; cbn beta; lia.
    + intros j img1 Hj Hadj1.
      destruct (@AdjustQuantFieldAt_adjusted
                  (fun y' x' => (y' < k)%nat \/ (y' = k /\ (x' < j)%nat)) img1 k j)
        as (img2 & Himg2 & Hadj2); [lia|lia|lia|exact Hadj1|].
      exists img2. split; [exact Himg2|].
      eapply adjusted_ext; [|exact Hadj2]. intros y x _. cbn beta.
      split.
      * intros [[Hlt|[-> Hlt]]|Heq]; [lia|lia|]. injection Heq as -> ->. lia.
      * intros [Hlt|[-> Hlt]]; [lia|].
        destruct (Nat.eq_dec x j) as [->|Hne]; [now right|left; lia].
    + destruct Hadj as (Hxs & _). rewrite Hxs.
      exists img'. split; [exact Himg'|].
      eapply adjusted_ext; [|exact Hadj']. intros y x (Hy & Hx & _). cbn beta. lia.
  - exists res. split; [exact Hres|].
    eapply adjusted_ext; [|exact Hadj]. intros y x (Hy & Hx & _). cbn beta. tauto.
Qed.

End Run.
End AdjustQuantFieldFacts.

Section Idempotent.
Context {F : Type} `{FloatOps F}.
Implicit Types img : ImageF F.

Lemma AdjustQuantFieldAt_same (ac_strategy : AcStrategyImage) img cur (y x : nat) :
  tiling ac_strategy (xsize img) (ysize img) ->
  block_constant ac_strategy img ->
  (y < ysize img)%nat -> (x < xsize img)%nat ->
  same_image cur img ->
  exists cur', AdjustQuantFieldAt ac_strategy y x cur = Some cur' /\ same_image cur' img.
Proof.
  intros Htiling Hconst Hy Hx (Hxs & Hys & Hrow). unfold AdjustQuantFieldAt.
  destruct (IsFirstBlock (ac_strategy y x)) eqn:Efirst; cbn [negb].
  2:{ exists cur. split; [reflexivity|]. now repeat split. }
  assert (Hfirst : first_block ac_strategy (xsize img) (ysize img) y x)
    by (repeat split; assumption).
  destruct (Htiling y x Hfirst) as (Hcx & Hcy & Hbx & Hby & _).
  rewrite Hxs, Hys.
  destruct (Nat.leb_spec (x + covered_blocks_x (ac_strategy y x)) (xsize img)); [|lia].
  destruct (Nat.leb_spec (y + covered_blocks_y (ac_strategy y x)) (ysize img)); [|lia].
  cbn [negb]. eexists. split; [reflexivity|].
  assert (Hmax : block_max cur (ac_strategy y x) x y = Row img y x).
  { apply block_max_const; auto. intros v u Hc. rewrite Hrow. now apply Hconst. }
  rewrite Hmax.
  destruct (block_fill_updates (ac_strategy y x) x y (Row img y x) cur) as (Bx & By & Br).
  split; [congruence|]. split; [congruence|].
  intros v u. rewrite Br.
  destruct (covers (ac_strategy y x) x y v u) eqn:Ec; [|apply Hrow].
  symmetry. now apply Hconst.
Qed.

Lemma AdjustQuantField_same (ac_strategy : AcStrategyImage) img :
  tiling ac_strategy (xsize img) (ysize img) ->
  block_constant ac_strategy img ->
  exists res, AdjustQuantField ac_strategy img = Some res /\ same_image res img.
Proof.
  intros Htiling Hconst. unfold AdjustQuantField.
  assert (Hrefl : same_image img img) by now repeat split.
  destruct (@for_loop_opt_inv (ImageF F) (fun _ cur => same_image cur img)
              0 (ysize img)
              (fun y quant_field =>
                 for_loop_opt 0 (xsize quant_field)
                   (fun x quant_field => AdjustQuantFieldAt ac_strategy y x quant_field)
                   quant_field)
              img) as (res & Hres & Hsame); [lia|exact Hrefl| |eauto].
  intros k cur Hk Hcur.
  destruct (@for_loop_opt_inv (ImageF F) (fun _ cur => same_image cur img)
              0 (xsize img)
              (fun x quant_field => AdjustQuantFieldAt ac_strategy k x quant_field)
              cur) as (cur' & Hcur' & Hsame'); [lia|exact Hcur| |].
  - intros j cur1 Hj Hcur1. apply AdjustQuantFieldAt_same; auto; lia.
  - destruct Hcur as (Hxs & _). rewrite Hxs. eauto.
Qed.

Lemma adjusted_block_constant (ac_strategy : AcStrategyImage) (qf0 res : ImageF F) :
  tiling ac_strategy (xsize qf0) (ysize qf0) ->
  adjusted ac_strategy qf0 (fun _ _ => True) res ->
  block_constant ac_strategy res.
Proof.
  intros Htiling (Hxs & Hys & Hin & _) y x Hfirst v u Hc.
  rewrite Hxs, Hys in Hfirst.
  destruct (Htiling y x Hfirst) as (Hcx & Hcy & _).
  rewrite (Hin y x I Hfirst v u Hc).
  symmetry. apply (Hin y x I Hfirst). now apply covers_corner.
Qed.

End Idempotent.

Section BlockMaxR.
Local Open Scope R_scope.

Lemma block_max_upper (img : ImageF R) (acs : AcStrategy) (x y v u : nat) :
  covers acs x y v u = true -> Row img v u <= block_max img acs x y.
Proof.
  intros Hc. unfold covers in Hc.
  rewrite !andb_true_iff, !Nat.leb_le, !Nat.ltb_lt in Hc.
  unfold block_max.
  pose (P := fun (iy : nat) (m : R) =>
    forall v u, (y <= v < y + iy)%nat -> (x <= u < x + covered_blocks_x acs)%nat ->
      Row img v u <= m).
  enough (HP : P (covered_blocks_y acs)
                 (for_loop 0 (covered_blocks_y acs)
                    (fun iy max =>
                       for_loop 0 (covered_blocks_x acs)
                         (fun ix max => std_max (Row img (y + iy) (x + ix)) max) max)
                    (Row img y x))) by (apply HP; lia).
  apply for_loop_inv; [lia|intros ? ? ?; lia|].
  intros iy m Hiy HPm.
  pose (Q := fun (ix : nat) (m' : R) =>
    m <= m' /\ forall u, (x <= u < x + ix)%nat -> Row img (y + iy) u <= m').
  assert (HQ : Q (covered_blocks_x acs)
                 (for_loop 0 (covered_blocks_x acs)
                    (fun ix max => std_max (Row img (y + iy) (x + ix)) max) m)).
  { apply for_loop_inv; [lia|split; [lra|intros; lia]|].
    intros ix m' Hix [Hm Hrow]. rewrite std_max_R. split.
    - eapply Rle_trans; [exact Hm|apply Rmax_r].
    - intros u0 Hu0. destruct (Nat.eq_dec u0 (x + ix)) as [->|Hne].
      + apply Rmax_l.
      + eapply Rle_trans; [apply Hrow; lia|apply Rmax_r]. }
  destruct HQ as [Hm Hrow]. intros v0 u0 Hv0 Hu0.
  destruct (Nat.eq_dec v0 (y + iy)) as [->|Hne].
  - now apply Hrow.
  - eapply Rle_trans; [apply HPm; lia|exact Hm].
Qed.

Lemma block_max_attained (img : ImageF R) (acs : AcStrategy) (x y : nat) :
  (1 <= covered_blocks_x acs)%nat -> (1 <= covered_blocks_y acs)%nat ->
  exists v u, covers acs x y v u = true /\ Row img v u = block_max img acs x y.
Proof.
  intros Hcx Hcy. unfold block_max.
  apply for_loop_inv' with
    (P := fun m => exists v u, covers acs x y v u = true /\ Row img v u = m).
  - exists y, x. split; [now apply covers_corner|reflexivity].
  - intros iy m Hiy Hm.
    apply for_loop_inv' with
      (P := fun m => exists v u, covers acs x y v u = true /\ Row img v u = m);
      [exact Hm|].
    intros ix m' Hix (v & u & Hc & Hv). rewrite std_max_R.
    unfold Rmax. destruct (Rle_dec _ _).
    + eauto.
    + exists (y + iy)%nat, (x + ix)%nat. split; [apply covers_offset; lia|reflexivity].
Qed.

End BlockMaxR.

(* ================================================================== *)
(** * DistToPeakMap *)

Section IntLoops.
Variable S : Type.
Lemma for_int_for_loop (lo hi : Z) (body : Z -> S -> S) (s : S) :
  for_int lo hi body s =
  for_loop 0 (Z.to_nat (hi - lo)) (fun k s => body (lo + Z.of_nat k)%Z s) s.
Proof. unfold for_int, for_loop. now rewrite Nat.sub_0_r. Qed.
End IntLoops.

Section DistToPeakMapFacts.
Context {F : Type} `{FloatOps F}.
Implicit Types img : ImageF F.

Lemma existsb_seq_int (lo hi : Z) (y : nat) :
  (0 <= lo)%Z ->
  existsb (fun k => (y =? Z.to_nat (lo + Z.of_nat k))%nat)
    (seq 0 (Z.to_nat (hi - lo) - 0)) =
  (lo <=? Z.of_nat y)%Z && (Z.of_nat y <? hi)%Z.
Proof.
  intros Hlo. apply eq_true_iff_eq.
  rewrite existsb_seq, andb_true_iff, Z.leb_le, Z.ltb_lt. split.
  - intros (k & Hk & He). apply Nat.eqb_eq in He. lia.
  - intros Hy. exists (Z.to_nat (Z.of_nat y - lo)). split; [lia|].
    apply Nat.eqb_eq. lia.
Qed.

Lemma updates_cond_store (py px : nat) (c : F -> bool) (d : F)
  (g : nat -> nat -> F -> F) :
  (forall cur, g py px cur = if c cur then d else cur) ->
  updates (fun img => if c (Row img py px) then store img py px d else img)
    (fun y x => (y =? py)%nat && (x =? px)%nat) g.
Proof.
  intros Hg img. destruct (c (Row img py px)) eqn:Ec.
  - split; [reflexivity|]. split; [reflexivity|]. intros y x. rewrite Row_store.
    destruct (Nat.eqb_spec y py), (Nat.eqb_spec x px); cbn; subst; try reflexivity.
    now rewrite Hg, Ec.
  - split; [reflexivity|]. split; [reflexivity|]. intros y x.
    destruct (Nat.eqb_spec y py), (Nat.eqb_spec x px); cbn; subst; try reflexivity.
    now rewrite Hg, Ec.
Qed.

(** A peak rewrites the cells of its window, each to [stamp_value]. *)
Lemma stamp_peak_updates (field : ImageF F) (local_radius : Z) (x0 y0 : nat) :
  updates (stamp_peak field local_radius x0 y0)
    (in_window field local_radius x0 y0) (stamp_value x0 y0).
Proof.
  unfold stamp_peak, in_window.
  destruct (peak_window field local_radius x0 y0) as [[[x_min x_max] y_min] y_max] eqn:Ew.
  assert (Hx0 : (0 <= x_min)%Z /\ (0 <= y_min)%Z).
  { unfold peak_window in Ew. injection Ew as <- _ <- _. lia. }
  destruct Hx0 as [Hxm Hym].
  eapply updates_ext; cycle 1.
  - intros img. rewrite for_int_for_loop.
    erewrite for_loop_ext.
    2:{ intros i s _. rewrite for_int_for_loop. reflexivity. }
    revert img.
    apply updates_nested with
      (body := fun i j result =>
         if (fltb (Row result (Z.to_nat (y_min + Z.of_nat i)) (Z.to_nat (x_min + Z.of_nat j)))
                  (flit 0) ||
             fltb (flit (inject_Z (Z.max (Z.abs (y_min + Z.of_nat i - Z.of_nat y0))
                                         (Z.abs (x_min + Z.of_nat j - Z.of_nat x0)))))
                  (Row result (Z.to_nat (y_min + Z.of_nat i)) (Z.to_nat (x_min + Z.of_nat j))))%bool
         then store result (Z.to_nat (y_min + Z.of_nat i)) (Z.to_nat (x_min + Z.of_nat j))
                (flit (inject_Z (Z.max (Z.abs (y_min + Z.of_nat i - Z.of_nat y0))
                                       (Z.abs (x_min + Z.of_nat j - Z.of_nat x0)))))
         else result)
      (py := fun i => Z.to_nat (y_min + Z.of_nat i))
      (px := fun j => Z.to_nat (x_min + Z.of_nat j))
      (g := stamp_value x0 y0).
    + intros i j _ _.
      apply (updates_cond_store (Z.to_nat (y_min + Z.of_nat i)) (Z.to_nat (x_min + Z.of_nat j))
               (fun cur => (fltb cur (flit 0) ||
                  fltb (flit (inject_Z (Z.max (Z.abs (y_min + Z.of_nat i - Z.of_nat y0))
                                              (Z.abs (x_min + Z.of_nat j - Z.of_nat x0))))) cur)%bool)).
      intros cur. unfold stamp_value. rewrite !Z2Nat.id by lia. reflexivity.
    + intros; lia.
    + intros; lia.
  - intros y x. cbn beta. rewrite !existsb_seq_int by assumption. reflexivity.
Qed.

End DistToPeakMapFacts.

Section DistToPeakMapRun.
Context {F : Type} `{FloatOps F}.

(** The invariant rule for the two loops of [DistToPeakMap]: [P] holds
    before the cell [(x0, y0)] is visited when it mentions the cells
    visited so far, in row order. *)
Lemma DistToPeakMap_inv (field : ImageF F) (peak_min : F) (local_radius : Z)
  (peak_weight : F) (P : (nat -> nat -> Prop) -> ImageF F -> Prop) :
  (forall (d d' : nat -> nat -> Prop) img,
     (forall y x, (y < ysize field)%nat -> (x < xsize field)%nat -> (d y x <-> d' y x)) ->
     P d img -> P d' img) ->
  P (fun _ _ => False)
    (mkImageF (xsize field) (ysize field) (fun _ _ => flit (-1))) ->
  (forall (d : nat -> nat -> Prop) img y0 x0,
     (y0 < ysize field)%nat -> (x0 < xsize field)%nat -> ~ d y0 x0 ->
     P d img ->
     P (fun y x => d y x \/ (y, x) = (y0, x0))
       (if is_peak field peak_min local_radius peak_weight x0 y0
        then stamp_peak field local_radius x0 y0 img else img)) ->
  P (fun _ _ => True) (DistToPeakMap field peak_min local_radius peak_weight).
Proof.
  intros Hext Hstart Hstep. unfold DistToPeakMap.
  apply Hext with (d := fun y _ => (y < ysize field)%nat); [intros; tauto|].
  apply for_loop_inv with (P := fun k img => P (fun y _ => (y < k)%nat) img); [lia| |].
  - eapply Hext; [|exact Hstart]. intros; cbn beta; lia.
  - intros k img Hk HP.
    apply Hext with (d := fun y x => (y < k)%nat \/ (y = k /\ (x < xsize field)%nat));
      [intros; cbn beta; lia|].
    apply for_loop_inv with
      (P := fun j img => P (fun y x => (y < k)%nat \/ (y = k /\ (x < j)%nat)) img); [lia| |].
    + eapply Hext; [|exact HP]. intros; cbn beta; lia.
    + intros j img' Hj HP'.
      eapply Hext;
        [|apply (Hstep (fun y x => (y < k)%nat \/ (y = k /\ (x < j)%nat)) img' k j);
          [lia|lia| |exact HP']].
      * intros y x _ _. cbn beta. split.
        -- intros [[Hlt|[-> Hlt]]|Heq]; [lia|lia|]. injection Heq as -> ->. lia.
        -- intros [Hlt|[-> Hlt]]; [lia|].
           destruct (Nat.eq_dec x j) as [->|Hne]; [now right|left; lia].
      * lia.
Qed.

(** A cell in no peak's window is never written. *)
Lemma DistToPeakMap_unset (field : ImageF F) (peak_min : F) (local_radius : Z)
  (peak_weight : F) (y x : nat) :
  (forall x0 y0, (x0 < xsize field)%nat -> (y0 < ysize field)%nat ->
     is_peak field peak_min local_radius peak_weight x0 y0 = true ->
     in_window field local_radius x0 y0 y x = false) ->
  Row (DistToPeakMap field peak_min local_radius peak_weight) y x = flit (-1).
Proof.
  intros Hout.
  apply (@DistToPeakMap_inv field peak_min local_radius peak_weight
           (fun _ img => Row img y x = flit (-1))).
  - auto.
  - reflexivity.
  - intros d img y0 x0 Hy0 Hx0 _ Himg.
    destruct (is_peak field peak_min local_radius peak_weight x0 y0) eqn:Ep; [|exact Himg].
    destruct (stamp_peak_updates field local_radius x0 y0 img) as (_ & _ & Hr).
    rewrite Hr, (Hout x0 y0 Hx0 Hy0 Ep). exact Himg.
Qed.

End DistToPeakMapRun.

Section DistToPeakMapR.
Local Open Scope R_scope.

Lemma flit_inject_Z_R (z : Z) : flit (F := R) (inject_Z z) = IZR z.
Proof. cbn. unfold Q2R. cbn. rewrite Rinv_1. lra. Qed.

Lemma stamp_value_own (x0 y0 : nat) (cur : R) : stamp_value x0 y0 y0 x0 cur = 0.
Proof.
  unfold stamp_value. rewrite !Z.sub_diag, flit_inject_Z_R.
  cbn [Z.abs Z.max Z.compare].
  Rops. Rcases; cbn [orb]; lra.
Qed.

Lemma stamp_value_zero (x0 y0 y x : nat) : stamp_value x0 y0 y x 0 = 0.
Proof.
  unfold stamp_value. rewrite flit_inject_Z_R.
  set (d := Z.max _ _). assert (Hd : 0 <= IZR d) by (apply IZR_le; lia).
  Rops. Rcases; cbn [orb]; lra.
Qed.

Lemma in_window_own (field : ImageF R) (local_radius : Z) (x0 y0 : nat) :
  (0 <= local_radius)%Z ->
  (Z.of_nat (xsize field) + local_radius < 2 ^ 64)%Z ->
  (Z.of_nat (ysize field) + local_radius < 2 ^ 64)%Z ->
  (x0 < xsize field)%nat -> (y0 < ysize field)%nat ->
  in_window field local_radius x0 y0 y0 x0 = true.
Proof.
  intros Hr Hxs Hys Hx0 Hy0. unfold in_window, peak_window, size_t_wrap.
  rewrite !Z.mod_small by lia.
  rewrite !andb_true_iff, !Z.leb_le, !Z.ltb_lt. lia.
Qed.

Lemma in_window_chebyshev (field : ImageF R) (local_radius : Z) (x0 y0 y x : nat) :
  (0 <= local_radius)%Z ->
  (Z.of_nat (xsize field) + local_radius < 2 ^ 64)%Z ->
  (Z.of_nat (ysize field) + local_radius < 2 ^ 64)%Z ->
  (x0 < xsize field)%nat -> (y0 < ysize field)%nat ->
  in_window field local_radius x0 y0 y x = true ->
  (Z.max (Z.abs (Z.of_nat y - Z.of_nat y0)) (Z.abs (Z.of_nat x - Z.of_nat x0))
   <= local_radius)%Z.
Proof.
  intros Hr Hxs Hys Hx0 Hy0. unfold in_window, peak_window, size_t_wrap.
  rewrite !Z.mod_small by lia.
  rewrite !andb_true_iff, !Z.leb_le, !Z.ltb_lt. lia.
Qed.

(** A peak ends at distance 0. *)
Lemma DistToPeakMap_peak (field : ImageF R) (peak_min : R) (local_radius : Z)
  (peak_weight : R) (x0 y0 : nat) :
  (0 <= local_radius)%Z ->
  (Z.of_nat (xsize field) + local_radius < 2 ^ 64)%Z ->
  (Z.of_nat (ysize field) + local_radius < 2 ^ 64)%Z ->
  (x0 < xsize field)%nat -> (y0 < ysize field)%nat ->
  is_peak field peak_min local_radius peak_weight x0 y0 = true ->
  Row (DistToPeakMap field peak_min local_radius peak_weight) y0 x0 = 0.
Proof.
  intros Hr Hxs Hys Hx0 Hy0 Hpeak.
  apply (@DistToPeakMap_inv _ _ field peak_min local_radius peak_weight
           (fun d img => d y0 x0 -> Row img y0 x0 = 0)); [| |..|exact I].
  - intros d d' img Hd HP Hd'. apply HP. now apply Hd.
  - intros [].
  - intros d img y1 x1 Hy1 Hx1 Hnew HP Hd.
    destruct (stamp_peak_updates field local_radius x1 y1 img) as (_ & _ & Hrow).
    destruct Hd as [Hd|Heq].
    + specialize (HP Hd).
      destruct (is_peak field peak_min local_radius peak_weight x1 y1); [|exact HP].
      rewrite Hrow, HP. destruct (in_window _ _ _ _ _ _); [|reflexivity].
      apply stamp_value_zero.
    + injection Heq as <- <-. rewrite Hpeak, Hrow.
      rewrite in_window_own by assumption. apply stamp_value_own.
Qed.

End DistToPeakMapR.

(* ================================================================== *)
(** * DiffPrecompute *)

Section RowTask.
Context {F : Type} `{FloatOps F}.
Variable Pv : F -> Prop.
Variable cutoff : F.
Hypothesis Pv_scalar : forall row_in row_in1 row_in2 x x1 x2,
  Pv (scalar_pixel cutoff row_in row_in1 row_in2 x x1 x2).
Hypothesis Pv_simd : forall row_in row_in1 row_in2 x,
  Pv (simd_pixel cutoff row_in row_in1 row_in2 x).
Hypothesis Pv_last : forall row_in row_in2 x, Pv (last_pixel cutoff row_in row_in2 x).

Lemma simd_loop_writes (row_in row_in1 row_in2 : nat -> F) (xsize lanes y : nat)
  (fuel : nat) :
  forall (x : nat) (img : ImageF F),
    let r := simd_loop cutoff row_in row_in1 row_in2 xsize lanes y fuel x img in
    (x <= fst r)%nat /\ (fst r <= Nat.max x (xsize - 2))%nat /\
    writes Pv (row_seg y x (fst r)) img (snd r).
Proof.
  induction fuel as [|fuel IH]; intros x img; cbn [simd_loop].
  - cbn. split; [lia|]. split; [lia|]. apply writes_nothing.
    intros y' x'. unfold row_seg. destruct (y' =? y)%nat; cbn [andb]; [|reflexivity].
    apply andb_false_iff. rewrite Nat.leb_gt, Nat.ltb_ge. lia.
  - destruct (Nat.ltb_spec (x + 1 + lanes) xsize) as [Hlt|Hge].
    + set (img1 := for_loop 0 lanes _ img).
      specialize (IH (x + lanes)%nat img1). cbv zeta in IH |- *.
      destruct IH as (Hlo & Hhi & Hw). split; [lia|]. split; [lia|].
      eapply writes_ext; [|eapply writes_trans; [|exact Hw]].
      * intros y' x'. cbn beta. apply row_seg_union. lia.
      * unfold img1. apply (@writes_row_loop_off F Pv y x lanes
          (fun l _ => simd_pixel cutoff row_in row_in1 row_in2 (x + l))).
        intros; apply Pv_simd.
    + cbn. split; [lia|]. split; [lia|]. apply writes_nothing.
      intros y' x'. unfold row_seg. destruct (y' =? y)%nat; cbn [andb]; [|reflexivity].
      apply andb_false_iff. rewrite Nat.leb_gt, Nat.ltb_ge. lia.
Qed.

Lemma scalar_loop_writes (row_in row_in1 row_in2 : nat -> F) (xsize y x : nat)
  (img : ImageF F) :
  let r := scalar_loop cutoff row_in row_in1 row_in2 xsize y x img in
  fst r = Nat.max x (xsize - 1) /\ writes Pv (row_seg y x (fst r)) img (snd r).
Proof.
  cbn. split; [reflexivity|].
  eapply writes_ext;
    [|apply (@writes_row_loop F Pv y x (xsize - 1)
               (fun x _ => scalar_pixel cutoff row_in row_in1 row_in2 x (x - 1) (x + 1)))].
  - intros y' x'. unfold row_seg. destruct (y' =? y)%nat; cbn [andb]; [|reflexivity].
    apply eq_true_iff_eq. rewrite !andb_true_iff, !Nat.leb_le, !Nat.ltb_lt. lia.
  - intros; apply Pv_scalar.
Qed.

(** The task of row [y]: it first writes the pixels, the cells
    [x < max 2 xsize] of the row, and then extends the row with
    [row_lastval] of what it wrote. *)
Lemma DiffPrecomputeRow_writes (xyb : Image3F F) (xsize ysize lanes y : nat)
  (img : ImageF F) :
  exists img4,
    writes Pv (row_seg y 0 (Nat.max 2 xsize)) img img4 /\
    writes (fun v => v = row_lastval (Row img4 y) xsize)
      (row_seg y (Nat.max 2 xsize) (xsize_of img)) img4
      (DiffPrecomputeRow xyb xsize ysize cutoff lanes y img).
Proof.
  unfold DiffPrecomputeRow.
  set (y2 := if (y + 1 <? ysize)%nat then _ else _).
  set (y1 := if (y =? 0)%nat && (2 <=? ysize)%nat then _ else _).
  set (row_in := PlaneRow xyb 1 y).
  set (row_in1 := PlaneRow xyb 1 y1).
  set (row_in2 := PlaneRow xyb 1 y2).
  set (img1 := store img y 0 _).
  assert (Hw1 : writes Pv (row_seg y 0 1) img img1).
  { eapply writes_ext; [|apply writes_store, Pv_scalar].
    intros y' x'. apply row_seg_single. }
  pose proof (simd_loop_writes row_in row_in1 row_in2 xsize lanes y xsize (0 + 1) img1) as Hs.
  destruct (simd_loop cutoff row_in row_in1 row_in2 xsize lanes y xsize (0 + 1) img1)
    as [x2 img2]. cbn [fst snd] in Hs. destruct Hs as (Hx2lo & Hx2hi & Hw2).
  pose proof (scalar_loop_writes row_in row_in1 row_in2 xsize y x2 img2) as Hc.
  destruct (scalar_loop cutoff row_in row_in1 row_in2 xsize y x2 img2) as [x3 img3].
  cbn [fst snd] in Hc. destruct Hc as (Hx3 & Hw3).
  set (img4 := store img3 y x3 _).
  assert (Hw4 : writes Pv (row_seg y x3 (S x3)) img3 img4).
  { eapply writes_ext; [|apply writes_store, Pv_last].
    intros y' x'. apply row_seg_single. }
  assert (Hx4 : (x3 + 1 = Nat.max 2 xsize)%nat) by lia.
  exists img4. split.
  - eapply writes_ext;
      [|eapply writes_trans; [eapply writes_trans; [eapply writes_trans;
          [exact Hw1|exact Hw2]|exact Hw3]|exact Hw4]].
    intros y' x'. cbn beta.
    rewrite (@row_seg_union y 0 1 x2) by lia.
    rewrite (@row_seg_union y 0 x2 x3) by lia.
    rewrite (@row_seg_union y 0 x3 (S x3)) by lia.
    now replace (S x3) with (Nat.max 2 xsize) by lia.
  - rewrite Hx4.
    assert (Hxs : xsize_of img4 = xsize_of img).
    { unfold xsize_of. destruct Hw1 as (E1 & _), Hw2 as (E2 & _), Hw3 as (E3 & _),
        Hw4 as (E4 & _). congruence. }
    rewrite Hxs.
    apply (@writes_row_loop F (fun v => v = row_lastval (Row img4 y) xsize) y
             (Nat.max 2 xsize) (xsize_of img)
             (fun _ _ => row_lastval (Row img4 y) xsize)).
    reflexivity.
Qed.

End RowTask.

Section SimdFuel.
Context {F : Type} `{FloatOps F}.

(** With at least one lane per vector, [xsize] iterations are enough:
    the vector loop stops because its test fails. *)
Lemma simd_loop_stops (cutoff : F) (row_in row_in1 row_in2 : nat -> F)
  (xsize lanes y : nat) (fuel : nat) :
  (1 <= lanes)%nat ->
  forall (x : nat) (img : ImageF F),
    (xsize <= fuel + x)%nat ->
    (fst (simd_loop cutoff row_in row_in1 row_in2 xsize lanes y fuel x img) + 1 + lanes
       <? xsize)%nat = false.
Proof.
  intros Hl. induction fuel as [|fuel IH]; intros x img Hfuel; cbn [simd_loop].
  - cbn [fst]. apply Nat.ltb_ge. lia.
  - destruct (Nat.ltb_spec (x + 1 + lanes) xsize) as [Hlt|Hge].
    + apply IH. lia.
    + cbn [fst]. apply Nat.ltb_ge. lia.
Qed.
End SimdFuel.

Lemma RoundUpToBlockDim_ge (x : nat) : (x <= RoundUpToBlockDim x)%nat.
Proof.
  unfold RoundUpToBlockDim.
  pose proof (Nat.div_mod_eq (x + 7) 8) as Hd.
  pose proof (Nat.mod_upper_bound (x + 7) 8 ltac:(lia)) as Hm. lia.
Qed.

Section Passes.
Context {F : Type} `{FloatOps F}.
Variable Pv : F -> Prop.
Variable cutoff : F.
Hypothesis Pv_last_row : forall row_in x, Pv (last_row_pixel cutoff row_in x).

Lemma row_lastval_ext (r r' : nat -> F) (xsize : nat) :
  (1 <= xsize)%nat -> (forall i, (i < xsize)%nat -> r i = r' i) ->
  row_lastval r xsize = row_lastval r' xsize.
Proof.
  intros Hx Hr. unfold row_lastval.
  rewrite (Hr (xsize - 1)%nat) by lia.
  destruct (Nat.leb_spec 3 xsize).
  - now rewrite (Hr (xsize - 3)%nat), (Hr (xsize - 2)%nat) by lia.
  - destruct (Nat.leb_spec 2 xsize); [|reflexivity].
    now rewrite (Hr (xsize - 2)%nat) by lia.
Qed.

Lemma col_lastval_ext (a b : ImageF F) (ysize x : nat) :
  (1 <= ysize)%nat -> (forall y, (y < ysize)%nat -> Row a y x = Row b y x) ->
  col_lastval a ysize x = col_lastval b ysize x.
Proof.
  intros Hy Hr. unfold col_lastval.
  rewrite (Hr (ysize - 1)%nat) by lia.
  destruct (Nat.leb_spec 3 ysize).
  - now rewrite (Hr (ysize - 2)%nat), (Hr (ysize - 3)%nat) by lia.
  - destruct (Nat.leb_spec 2 ysize); [|reflexivity].
    now rewrite (Hr (ysize - 2)%nat) by lia.
Qed.

(** The block "Last row" writes pixels into the cells [x < xsize] of
    the last row, at most. *)
Lemma DiffPrecomputeLastRow_writes (xyb : Image3F F) (xsize ysize : nat)
  (img : ImageF F) :
  exists hi, (hi <= xsize)%nat /\
    writes Pv (row_seg (ysize - 1) 0 hi) img
      (DiffPrecomputeLastRow xyb xsize ysize cutoff img).
Proof.
  unfold DiffPrecomputeLastRow.
  set (y := (ysize - 1)%nat). set (row_in := PlaneRow xyb 1 y).
  set (img1 := for_loop 0 (xsize - 1) _ img).
  assert (Hw1 : writes Pv (row_seg y 0 (xsize - 1)) img img1).
  { apply (@writes_row_loop F Pv y 0 (xsize - 1)
             (fun x _ => last_row_pixel cutoff row_in x)).
    intros; apply Pv_last_row. }
  destruct (Nat.ltb_spec 0 (xsize - 1)) as [Hpos|Hzero].
  - exists xsize. split; [lia|].
    eapply writes_ext; [|eapply writes_trans; [exact Hw1|apply writes_store]].
    + intros y' x'. cbn beta. rewrite row_seg_single.
      replace (S (xsize - 1)) with xsize by lia.
      apply row_seg_union. lia.
    + eapply writes_value; [exact Hw1|]. unfold row_seg.
      rewrite Nat.eqb_refl. cbn [andb].
      apply andb_true_iff. rewrite Nat.leb_le, Nat.ltb_lt. lia.
  - exists (xsize - 1)%nat. split; [lia|exact Hw1].
Qed.

(** The block "Extend to multiple of 8 rows" leaves the rows
    [y < ysize] alone and fills the cells below each column with the
    column's [col_lastval]. *)
Lemma DiffPrecomputeExtendRows_spec (ysize : nat) (img : ImageF F) :
  (1 <= ysize)%nat ->
  let res := DiffPrecomputeExtendRows ysize img in
  xsize res = xsize img /\ ysize_of res = ysize_of img /\
  (forall y x, (y < ysize)%nat -> Row res y x = Row img y x) /\
  (forall y x, (ysize <= y < ysize_of img)%nat -> (x < xsize img)%nat ->
     Row res y x = col_lastval img ysize x).
Proof.
  intros Hys. cbv zeta. unfold DiffPrecomputeExtendRows.
  destruct (Nat.eqb_spec ysize (ysize_of img)) as [Heq|Hne]; cbn [negb].
  { repeat split; auto. intros; lia. }
  apply for_loop_inv with
    (P := fun k cur =>
       xsize cur = xsize img /\ ysize_of cur = ysize_of img /\
       (forall y x, (y < ysize)%nat -> Row cur y x = Row img y x) /\
       (forall y x, (ysize <= y < ysize_of img)%nat -> (x < k)%nat ->
          Row cur y x = col_lastval img ysize x)); [lia| |].
  - repeat split; auto. intros; lia.
  - intros k cur Hk (Hx & Hy & Hlow & Hcol).
    assert (Hlast : col_lastval cur ysize k = col_lastval img ysize k)
      by (apply col_lastval_ext; auto).
    pose proof (@writes_col_loop F (fun v => v = col_lastval cur ysize k) k ysize
                  (ysize_of cur) (fun _ _ => col_lastval cur ysize k) cur
                  ltac:(reflexivity)) as Hw.
    destruct Hw as (Wx & Wy & Wr).
    split; [congruence|]. split; [unfold ysize_of in *; congruence|]. split.
    + intros y x Hylt. specialize (Wr y x). unfold col_seg in Wr.
      destruct (Nat.leb_spec ysize y); [lia|].
      rewrite andb_false_r in Wr. cbn in Wr. rewrite Wr. now apply Hlow.
    + intros y x Hyr Hxk. specialize (Wr y x). unfold col_seg in Wr.
      destruct (Nat.eqb_spec x k) as [Hxeq|Hxne]; cbn [andb] in Wr.
      * subst x.
        destruct (Nat.leb_spec ysize y); [|lia].
        destruct (Nat.ltb_spec y (ysize_of cur)); [|lia].
        cbn in Wr. congruence.
      * rewrite Wr. apply Hcol; lia.
Qed.

End Passes.

Section Padding.
Context {F : Type} `{FloatOps F}.
Variable xyb : Image3F F.
Variables xsize ysize lanes : nat.
Variable cutoff : F.
Variable fresh : nat -> nat -> F.

Let padded_xsize := RoundUpToBlockDim xsize.
Let padded_ysize := RoundUpToBlockDim ysize.
Let img0 := mkImageF padded_xsize padded_ysize fresh.

(** After the tasks of the rows [y < k]: each of these rows is extended
    by [row_lastval] of its own pixels. *)
Lemma DiffPrecompute_rows (k : nat) :
  (2 <= xsize)%nat ->
  let cur := for_loop 0 k (DiffPrecomputeRow xyb xsize ysize cutoff lanes) img0 in
  xsize_of cur = padded_xsize /\ ysize_of cur = padded_ysize /\
  forall y x, (y < k)%nat -> (xsize <= x < padded_xsize)%nat ->
    Row cur y x = row_lastval (Row cur y) xsize.
Proof.
  intros Hxs. cbv zeta.
  apply for_loop_inv with
    (P := fun k cur =>
       xsize_of cur = padded_xsize /\ ysize_of cur = padded_ysize /\
       forall y x, (y < k)%nat -> (xsize <= x < padded_xsize)%nat ->
         Row cur y x = row_lastval (Row cur y) xsize); [lia| |].
  - repeat split. intros; lia.
  - intros i cur _ (Hx & Hy & Hrows).
    destruct (@DiffPrecomputeRow_writes F _ (fun _ => True) cutoff
                ltac:(intros; exact I) ltac:(intros; exact I) ltac:(intros; exact I)
                xyb xsize ysize lanes i cur) as (img4 & Hw4 & Hw5).
    replace (Nat.max 2 xsize) with xsize in * by lia.
    pose proof Hw4 as (E4x & E4y & _). pose proof Hw5 as (E5x & E5y & _).
    split; [unfold xsize_of in *; congruence|].
    split; [unfold ysize_of in *; congruence|].
    intros y x Hyi Hxr.
    destruct (Nat.eq_dec y i) as [->|Hne].
    + rewrite (row_lastval_ext _ (Row img4 i)).
      * apply (writes_value _ _ Hw5). unfold row_seg. rewrite Nat.eqb_refl. cbn [andb].
        apply andb_true_iff. rewrite Nat.leb_le, Nat.ltb_lt.
        lia.
      * lia.
      * intros j Hj. apply (writes_same _ _ Hw5). unfold row_seg.
        rewrite Nat.eqb_refl. cbn [andb].
        apply andb_false_iff. left. apply Nat.leb_gt. lia.
    + assert (Hrow : forall j, Row (DiffPrecomputeRow xyb xsize ysize cutoff lanes i cur) y j
                               = Row cur y j).
      { intros j. rewrite (writes_same _ _ Hw5), (writes_same _ _ Hw4); auto;
          unfold row_seg; destruct (Nat.eqb_spec y i); try lia; reflexivity. }
      rewrite Hrow, (row_lastval_ext _ (Row cur y)); [|lia|intros; apply Hrow].
      apply Hrows; lia.
Qed.


Let pass1 := DiffPrecomputeRows xyb xsize ysize cutoff lanes fresh.

(** The padding of the image [DiffPrecompute] returns. *)
Lemma DiffPrecompute_padding_cells :
  (2 <= xsize)%nat -> (1 <= ysize)%nat ->
  let out := DiffPrecompute xyb xsize ysize cutoff lanes fresh in
  (forall y x, (y + 1 < ysize)%nat -> (xsize <= x < padded_xsize)%nat ->
     Row out y x = row_lastval (Row out y) xsize) /\
  (forall y x, (ysize <= y < padded_ysize)%nat -> (x < padded_xsize)%nat ->
     Row out y x = col_lastval out ysize x) /\
  (forall x, (xsize <= x < padded_xsize)%nat ->
     Row out (ysize - 1) x = row_lastval (Row pass1 (ysize - 1)) xsize).
Proof.
  intros Hxs Hys. cbv zeta. unfold DiffPrecompute. fold pass1.
  destruct (DiffPrecompute_rows ysize Hxs) as (P1x & P1y & P1rows).
  change (for_loop 0 ysize (DiffPrecomputeRow xyb xsize ysize cutoff lanes) img0)
    with pass1 in P1x, P1y, P1rows.
  destruct (@DiffPrecomputeLastRow_writes F _ (fun _ => True) cutoff
              ltac:(intros; exact I) xyb xsize ysize pass1) as (hi & Hhi & Hw2).
  set (pass2 := DiffPrecomputeLastRow xyb xsize ysize cutoff pass1) in *.
  destruct (DiffPrecomputeExtendRows_spec pass2 Hys) as (P3x & P3y & P3low & P3col).
  set (out := DiffPrecomputeExtendRows ysize pass2) in *.
  pose proof Hw2 as (P2x & P2y & _).
  assert (Hout_low : forall y x, (y < ysize)%nat ->
            (y <> ysize - 1 \/ xsize <= x)%nat -> Row out y x = Row pass1 y x).
  { intros y x Hy Hcell. rewrite P3low by exact Hy.
    apply (writes_same _ _ Hw2). unfold row_seg.
    destruct (Nat.eqb_spec y (ysize - 1)); cbn [andb]; [|reflexivity].
    apply andb_false_iff. right. apply Nat.ltb_ge. lia. }
  split; [|split].
  - intros y x Hy Hx. rewrite Hout_low by lia.
    rewrite (row_lastval_ext _ (Row pass1 y)); [|lia|intros; apply Hout_low; lia].
    apply P1rows; lia.
  - intros y x Hy Hx. rewrite P3col.
    + symmetry. apply col_lastval_ext; [exact Hys|]. intros; now apply P3low.
    + unfold ysize_of in *. lia.
    + unfold xsize_of in *. lia.
  - intros x Hx. rewrite Hout_low by lia. apply P1rows; lia.
Qed.

End Padding.

Section Cutoff.
Local Open Scope R_scope.
Variable xyb : Image3F R.
Variables xsize ysize lanes : nat.
Variable cutoff : R.
Variable fresh : nat -> nat -> R.

Let padded_xsize := RoundUpToBlockDim xsize.
Let padded_ysize := RoundUpToBlockDim ysize.
Let img0 := mkImageF padded_xsize padded_ysize fresh.
Let below (v : R) : Prop := v <= cutoff.

Lemma scalar_pixel_le row_in row_in1 row_in2 x x1 x2 :
  below (scalar_pixel cutoff row_in row_in1 row_in2 x x1 x2).
Proof. unfold below, scalar_pixel. rewrite std_min_R. apply Rmin_l. Qed.

Lemma simd_pixel_le row_in row_in1 row_in2 x :
  below (simd_pixel cutoff row_in row_in1 row_in2 x).
Proof.
  unfold below, simd_pixel. cbv zeta. cbn [fltb R_ops].
  match goal with |- (if Rltb ?a ?b then _ else _) <= _ =>
    destruct (Rltb a b) eqn:E; [lra|apply Rltb_false in E; exact E] end.
Qed.

Lemma last_pixel_le row_in row_in2 x : below (last_pixel cutoff row_in row_in2 x).
Proof. unfold below, last_pixel. rewrite std_min_R. apply Rmin_l. Qed.

Lemma last_row_pixel_le row_in x : below (last_row_pixel cutoff row_in x).
Proof. unfold below, last_row_pixel. rewrite std_min_R. apply Rmin_l. Qed.

Lemma row_lastval_le (r : nat -> R) (n : nat) :
  (1 <= n)%nat -> (forall i, (i < n)%nat -> r i <= cutoff) ->
  row_lastval r n <= cutoff.
Proof.
  intros Hn Hr. unfold row_lastval.
  pose proof (Hr (n - 1)%nat ltac:(lia)).
  destruct (Nat.leb_spec 3 n).
  - pose proof (Hr (n - 2)%nat ltac:(lia)). pose proof (Hr (n - 3)%nat ltac:(lia)).
    Rops. lra.
  - destruct (Nat.leb_spec 2 n); [|assumption].
    pose proof (Hr (n - 2)%nat ltac:(lia)). Rops. lra.
Qed.

Lemma col_lastval_le (img : ImageF R) (n x : nat) :
  (1 <= n)%nat -> (forall y, (y < n)%nat -> Row img y x <= cutoff) ->
  col_lastval img n x <= cutoff.
Proof.
  intros Hn Hr. unfold col_lastval.
  pose proof (Hr (n - 1)%nat ltac:(lia)).
  destruct (Nat.leb_spec 3 n).
  - pose proof (Hr (n - 2)%nat ltac:(lia)). pose proof (Hr (n - 3)%nat ltac:(lia)).
    Rops. lra.
  - destruct (Nat.leb_spec 2 n); [|assumption].
    pose proof (Hr (n - 2)%nat ltac:(lia)). Rops. lra.
Qed.

(** After the tasks of the rows [y < k], these rows are at most
    [cutoff] over their whole padded width. *)
Lemma DiffPrecompute_rows_le (k : nat) :
  (1 <= xsize)%nat ->
  let cur := for_loop 0 k (DiffPrecomputeRow xyb xsize ysize cutoff lanes) img0 in
  xsize_of cur = padded_xsize /\ ysize_of cur = padded_ysize /\
  forall y x, (y < k)%nat -> (x < padded_xsize)%nat -> Row cur y x <= cutoff.
Proof.
  intros Hxs. cbv zeta.
  apply for_loop_inv with
    (P := fun k cur =>
       xsize_of cur = padded_xsize /\ ysize_of cur = padded_ysize /\
       forall y x, (y < k)%nat -> (x < padded_xsize)%nat -> Row cur y x <= cutoff);
    [lia| |].
  - repeat split. intros; lia.
  - intros i cur _ (Hx & Hy & Hrows).
    destruct (@DiffPrecomputeRow_writes R _ below cutoff
                scalar_pixel_le simd_pixel_le last_pixel_le
                xyb xsize ysize lanes i cur) as (img4 & Hw4 & Hw5).
    pose proof Hw4 as (E4x & E4y & _). pose proof Hw5 as (E5x & E5y & _).
    split; [unfold xsize_of in *; congruence|].
    split; [unfold ysize_of in *; congruence|].
    intros y x Hyi Hxr.
    destruct (Nat.eq_dec y i) as [->|Hne].
    + destruct (row_seg i (Nat.max 2 xsize) (xsize_of cur) i x) eqn:E5.
      * rewrite (writes_value _ _ Hw5 E5).
        apply row_lastval_le; [lia|]. intros j Hj.
        apply (writes_value _ _ Hw4). unfold row_seg. rewrite Nat.eqb_refl. cbn [andb].
        apply andb_true_iff. rewrite Nat.leb_le, Nat.ltb_lt. lia.
      * rewrite (writes_same _ _ Hw5 E5).
        apply (writes_value _ _ Hw4). unfold row_seg in *.
        rewrite Nat.eqb_refl in *. cbn [andb] in *.
        apply andb_false_iff in E5. rewrite Nat.leb_gt, Nat.ltb_ge in E5.
        apply andb_true_iff. rewrite Nat.leb_le, Nat.ltb_lt.
        lia.
    + rewrite (writes_same _ _ Hw5), (writes_same _ _ Hw4);
        [apply Hrows; lia| |]; unfold row_seg;
        destruct (Nat.eqb_spec y i); try lia; reflexivity.
Qed.

(** Every cell of the image [DiffPrecompute] returns is at most
    [cutoff]. *)
Lemma DiffPrecompute_le_cutoff :
  (1 <= xsize)%nat -> (1 <= ysize)%nat ->
  forall y x, (y < padded_ysize)%nat -> (x < padded_xsize)%nat ->
    Row (DiffPrecompute xyb xsize ysize cutoff lanes fresh) y x <= cutoff.
Proof.
  intros Hxs Hys. unfold DiffPrecompute.
  destruct (DiffPrecompute_rows_le ysize Hxs) as (P1x & P1y & P1rows).
  change (for_loop 0 ysize (DiffPrecomputeRow xyb xsize ysize cutoff lanes) img0)
    with (DiffPrecomputeRows xyb xsize ysize cutoff lanes fresh) in P1x, P1y, P1rows.
  set (pass1 := DiffPrecomputeRows xyb xsize ysize cutoff lanes fresh) in *.
  destruct (@DiffPrecomputeLastRow_writes R _ below cutoff last_row_pixel_le
              xyb xsize ysize pass1) as (hi & Hhi & Hw2).
  set (pass2 := DiffPrecomputeLastRow xyb xsize ysize cutoff pass1) in *.
  destruct (DiffPrecomputeExtendRows_spec pass2 Hys) as (P3x & P3y & P3low & P3col).
  set (out := DiffPrecomputeExtendRows ysize pass2) in *.
  pose proof Hw2 as (P2x & P2y & _).
  assert (Hpass2 : forall y x, (y < ysize)%nat -> (x < padded_xsize)%nat ->
            Row pass2 y x <= cutoff).
  { intros y x Hy Hx.
    destruct (row_seg (ysize - 1) 0 hi y x) eqn:E.
    - apply (writes_value _ _ Hw2 E).
    - rewrite (writes_same _ _ Hw2 E). now apply P1rows. }
  intros y x Hy Hx.
  destruct (Nat.lt_ge_cases y ysize) as [Hlt|Hge].
  - rewrite P3low by exact Hlt. now apply Hpass2.
  - rewrite P3col.
    + apply col_lastval_le; [exact Hys|]. intros; now apply Hpass2.
    + unfold ysize_of in *. lia.
    + unfold xsize_of in *. lia.
Qed.

End Cutoff.

(* ================================================================== *)
(** * The claims *)

Section Claims.
Local Open Scope R_scope.

(** Without rounding, [AdjustQuantVal] never raises a quant value above
    the ceiling: for [q > 0] and [quant_max > 0], when
    [q >= 0.999 * quant_max] it returns false and leaves [q] as it is;
    otherwise, for every [d >= 0] and [factor >= 0], it returns true and
    the new value [q'] satisfies [0 < q' <= quant_max].  In binary32
    the last bound fails by an ulp: see the section on the rounding. *)
Lemma AdjustQuantVal_ceiling_exact (q d factor quant_max : R) :
  0 < q -> 0 < quant_max -> 0 <= d -> 0 <= factor ->
  (0.999 * quant_max <= q ->
     AdjustQuantVal q d factor quant_max = (false, q)) /\
  (q < 0.999 * quant_max ->
     exists q', AdjustQuantVal q d factor quant_max = (true, q') /\
                0 < q' <= quant_max).
Proof.
  intros _ Hmax _ _. split.
  - apply AdjustQuantVal_at_ceiling.
  - now apply AdjustQuantVal_below_ceiling.
Qed.

(** C8.  For every target [t > 0], [InitialQuantDC t] is
    [min (kDcQuant / min (t, kDcMul * (t / kDcMul) ^ kDcQuantPow), 50)],
    it is at most 50, and it does not increase with [t]. *)
Theorem InitialQuantDC_bounded_antitone (t1 t2 : R) :
  0 < t1 -> t1 <= t2 ->
  InitialQuantDC t1 = Rmin (1.18 / Rmin t1 (2.9 * Rpower (t1 / 2.9) 0.55)) 50 /\
  InitialQuantDC t1 <= 50 /\
  InitialQuantDC t2 <= InitialQuantDC t1.
Proof.
  intros H1 H12. split; [|split].
  - now apply InitialQuantDC_R.
  - now apply InitialQuantDC_le_50.
  - apply InitialQuantDC_antitone. lra.
Qed.

Lemma InitialQuantDC_bounded_antitone_witness :
  (0 < 1 /\ 1 <= 16) /\
  InitialQuantDC 1 = Rmin (1.18 / Rmin 1 (2.9 * Rpower (1 / 2.9) 0.55)) 50 /\
  InitialQuantDC 1 <= 50 /\
  InitialQuantDC 16 <= InitialQuantDC 1.
Proof.
  split; [lra|]. apply (@InitialQuantDC_bounded_antitone 1 16); lra.
Defined.

(** Without rounding, for every initial quant field with at least one
    cell and only strictly positive cells, the set-up of
    [FindBestQuantization] passes its assertion: [qf_higher / qf_lower]
    is 250.  In binary32 this needs a range for the cells: see the
    section on the rounding. *)
Lemma qf_bounds_quotient_exact (initial_quant_field : ImageF R) :
  (1 <= xsize initial_quant_field)%nat ->
  (1 <= ysize initial_quant_field)%nat ->
  (forall y x, (y < ysize initial_quant_field)%nat ->
               (x < xsize initial_quant_field)%nat ->
               0 < Row initial_quant_field y x) ->
  exists qf_lower qf_higher,
    qf_bounds initial_quant_field = Some (qf_lower, qf_higher) /\
    0 < qf_lower /\
    qf_higher / qf_lower = 250 /\
    qf_higher / qf_lower < 253.
Proof.
  intros Hx Hy Hpos.
  destruct (qf_bounds_ratio initial_quant_field (ImageMinMax_pos _ Hx Hy Hpos))
    as (lo & hi & Hb & Hlo & Hr).
  exists lo, hi. repeat split; auto. lra.
Qed.

End Claims.

Section ClaimsC1C2.
Local Open Scope R_scope.




(** C2, as stated, fails: a block that the decoder reproduces exactly
    has [max_error = 0 <= 0.5], its multiplier is 0, not in (0, 1], and
    the quant field cell, 1 before, becomes 0. *)
Lemma qf_mul_zero_counterexample :
  let max_error :=
    block_max_error (F := Q) flat_quarter flat_quarter (fun _ => flit 1)
      (all_dct8 0%nat 0%nat) 0 0 in
  (max_error <= 0.5)%Q /\
  ~ (0 < qf_mul max_error)%Q /\
  (Row unit_field 0 0 == 1)%Q /\
  (Row (MaxErrorBlock flat_quarter flat_quarter (fun _ => flit 1) all_dct8 0 0
          unit_field) 0 0 == 0)%Q.
Proof.
  cbv zeta. split; [|split; [|split]].
  - apply Qle_bool_iff. vm_compute. reflexivity.
  - intros Hlt. apply Qlt_not_le in Hlt. apply Hlt.
    apply Qle_bool_iff. vm_compute. reflexivity.
  - apply Qeq_bool_iff. vm_compute. reflexivity.
  - apply Qeq_bool_iff. vm_compute. reflexivity.
Qed.

(** C2, amended.  For every first block, [max_error >= 0]; the
    multiplier [qf_mul] is at least 1 when [max_error > 0.5] and lies in
    (0, 1] when [0 < max_error <= 0.5]; every cell the block covers is
    multiplied by [qf_mul], so a cell that is not negative does not
    decrease unless [max_error < 0.5]. *)
Theorem MaxErrorBlock_multiplier (opsin decoded : Image3F R) (inv_max_err : nat -> R)
  (ac_strategy : AcStrategyImage) (by' bx : nat) (quant_field : ImageF R) :
  IsFirstBlock (ac_strategy by' bx) = true ->
  let acs := ac_strategy by' bx in
  let max_error := block_max_error opsin decoded inv_max_err acs bx by' in
  let after := MaxErrorBlock opsin decoded inv_max_err ac_strategy by' bx quant_field in
  0 <= max_error /\
  (0.5 < max_error -> 1 <= qf_mul max_error) /\
  (0 < max_error <= 0.5 -> 0 < qf_mul max_error <= 1) /\
  forall qy qx, covers acs bx by' qy qx = true ->
    Row after qy qx = Row quant_field qy qx * qf_mul max_error /\
    (0.5 <= max_error -> 0 <= Row quant_field qy qx ->
       Row quant_field qy qx <= Row after qy qx).
Proof.
  intros Hfirst acs max_error after.
  assert (Hme : 0 <= max_error) by apply block_max_error_nonneg.
  destruct (qf_mul_bounds max_error) as (Hhi & Hlo & _).
  split; [exact Hme|]. split; [exact Hhi|]. split; [exact Hlo|].
  intros qy qx Hc.
  assert (Hrow : Row after qy qx = Row quant_field qy qx * qf_mul max_error).
  { unfold after, MaxErrorBlock. rewrite Hfirst. cbn [negb].
    destruct (scale_block_updates (ac_strategy by' bx) bx by' (qf_mul max_error)
                quant_field) as (_ & _ & Hr).
    fold acs in Hr |- *. fold max_error. rewrite Hr, Hc. reflexivity. }
  split; [exact Hrow|].
  intros Hhalf Hq. rewrite Hrow.
  assert (1 <= qf_mul max_error).
  { rewrite qf_mul_R. destruct (Rlt_dec max_error 0.5); [lra|].
    destruct (Rlt_dec 1 max_error); lra. }
  nra.
Qed.

Lemma MaxErrorBlock_multiplier_witness :
  IsFirstBlock (all_dct8 0%nat 0%nat) = true /\
  let acs := all_dct8 0%nat 0%nat in
  let max_error :=
    block_max_error (F := R) flat_quarter corner_step (fun _ => 1) acs 0 0 in
  let after := MaxErrorBlock flat_quarter corner_step (fun _ => 1) all_dct8 0 0
                 unit_field in
  0 <= max_error /\
  (0.5 < max_error -> 1 <= qf_mul max_error) /\
  (0 < max_error <= 0.5 -> 0 < qf_mul max_error <= 1) /\
  forall qy qx, covers acs 0 0 qy qx = true ->
    Row after qy qx = Row unit_field qy qx * qf_mul max_error /\
    (0.5 <= max_error -> 0 <= Row unit_field qy qx ->
       Row unit_field qy qx <= Row after qy qx).
Proof.
  split; [reflexivity|].
  apply (@MaxErrorBlock_multiplier flat_quarter corner_step (fun _ => 1) all_dct8
           0%nat 0%nat unit_field).
  reflexivity.
Defined.

End ClaimsC1C2.

Lemma one_dct16_tiling : tiling one_dct16 2 2.
Proof.
  intros y x (Hy & Hx & Hf). unfold one_dct16 in *. cbn in Hf.
  apply andb_true_iff in Hf. destruct Hf as [Ey Ex].
  apply Nat.eqb_eq in Ey, Ex. subst y x. cbn.
  split; [lia|]. split; [lia|]. split; [lia|]. split; [lia|].
  intros y' x' (_ & _ & Hf') Hne. cbn in Hf'.
  apply andb_true_iff in Hf'. destruct Hf' as [Ey Ex].
  apply Nat.eqb_eq in Ey, Ex. subst y' x'. now elim Hne.
Defined.

Section ClaimsAdjust.
Local Open Scope R_scope.

(** C5.  On an AC strategy whose blocks tile the field,
    [AdjustQuantField] returns, and for every first block all the cells
    the block covers hold one value afterwards: the maximum of what
    these cells held before the call. *)
Theorem AdjustQuantField_block_maximum (ac_strategy : AcStrategyImage)
  (quant_field : ImageF R) :
  tiling ac_strategy (xsize quant_field) (ysize quant_field) ->
  exists after,
    AdjustQuantField ac_strategy quant_field = Some after /\
    forall y x,
      first_block ac_strategy (xsize quant_field) (ysize quant_field) y x ->
      let acs := ac_strategy y x in
      let m := block_max quant_field acs x y in
      (forall v u, covers acs x y v u = true -> Row after v u = m) /\
      (forall v u, covers acs x y v u = true -> Row quant_field v u <= m) /\
      (exists v u, covers acs x y v u = true /\ Row quant_field v u = m).
Proof.
  intros Htiling.
  destruct (@AdjustQuantField_adjusted _ _ ac_strategy quant_field Htiling)
    as (after & Hrun & _ & _ & Hin & _).
  exists after. split; [exact Hrun|].
  intros y x Hfirst acs m.
  destruct (Htiling y x Hfirst) as (Hcx & Hcy & _).
  split; [|split].
  - intros v u Hc. now apply (Hin y x I Hfirst).
  - intros v u Hc. now apply block_max_upper.
  - now apply block_max_attained.
Qed.

Lemma AdjustQuantField_block_maximum_witness :
  tiling one_dct16 (xsize (field_1234 (F := R))) (ysize (field_1234 (F := R))) /\
  exists after,
    AdjustQuantField one_dct16 (field_1234 (F := R)) = Some after /\
    forall y x,
      first_block one_dct16 (xsize (field_1234 (F := R)))
        (ysize (field_1234 (F := R))) y x ->
      let acs := one_dct16 y x in
      let m := block_max field_1234 acs x y in
      (forall v u, covers acs x y v u = true -> Row after v u = m) /\
      (forall v u, covers acs x y v u = true -> Row field_1234 v u <= m) /\
      (exists v u, covers acs x y v u = true /\ Row field_1234 v u = m).
Proof.
  split; [exact one_dct16_tiling|].
  apply (@AdjustQuantField_block_maximum one_dct16 field_1234).
  exact one_dct16_tiling.
Defined.

End ClaimsAdjust.

(** C6.  On an AC strategy whose blocks tile the field,
    [AdjustQuantField] is idempotent: both calls return, and the second
    one returns the field the first one returned. *)
Theorem AdjustQuantField_idempotent (F : Type) (ops : FloatOps F)
  (ac_strategy : AcStrategyImage) (quant_field : ImageF F) :
  tiling ac_strategy (xsize quant_field) (ysize quant_field) ->
  exists once twice,
    AdjustQuantField ac_strategy quant_field = Some once /\
    AdjustQuantField ac_strategy once = Some twice /\
    same_image twice once.
Proof.
  intros Htiling.
  destruct (@AdjustQuantField_adjusted _ _ ac_strategy quant_field Htiling)
    as (once & Hrun & Hadj).
  pose proof Hadj as (Hxs & Hys & _).
  assert (Htiling1 : tiling ac_strategy (xsize once) (ysize once))
    by (rewrite Hxs, Hys; exact Htiling).
  destruct (AdjustQuantField_same Htiling1 (adjusted_block_constant Htiling Hadj))
    as (twice & Hrun2 & Hsame).
  exists once, twice. auto.
Qed.

Lemma AdjustQuantField_idempotent_witness :
  tiling one_dct16 (xsize (field_1234 (F := Q))) (ysize (field_1234 (F := Q))) /\
  exists once twice,
    AdjustQuantField one_dct16 (field_1234 (F := Q)) = Some once /\
    AdjustQuantField one_dct16 once = Some twice /\
    same_image twice once.
Proof.
  split; [exact one_dct16_tiling|].
  apply (@AdjustQuantField_idempotent Q Q_ops one_dct16 field_1234).
  exact one_dct16_tiling.
Defined.

Section ClaimsPeaks.
Local Open Scope R_scope.

(** C9.  For a radius [local_radius >= 0] (and sizes for which
    [x0 + 1 + local_radius] does not wrap), the map [DistToPeakMap]
    returns holds 0 in every cell that is a peak, and -1 in every cell
    of the field that lies in no peak's window, that is, whose Chebyshev
    distance to every peak exceeds [local_radius]. *)
Theorem DistToPeakMap_peaks_and_unset (field : ImageF R) (peak_min : R)
  (local_radius : Z) (peak_weight : R) :
  (0 <= local_radius)%Z ->
  (Z.of_nat (xsize field) + local_radius < 2 ^ 64)%Z ->
  (Z.of_nat (ysize field) + local_radius < 2 ^ 64)%Z ->
  let result := DistToPeakMap field peak_min local_radius peak_weight in
  (forall x0 y0, (x0 < xsize field)%nat -> (y0 < ysize field)%nat ->
     is_peak field peak_min local_radius peak_weight x0 y0 = true ->
     Row result y0 x0 = 0) /\
  (forall x y, (x < xsize field)%nat -> (y < ysize field)%nat ->
     (forall x0 y0, (x0 < xsize field)%nat -> (y0 < ysize field)%nat ->
        is_peak field peak_min local_radius peak_weight x0 y0 = true ->
        (local_radius <
         Z.max (Z.abs (Z.of_nat y - Z.of_nat y0)) (Z.abs (Z.of_nat x - Z.of_nat x0)))%Z) ->
     Row result y x = -1).
Proof.
  intros Hr Hxs Hys result. split.
  - intros x0 y0 Hx0 Hy0 Hpeak. now apply DistToPeakMap_peak.
  - intros x y Hx Hy Hfar. unfold result.
    rewrite DistToPeakMap_unset.
    + Rops. lra.
    + intros x0 y0 Hx0 Hy0 Hpeak.
      destruct (in_window field local_radius x0 y0 y x) eqn:Ew; [|reflexivity].
      apply in_window_chebyshev in Ew; try assumption.
      specialize (Hfar x0 y0 Hx0 Hy0 Hpeak). lia.
Qed.

Lemma DistToPeakMap_peaks_and_unset_witness :
  ((0 <= 1)%Z /\
   (Z.of_nat (xsize (centre_peak (F := R))) + 1 < 2 ^ 64)%Z /\
   (Z.of_nat (ysize (centre_peak (F := R))) + 1 < 2 ^ 64)%Z) /\
  let result := DistToPeakMap (centre_peak (F := R)) 1 1 0 in
  (forall x0 y0, (x0 < xsize (centre_peak (F := R)))%nat ->
     (y0 < ysize (centre_peak (F := R)))%nat ->
     is_peak centre_peak 1 1 0 x0 y0 = true ->
     Row result y0 x0 = 0) /\
  (forall x y, (x < xsize (centre_peak (F := R)))%nat ->
     (y < ysize (centre_peak (F := R)))%nat ->
     (forall x0 y0, (x0 < xsize (centre_peak (F := R)))%nat ->
        (y0 < ysize (centre_peak (F := R)))%nat ->
        is_peak centre_peak 1 1 0 x0 y0 = true ->
        (1 < Z.max (Z.abs (Z.of_nat y - Z.of_nat y0))
                   (Z.abs (Z.of_nat x - Z.of_nat x0)))%Z) ->
     Row result y x = -1).
Proof.
  split; [cbn; lia|].
  apply (@DistToPeakMap_peaks_and_unset centre_peak 1 1%Z 0); cbn; lia.
Defined.

End ClaimsPeaks.

Section Size.
Context {F : Type} `{FloatOps F}.

(** The image [DiffPrecompute] returns has the padded size. *)
Lemma DiffPrecompute_size (xyb : Image3F F) (xsize ysize : nat) (cutoff : F)
  (lanes : nat) (fresh : nat -> nat -> F) :
  (1 <= ysize)%nat ->
  xsize_of (DiffPrecompute xyb xsize ysize cutoff lanes fresh) = RoundUpToBlockDim xsize /\
  ysize_of (DiffPrecompute xyb xsize ysize cutoff lanes fresh) = RoundUpToBlockDim ysize.
Proof.
  intros Hys. unfold DiffPrecompute.
  assert (H1 : xsize_of (DiffPrecomputeRows xyb xsize ysize cutoff lanes fresh)
               = RoundUpToBlockDim xsize /\
               ysize_of (DiffPrecomputeRows xyb xsize ysize cutoff lanes fresh)
               = RoundUpToBlockDim ysize).
  { unfold DiffPrecomputeRows.
    apply for_loop_inv' with
      (P := fun cur : ImageF F => xsize_of cur = RoundUpToBlockDim xsize /\
                                  ysize_of cur = RoundUpToBlockDim ysize).
    - split; reflexivity.
    - intros i cur _ (Hx & Hy).
      destruct (@DiffPrecomputeRow_writes F _ (fun _ => True) cutoff
                  ltac:(intros; exact I) ltac:(intros; exact I) ltac:(intros; exact I)
                  xyb xsize ysize lanes i cur) as (img4 & (E4x & E4y & _) & (E5x & E5y & _)).
      unfold xsize_of, ysize_of in *. split; congruence. }
  destruct H1 as (H1x & H1y).
  destruct (@DiffPrecomputeLastRow_writes F _ (fun _ => True) cutoff
              ltac:(intros; exact I) xyb xsize ysize
              (DiffPrecomputeRows xyb xsize ysize cutoff lanes fresh))
    as (hi & _ & (E2x & E2y & _)).
  destruct (DiffPrecomputeExtendRows_spec
              (DiffPrecomputeLastRow xyb xsize ysize cutoff
                 (DiffPrecomputeRows xyb xsize ysize cutoff lanes fresh)) Hys)
    as (E3x & E3y & _).
  unfold xsize_of, ysize_of in *. split; congruence.
Qed.
End Size.

(** On a 2x2 frame whose Y plane is [corner_step], the cell right of
    the last row (row 1, column 2) is not [row_lastval] of the row's
    final pixels: it was computed before the block "Last row" overwrote
    them.  Here on the rationals; the same frame is run in binary32
    in the section on the rounding. *)
Lemma last_row_padding_counterexample :
  let out := DiffPrecompute (F := Q) corner_step 2 2 kDiffCutoff 4 (fun _ _ => flit 0) in
  ~ (Row out 1 2 == row_lastval (Row out 1) 2)%Q.
Proof.
  cbv zeta. intros Heq. apply Qeq_bool_iff in Heq. vm_compute in Heq. discriminate.
Qed.

(** Right of the last row, each padding cell is [row_lastval] of the row
    as the row tasks left it: the block "Last row" overwrites the pixels
    of the row afterwards and leaves the padding alone. *)
Lemma DiffPrecompute_last_row_padding (F : Type) (ops : FloatOps F) (xyb : Image3F F)
  (xsize ysize : nat) (cutoff : F) (lanes : nat) (fresh : nat -> nat -> F) :
  (2 <= xsize)%nat -> (1 <= ysize)%nat ->
  let rows := DiffPrecomputeRows xyb xsize ysize cutoff lanes fresh in
  let out := DiffPrecompute xyb xsize ysize cutoff lanes fresh in
  forall x, (xsize <= x < RoundUpToBlockDim xsize)%nat ->
    Row out (ysize - 1) x = row_lastval (Row rows (ysize - 1)) xsize.
Proof.
  intros Hxs Hys. cbv zeta.
  exact (proj2 (proj2 (DiffPrecompute_padding_cells xyb lanes cutoff fresh Hxs Hys))).
Qed.

(** What the padding does hold, for any arithmetic, binary32 included.
    For a frame at least two pixels wide, in the image
    [DiffPrecompute] returns: right of every row but the last, each
    padding cell is [row_lastval] of the row, the mean of its last 3
    (or 2) pixels; below the frame, each cell, also in the padding
    columns, is [col_lastval] of its column, the mean of the last 3 (or
    2, or 1) rows of the frame.  The pixels and the rows the means are
    taken of are those of the returned image. *)
Theorem DiffPrecompute_padding (F : Type) (ops : FloatOps F) (xyb : Image3F F)
  (xsize ysize : nat) (cutoff : F) (lanes : nat) (fresh : nat -> nat -> F) :
  (2 <= xsize)%nat -> (1 <= ysize)%nat -> (1 <= lanes)%nat ->
  let padded_xsize := RoundUpToBlockDim xsize in
  let padded_ysize := RoundUpToBlockDim ysize in
  let out := DiffPrecompute xyb xsize ysize cutoff lanes fresh in
  (forall y x, (y + 1 < ysize)%nat -> (xsize <= x < padded_xsize)%nat ->
     Row out y x = row_lastval (Row out y) xsize) /\
  (forall y x, (ysize <= y < padded_ysize)%nat -> (x < padded_xsize)%nat ->
     Row out y x = col_lastval out ysize x).
Proof.
  intros Hxs Hys _. cbv zeta.
  destruct (DiffPrecompute_padding_cells xyb lanes cutoff fresh Hxs Hys)
    as (Hright & Hbelow & _).
  split; assumption.
Qed.

Lemma DiffPrecompute_padding_witness :
  ((2 <= 2)%nat /\ (1 <= 2)%nat /\ (1 <= 4)%nat) /\
  let out := DiffPrecompute (F := Q) corner_step 2 2 kDiffCutoff 4 (fun _ _ => flit 0) in
  (forall y x, (y + 1 < 2)%nat -> (2 <= x < RoundUpToBlockDim 2)%nat ->
     Row out y x = row_lastval (Row out y) 2) /\
  (forall y x, (2 <= y < RoundUpToBlockDim 2)%nat -> (x < RoundUpToBlockDim 2)%nat ->
     Row out y x = col_lastval out 2 x).
Proof.
  split; [lia|].
  apply (@DiffPrecompute_padding Q Q_ops corner_step 2 2 kDiffCutoff 4 (fun _ _ => flit 0));
    lia.
Defined.

Section ClaimCutoff.
Local Open Scope R_scope.

(** Without rounding and without NaN, for every input, every cutoff and
    every frame with at least one pixel, the image [DiffPrecompute]
    returns has the padded size and each of its cells, pixels and
    padding alike, is at most [cutoff].  In binary32 this fails, with
    a NaN of the vector loop and with the rounding of the padding
    mean: see the section on the rounding. *)
Lemma DiffPrecompute_at_most_cutoff_exact (xyb : Image3F R) (xsize ysize : nat)
  (cutoff : R) (lanes : nat) (fresh : nat -> nat -> R) :
  (1 <= xsize)%nat -> (1 <= ysize)%nat -> (1 <= lanes)%nat ->
  let out := DiffPrecompute xyb xsize ysize cutoff lanes fresh in
  xsize_of out = RoundUpToBlockDim xsize /\
  ysize_of out = RoundUpToBlockDim ysize /\
  forall y x, (y < ysize_of out)%nat -> (x < xsize_of out)%nat ->
    Row out y x <= cutoff.
Proof.
  intros Hxs Hys _. cbv zeta.
  destruct (DiffPrecompute_size xyb xsize cutoff lanes fresh Hys) as (Ex & Ey).
  split; [exact Ex|]. split; [exact Ey|].
  rewrite Ex, Ey. now apply DiffPrecompute_le_cutoff.
Qed.

End ClaimCutoff.

(* ================================================================== *)
(** * The scenarios of the specification, run on the rationals *)

(** S5: under one 16x16 transform the field 1, 2, 3, 4 becomes 4
    everywhere. *)
Example AdjustQuantField_broadcast :
  option_map cells (AdjustQuantField one_dct16 field_1234) =
  Some [[4; 4]; [4; 4]]%Q.
Proof. vm_compute. reflexivity. Qed.

(** S6: a single peak with radius 1 stamps its 3x3 window. *)
Example DistToPeakMap_single_peak :
  cells (DistToPeakMap centre_peak 1 1 0) =
  [[-1; -1; -1; -1; -1];
   [-1;  1;  1;  1; -1];
   [-1;  1;  0;  1; -1];
   [-1;  1;  1;  1; -1];
   [-1; -1; -1; -1; -1]]%Q.
Proof. vm_compute. reflexivity. Qed.

(** The exponents of the first three iterations at target 1. *)
Example cur_pow_first_iterations :
  map (fun i => Qred (cur_pow i 1)) [0; 1; 2]%nat = [1 # 5; 1 # 5; 0]%Q.
Proof. vm_compute. reflexivity. Qed.

(** The three regimes of [qf_mul]. *)
Example qf_mul_regimes :
  map (fun e => Qred (qf_mul e)) [0; 0.25; 0.5; 1; 2]%Q = [0; 1 # 2; 1; 1; 2]%Q.
Proof. vm_compute. reflexivity. Qed.

(** A step of [AdjustQuantVal] below the ceiling. *)
Example AdjustQuantVal_step :
  let r := AdjustQuantVal 1 0 0.1 5 in (fst r, Qred (snd r)) = (true, 10 # 9)%Q.
Proof. vm_compute. reflexivity. Qed.

(** On a frame one pixel wide, column 1 of a row is written by the code
    of the last pixel, not by the padding loop: it is not [row_lastval]
    of the row. *)
Example one_pixel_wide_frame :
  let out := DiffPrecompute (F := Q) corner_step 1 1 kDiffCutoff 4 (fun _ _ => flit 0) in
  ~ (Row out 0 1 == row_lastval (Row out 0) 1)%Q /\
  (Row out 0 2 == row_lastval (Row out 0) 1)%Q.
Proof.
  cbv zeta. split.
  - intros Heq. apply Qeq_bool_iff in Heq. vm_compute in Heq. discriminate.
  - apply Qeq_bool_iff. vm_compute. reflexivity.
Qed.

(* ================================================================== *)
(** * Rounding to binary32 *)

Section Pow2.
Local Open Scope R_scope.

Lemma Q2R_inject_Z (z : Z) : Q2R (inject_Z z) = IZR z.
Proof. unfold Q2R. cbn. rewrite Rinv_1. lra. Qed.

Lemma Q2R_pow2 (z : Z) : Q2R (2 ^ z) = powerRZ 2 z.
Proof.
  rewrite RMicromega.Q2RpowerRZ by (left; discriminate).
  f_equal. unfold Q2R. cbn. lra.
Qed.

Lemma pow2_pos (z : Z) : 0 < powerRZ 2 z.
Proof. apply powerRZ_lt. lra. Qed.

Lemma pow2_add (a b : Z) : powerRZ 2 (a + b) = powerRZ 2 a * powerRZ 2 b.
Proof. apply powerRZ_add. lra. Qed.

Lemma pow2_succ (a : Z) : powerRZ 2 (a + 1) = 2 * powerRZ 2 a.
Proof. rewrite pow2_add. change (powerRZ 2 1) with (2 * 1). lra. Qed.

Lemma pow2_le (a b : Z) : (a <= b)%Z -> powerRZ 2 a <= powerRZ 2 b.
Proof.
  intros Hab. replace b with (a + Z.of_nat (Z.to_nat (b - a)))%Z by lia.
  rewrite pow2_add, <- pow_powerRZ.
  pose proof (pow2_pos a). pose proof (pow_R1_Rle 2 (Z.to_nat (b - a)) ltac:(lra)).
  nra.
Qed.

Lemma pow2_lt (a b : Z) : (a < b)%Z -> powerRZ 2 a < powerRZ 2 b.
Proof.
  intros Hab. apply Rlt_le_trans with (powerRZ 2 (a + 1)).
  - rewrite pow2_succ. pose proof (pow2_pos a). lra.
  - apply pow2_le. lia.
Qed.

Lemma pow2_lt_inv (a b : Z) : powerRZ 2 a < powerRZ 2 b -> (a < b)%Z.
Proof.
  intros Hlt. destruct (Z.lt_ge_cases a b) as [H|H]; [exact H|].
  apply pow2_le in H. lra.
Qed.

Lemma pow2_Z (n : Z) : (0 <= n)%Z -> IZR (2 ^ n) = powerRZ 2 n.
Proof.
  intros Hn. rewrite <- Q2R_inject_Z, <- Q2R_pow2.
  apply Qeq_eqR. now apply Zpower_Qpower.
Qed.

End Pow2.

Section Ilog2.
Local Open Scope R_scope.

(** [ilog2 m] is the exponent of the binade of [m]. *)
Lemma ilog2_spec (m : Q) :
  (0 < m)%Q -> powerRZ 2 (ilog2 m) <= Q2R m < powerRZ 2 (ilog2 m + 1).
Proof.
  intros Hm. unfold ilog2.
  destruct m as [n d]. unfold Qlt in Hm. cbn in Hm. cbn [Qnum Qden].
  assert (Hn : (0 < n)%Z) by lia.
  destruct (Z.log2_spec n Hn) as [Hn1 Hn2].
  destruct (Z.log2_spec (Zpos d) eq_refl) as [Hd1 Hd2].
  set (ln := Z.log2 n) in *. set (ld := Z.log2 (Zpos d)) in *.
  assert (Hln : (0 <= ln)%Z) by apply Z.log2_nonneg.
  assert (Hld : (0 <= ld)%Z) by apply Z.log2_nonneg.
  apply IZR_le in Hn1, Hd1. apply IZR_lt in Hn2, Hd2.
  rewrite pow2_Z in Hn1, Hn2, Hd1, Hd2 by lia.
  unfold Z.succ in *. rewrite pow2_succ in Hn2, Hd2.
  assert (Hm' : Q2R (n # d) = IZR n / IZR (Zpos d)) by reflexivity.
  pose proof (pow2_pos ln) as Pn. pose proof (pow2_pos ld) as Pd.
  assert (Hdpos : 0 < IZR (Zpos d)) by (apply IZR_lt; lia).
  assert (He : powerRZ 2 (ln - ld) = powerRZ 2 ln / powerRZ 2 ld).
  { replace ln with ((ln - ld) + ld)%Z at 2 by lia. rewrite pow2_add. field. lra. }
  assert (Hup : Q2R (n # d) < 2 * powerRZ 2 (ln - ld)).
  { rewrite Hm', He. apply Rmult_lt_reg_r with (IZR (Zpos d)); [exact Hdpos|].
    unfold Rdiv. rewrite Rmult_assoc, Rinv_l by lra. rewrite Rmult_1_r.
    apply Rlt_le_trans with (2 * powerRZ 2 ln); [lra|].
    replace (2 * (powerRZ 2 ln * / powerRZ 2 ld) * IZR (Z.pos d))
      with (2 * powerRZ 2 ln * (IZR (Z.pos d) / powerRZ 2 ld)) by (field; lra).
    assert (1 <= IZR (Z.pos d) / powerRZ 2 ld).
    { apply Rmult_le_reg_r with (powerRZ 2 ld); [exact Pd|].
      unfold Rdiv. rewrite Rmult_assoc, Rinv_l by lra. lra. }
    nra. }
  assert (Hlow : powerRZ 2 (ln - ld) / 2 < Q2R (n # d)).
  { rewrite Hm', He. apply Rmult_lt_reg_r with (IZR (Zpos d)); [exact Hdpos|].
    unfold Rdiv at 3. rewrite Rmult_assoc, Rinv_l by lra. rewrite Rmult_1_r.
    apply Rlt_le_trans with (powerRZ 2 ln); [|lra].
    replace (powerRZ 2 ln / powerRZ 2 ld / 2 * IZR (Z.pos d))
      with (powerRZ 2 ln * (IZR (Z.pos d) / (2 * powerRZ 2 ld))) by (field; lra).
    assert (IZR (Z.pos d) / (2 * powerRZ 2 ld) < 1).
    { apply Rmult_lt_reg_r with (2 * powerRZ 2 ld); [lra|].
      unfold Rdiv. rewrite Rmult_assoc, Rinv_l by lra. lra. }
    nra. }
  destruct (Qle_bool (2 ^ (ln - ld)) (n # d)) eqn:E.
  - apply Qle_bool_iff, Qle_Rle in E. rewrite Q2R_pow2 in E.
    rewrite pow2_succ. lra.
  - assert (Hlt : Q2R (n # d) < powerRZ 2 (ln - ld)).
    { apply Rnot_le_lt. intros Hle. rewrite <- Q2R_pow2 in Hle.
      apply Rle_Qle, Qle_bool_iff in Hle. congruence. }
    replace (ln - ld - 1 + 1)%Z with (ln - ld)%Z by lia.
    split; [|exact Hlt].
    replace (ln - ld)%Z with ((ln - ld - 1) + 1)%Z in Hlow by lia.
    rewrite pow2_succ in Hlow. lra.
Qed.

Lemma ilog2_unique (m : Q) (e : Z) :
  (0 < m)%Q -> powerRZ 2 e <= Q2R m < powerRZ 2 (e + 1) -> ilog2 m = e.
Proof.
  intros Hm [H1 H2]. destruct (ilog2_spec Hm) as [L1 L2].
  assert (ilog2 m < e + 1)%Z by (apply pow2_lt_inv; lra).
  assert (e < ilog2 m + 1)%Z by (apply pow2_lt_inv; lra).
  lia.
Qed.

Lemma ilog2_mono (a b : Q) : (0 < a)%Q -> (a <= b)%Q -> (ilog2 a <= ilog2 b)%Z.
Proof.
  intros Ha Hab. assert (Hb : (0 < b)%Q) by (eapply Qlt_le_trans; eassumption).
  destruct (ilog2_spec Ha) as [A1 A2]. destruct (ilog2_spec Hb) as [B1 B2].
  apply Qle_Rle in Hab.
  assert (ilog2 a < ilog2 b + 1)%Z by (apply pow2_lt_inv; lra).
  lia.
Qed.

End Ilog2.

Section Rne.
Local Open Scope R_scope.

Lemma Qfloor_R (x : Q) : IZR (Qfloor x) <= Q2R x < IZR (Qfloor x) + 1.
Proof.
  pose proof (Qle_Rle _ _ (Qfloor_le x)) as H1.
  pose proof (Qlt_Rlt _ _ (Qlt_floor x)) as H2.
  rewrite Q2R_inject_Z in H1, H2. rewrite plus_IZR in H2. lra.
Qed.

(** [rne] is within one half of its argument. *)
Lemma rne_close (x : Q) : Rabs (IZR (rne x) - Q2R x) <= 1 / 2.
Proof.
  unfold rne. destruct (Qfloor_R x) as [H1 H2].
  assert (Hhalf : Q2R (1 # 2) = 1 / 2) by (unfold Q2R; cbn; lra).
  assert (Hfrac : Q2R (x - inject_Z (Qfloor x)) = Q2R x - IZR (Qfloor x))
    by (rewrite Q2R_minus, Q2R_inject_Z; reflexivity).
  destruct (Qcompare_spec (x - inject_Z (Qfloor x)) (1 # 2)) as [E|E|E].
  - apply Qeq_eqR in E. rewrite Hfrac, Hhalf in E.
    destruct (Z.even (Qfloor x)); [|rewrite plus_IZR];
      apply Rabs_le; lra.
  - apply Qlt_Rlt in E. rewrite Hfrac, Hhalf in E. apply Rabs_le; lra.
  - apply Qlt_Rlt in E. rewrite Hfrac, Hhalf in E. rewrite plus_IZR.
    apply Rabs_le; lra.
Qed.

Lemma rne_bounds (x : Q) : (Qfloor x <= rne x <= Qfloor x + 1)%Z.
Proof.
  unfold rne. destruct (_ ?= _)%Q; [destruct (Z.even _)| |]; lia.
Qed.

Lemma rne_comp (x y : Q) : (x == y)%Q -> rne x = rne y.
Proof.
  intros E. unfold rne. rewrite (Qfloor_comp _ _ E).
  assert (E' : (x - inject_Z (Qfloor y) == y - inject_Z (Qfloor y))%Q)
    by (rewrite E; reflexivity).
  now rewrite (Qcompare_comp _ _ E' (1 # 2) (1 # 2) (Qeq_refl _)).
Qed.

Lemma rne_Z (k : Z) : rne (inject_Z k) = k.
Proof.
  unfold rne. rewrite Qfloor_Z.
  assert (E : (inject_Z k - inject_Z k == 0)%Q) by ring.
  rewrite (Qcompare_comp _ _ E (1 # 2) (1 # 2) (Qeq_refl _)). reflexivity.
Qed.

Lemma rne_mono (x y : Q) : (x <= y)%Q -> (rne x <= rne y)%Z.
Proof.
  intros Hxy. pose proof (Qfloor_resp_le _ _ Hxy) as Hf.
  pose proof (rne_bounds x) as Bx. pose proof (rne_bounds y) as By.
  destruct (Z.eq_dec (Qfloor x) (Qfloor y)) as [Ef|Nf]; [|lia].
  unfold rne. rewrite Ef.
  assert (Hfr : (x - inject_Z (Qfloor y) <= y - inject_Z (Qfloor y))%Q).
  { apply Qplus_le_l with (z := inject_Z (Qfloor y)). ring_simplify. exact Hxy. }
  destruct (Qcompare_spec (x - inject_Z (Qfloor y)) (1 # 2)) as [E1|E1|E1];
    destruct (Qcompare_spec (y - inject_Z (Qfloor y)) (1 # 2)) as [E2|E2|E2];
    try (destruct (Z.even (Qfloor y))); try lia;
    exfalso.
  all: try (rewrite E1 in Hfr); try (rewrite E2 in Hfr).
  all: try (apply (Qlt_irrefl (1 # 2)); eapply Qle_lt_trans; eassumption).
  all: try (apply (Qlt_irrefl (1 # 2)); eapply Qlt_le_trans; eassumption).
  all: try (apply (Qlt_irrefl (1 # 2));
            eapply Qlt_trans; [eassumption|]; eapply Qle_lt_trans; eassumption).
Qed.

End Rne.

Section RoundMag.
Local Open Scope R_scope.

Lemma round_mag_rounded (m : Q) :
  round_mag m = if Qle_bool (2 ^ 128) (rounded m) then None else Some (Qred (rounded m)).
Proof. reflexivity. Qed.

Lemma Q2R_ulp32 (m : Q) : Q2R (ulp32 m) = powerRZ 2 (binade m - 23).
Proof. unfold ulp32, binade. apply Q2R_pow2. Qed.

Lemma ulp32_neq (m : Q) : ~ (ulp32 m == 0)%Q.
Proof.
  intros E. apply Qeq_eqR in E. rewrite Q2R_ulp32 in E.
  pose proof (pow2_pos (binade m - 23)). unfold Q2R in E. cbn in E. lra.
Qed.

Lemma Q2R_rounded (m : Q) :
  Q2R (rounded m) = IZR (rne (m / ulp32 m)) * powerRZ 2 (binade m - 23).
Proof. unfold rounded. now rewrite Q2R_mult, Q2R_inject_Z, Q2R_ulp32. Qed.

Lemma Q2R_scaled (m : Q) : Q2R (m / ulp32 m) = Q2R m / powerRZ 2 (binade m - 23).
Proof. rewrite Q2R_div by apply ulp32_neq. now rewrite Q2R_ulp32. Qed.

(** The rounding error is at most half a unit in the last place. *)
Lemma rounded_close (m : Q) :
  Rabs (Q2R (rounded m) - Q2R m) <= powerRZ 2 (binade m - 23) / 2.
Proof.
  rewrite Q2R_rounded. pose proof (rne_close (m / ulp32 m)) as Hc.
  rewrite Q2R_scaled in Hc.
  pose proof (pow2_pos (binade m - 23)) as Hu. set (u := powerRZ 2 (binade m - 23)) in *.
  set (k := IZR (rne (m / ulp32 m))) in *.
  replace (k * u - Q2R m) with ((k - Q2R m / u) * u) by (field; lra).
  rewrite Rabs_mult, (Rabs_pos_eq u) by lra.
  apply Rle_trans with (1 / 2 * u); [|lra].
  apply Rmult_le_compat_r; lra.
Qed.

(** A magnitude below the top of its binade rounds to at most that top. *)
Lemma rounded_le_top (m : Q) (e : Z) :
  (binade m <= e)%Z -> Q2R m <= powerRZ 2 (e + 1) ->
  Q2R (rounded m) <= powerRZ 2 (e + 1).
Proof.
  intros He Hm.
  pose proof (pow2_pos (binade m - 23)) as Hu.
  assert (Hq : (m / ulp32 m <= inject_Z (2 ^ (e + 1 - (binade m - 23))))%Q).
  { apply Rle_Qle. rewrite Q2R_scaled, Q2R_inject_Z, pow2_Z by lia.
    apply Rmult_le_reg_r with (powerRZ 2 (binade m - 23)); [exact Hu|].
    rewrite <- pow2_add. replace (e + 1 - (binade m - 23) + (binade m - 23))%Z
      with (e + 1)%Z by lia.
    unfold Rdiv. rewrite Rmult_assoc, Rinv_l by lra. lra. }
  apply rne_mono in Hq. rewrite rne_Z in Hq. apply IZR_le in Hq.
  rewrite pow2_Z in Hq by lia.
  rewrite Q2R_rounded.
  replace (powerRZ 2 (e + 1))
    with (powerRZ 2 (e + 1 - (binade m - 23)) * powerRZ 2 (binade m - 23)).
  - apply Rmult_le_compat_r; lra.
  - rewrite <- pow2_add. f_equal. lia.
Qed.

(** A magnitude at or above a power of two of its binade or higher
    rounds to at least that power. *)
Lemma rounded_ge_bottom (m : Q) (e : Z) :
  (binade m - 23 <= e)%Z -> powerRZ 2 e <= Q2R m ->
  powerRZ 2 e <= Q2R (rounded m).
Proof.
  intros He Hm.
  pose proof (pow2_pos (binade m - 23)) as Hu.
  assert (Hq : (inject_Z (2 ^ (e - (binade m - 23))) <= m / ulp32 m)%Q).
  { apply Rle_Qle. rewrite Q2R_scaled, Q2R_inject_Z, pow2_Z by lia.
    apply Rmult_le_reg_r with (powerRZ 2 (binade m - 23)); [exact Hu|].
    rewrite <- pow2_add. replace (e - (binade m - 23) + (binade m - 23))%Z
      with e by lia.
    unfold Rdiv. rewrite Rmult_assoc, Rinv_l by lra. lra. }
  apply rne_mono in Hq. rewrite rne_Z in Hq. apply IZR_le in Hq.
  rewrite pow2_Z in Hq by lia.
  rewrite Q2R_rounded.
  replace (powerRZ 2 e)
    with (powerRZ 2 (e - (binade m - 23)) * powerRZ 2 (binade m - 23)).
  - apply Rmult_le_compat_r; lra.
  - rewrite <- pow2_add. f_equal. lia.
Qed.

Lemma rounded_nonneg (m : Q) : (0 <= m)%Q -> 0 <= Q2R (rounded m).
Proof.
  intros Hm. rewrite Q2R_rounded.
  pose proof (pow2_pos (binade m - 23)) as Hu.
  assert (Hq : (inject_Z 0 <= m / ulp32 m)%Q).
  { apply Rle_Qle. rewrite Q2R_scaled, Q2R_inject_Z.
    apply Qle_Rle in Hm. replace (Q2R 0) with 0 in Hm by (unfold Q2R; cbn; lra).
    apply Rmult_le_pos; [exact Hm|]. left. now apply Rinv_0_lt_compat. }
  apply rne_mono in Hq. rewrite rne_Z in Hq. apply IZR_le in Hq.
  apply Rmult_le_pos; lra.
Qed.

Lemma binade_mono (a b : Q) : (0 < a)%Q -> (a <= b)%Q -> (binade a <= binade b)%Z.
Proof. intros Ha Hab. unfold binade. pose proof (ilog2_mono Ha Hab). lia. Qed.

Lemma binade_top (m : Q) : (0 < m)%Q -> Q2R m < powerRZ 2 (binade m + 1).
Proof.
  intros Hm. destruct (ilog2_spec Hm) as [_ H].
  eapply Rlt_le_trans; [exact H|]. apply pow2_le. unfold binade. lia.
Qed.

(** Rounding is monotone. *)
Lemma rounded_mono (a b : Q) :
  (0 < a)%Q -> (a <= b)%Q -> Q2R (rounded a) <= Q2R (rounded b).
Proof.
  intros Ha Hab. assert (Hb : (0 < b)%Q) by (eapply Qlt_le_trans; eassumption).
  pose proof (binade_mono Ha Hab) as Hbin.
  destruct (Z.eq_dec (binade a) (binade b)) as [E|N].
  - rewrite !Q2R_rounded, E.
    pose proof (pow2_pos (binade b - 23)) as Hu.
    apply Rmult_le_compat_r; [lra|]. apply IZR_le, rne_mono.
    apply Rle_Qle. rewrite !Q2R_scaled, E.
    apply Rmult_le_compat_r; [left; now apply Rinv_0_lt_compat|now apply Qle_Rle].
  - apply Rle_trans with (powerRZ 2 (binade a + 1)).
    + apply rounded_le_top; [lia|]. left. now apply binade_top.
    + apply Rle_trans with (powerRZ 2 (binade b)); [apply pow2_le; lia|].
      apply rounded_ge_bottom; [lia|].
      assert (Hil : binade b = ilog2 b) by (unfold binade in *; lia).
      rewrite Hil. now destruct (ilog2_spec Hb).
Qed.

End RoundMag.

(* ================================================================== *)
(** * Finite and infinite results of the rounding *)

Section RoundOption.
Local Open Scope R_scope.

Lemma Q2R_0 : Q2R 0 = 0.
Proof. unfold Q2R. cbn. lra. Qed.

Lemma Q2R_1 : Q2R 1 = 1.
Proof. unfold Q2R. cbn. lra. Qed.

Lemma rounded_zero (m : Q) : (m == 0)%Q -> Q2R (rounded m) = 0.
Proof.
  intros E. rewrite Q2R_rounded.
  assert (E' : (m / ulp32 m == inject_Z 0)%Q).
  { apply eqR_Qeq. rewrite Q2R_scaled, Q2R_inject_Z, (Qeq_eqR _ _ E), Q2R_0.
    unfold Rdiv. ring. }
  rewrite (rne_comp E'), rne_Z. lra.
Qed.

Lemma rounded_mono0 (a b : Q) :
  (0 <= a)%Q -> (a <= b)%Q -> Q2R (rounded a) <= Q2R (rounded b).
Proof.
  intros Ha Hab. destruct (Qlt_le_dec 0 a) as [Hpos|Hle].
  - now apply rounded_mono.
  - assert (E : (a == 0)%Q) by (now apply Qle_antisym).
    rewrite (rounded_zero E). apply rounded_nonneg.
    eapply Qle_trans; eassumption.
Qed.

Lemma Q2R_pow2_128 : Q2R (2 ^ 128) = powerRZ 2 128.
Proof. apply Q2R_pow2. Qed.

Lemma round_mag_Some (m m' : Q) :
  round_mag m = Some m' ->
  Q2R m' = Q2R (rounded m) /\ Q2R (rounded m) < powerRZ 2 128.
Proof.
  rewrite round_mag_rounded. destruct (Qle_bool (2 ^ 128) (rounded m)) eqn:E; [discriminate|].
  intros H. assert (Hm : m' = Qred (rounded m)) by congruence. subst m'. split.
  - exact (Qeq_eqR _ _ (Qred_correct (rounded m))).
  - apply Rnot_le_lt. intros Hle. rewrite <- Q2R_pow2_128 in Hle.
    apply Rle_Qle, Qle_bool_iff in Hle. congruence.
Qed.

Lemma round_mag_None (m : Q) :
  round_mag m = None -> powerRZ 2 128 <= Q2R (rounded m).
Proof.
  rewrite round_mag_rounded. destruct (Qle_bool (2 ^ 128) (rounded m)) eqn:E; [|discriminate].
  intros _. apply Qle_bool_iff, Qle_Rle in E. now rewrite Q2R_pow2_128 in E.
Qed.

Lemma round_mag_finite (m : Q) :
  Q2R (rounded m) < powerRZ 2 128 -> round_mag m = Some (Qred (rounded m)).
Proof.
  intros Hlt. rewrite round_mag_rounded.
  destruct (Qle_bool (2 ^ 128) (rounded m)) eqn:E; [|reflexivity].
  apply Qle_bool_iff, Qle_Rle in E. rewrite Q2R_pow2_128 in E. lra.
Qed.

End RoundOption.

Section Float32Order.
Local Open Scope R_scope.

Lemma rnd_valid (s : bool) (m : Q) : (0 <= m)%Q -> valid (rnd s m).
Proof.
  intros Hm. unfold rnd. destruct (round_mag m) as [m'|] eqn:E; [|exact I].
  cbn. apply round_mag_Some in E. destruct E as [E _].
  apply Rle_Qle. rewrite E, Q2R_0. now apply rounded_nonneg.
Qed.

Lemma rnd_val_valid (v : Q) : valid (rnd_val v).
Proof. apply rnd_valid, Qabs_nonneg. Qed.

(** A sum is a valid float whatever its operands are. *)
Lemma f32_add_valid (x y : f32) : valid (f32_add x y).
Proof.
  destruct x as [s1 m1|s1|], y as [s2 m2|s2|]; cbn; try exact I.
  - destruct (Qeq_bool _ 0); [cbn; apply Qle_refl|apply rnd_val_valid].
  - destruct (Bool.eqb s1 s2); exact I.
Qed.

Lemma Fin_leb (a b : Q) :
  f32_leb (Fin false a) (Fin false b) = true <-> (a <= b)%Q.
Proof.
  unfold f32_leb, f32_compare, val. cbv iota.
  destruct (Qcompare_spec a b) as [E|E|E]; split; intros H; try reflexivity;
    try discriminate.
  - rewrite E. apply Qle_refl.
  - now apply Qlt_le_weak.
  - exfalso. apply (Qlt_irrefl b). eapply Qlt_le_trans; eassumption.
Qed.

Lemma Fin_ltb (a b : Q) :
  f32_ltb (Fin false a) (Fin false b) = true <-> (a < b)%Q.
Proof.
  unfold f32_ltb, f32_compare, val. cbv iota.
  destruct (Qcompare_spec a b) as [E|E|E]; split; intros H; try reflexivity;
    try discriminate; try assumption.
  - rewrite E in H. now apply Qlt_irrefl in H.
  - exfalso. apply (Qlt_irrefl b). eapply Qlt_trans; eassumption.
Qed.

(** Rounding is monotone, overflow included. *)
Lemma rnd_mono (a b : Q) :
  (0 <= a)%Q -> (a <= b)%Q -> f32_leb (rnd false a) (rnd false b) = true.
Proof.
  intros Ha Hab. pose proof (rounded_mono0 Ha Hab) as Hm. unfold rnd.
  destruct (round_mag a) as [a'|] eqn:Ea, (round_mag b) as [b'|] eqn:Eb;
    try reflexivity.
  - apply round_mag_Some in Ea, Eb. destruct Ea as [Ea _], Eb as [Eb _].
    apply Fin_leb, Rle_Qle. lra.
  - apply round_mag_None in Ea. apply round_mag_Some in Eb. lra.
Qed.

End Float32Order.

(* ================================================================== *)
(** * AdjustQuantVal in binary32 *)

Section RoundExact.
Local Open Scope R_scope.

Lemma pow2_Qpos (e : Z) : (0 < 2 ^ e)%Q.
Proof. apply Qpower_0_lt. reflexivity. Qed.

Lemma binade_pow2 (e : Z) : (-126 <= e)%Z -> binade (2 ^ e) = e.
Proof.
  intros He. unfold binade.
  rewrite (@ilog2_unique (2 ^ e) e); [lia|apply pow2_Qpos|].
  rewrite Q2R_pow2. split; [lra|]. apply pow2_lt. lia.
Qed.

(** A power of two in the normal range is a float. *)
Lemma rounded_pow2 (e : Z) : (-126 <= e)%Z -> Q2R (rounded (2 ^ e)) = powerRZ 2 e.
Proof.
  intros He. rewrite Q2R_rounded, binade_pow2 by exact He.
  assert (E : (2 ^ e / ulp32 (2 ^ e) == inject_Z (2 ^ 23))%Q).
  { apply eqR_Qeq. rewrite Q2R_scaled, Q2R_inject_Z, binade_pow2, Q2R_pow2 by exact He.
    rewrite pow2_Z by lia.
    replace e with (23 + (e - 23))%Z at 1 by lia. rewrite pow2_add.
    pose proof (pow2_pos (e - 23)). field. lra. }
  rewrite (rne_comp E), rne_Z, pow2_Z by lia.
  rewrite <- pow2_add. f_equal. lia.
Qed.

(** A magnitude in the normal range rounds to one in the normal range,
    or overflows. *)
Lemma rnd_normal (m : Q) (lo : Z) :
  (-126 <= lo)%Z -> powerRZ 2 lo <= Q2R m ->
  rnd false m = Inf false \/
  exists m', rnd false m = Fin false m' /\ powerRZ 2 lo <= Q2R m'.
Proof.
  intros Hlo Hm. unfold rnd. destruct (round_mag m) as [m'|] eqn:E; [right|now left].
  exists m'. split; [reflexivity|]. apply round_mag_Some in E. destruct E as [-> _].
  rewrite <- (rounded_pow2 Hlo). apply rounded_mono; [apply pow2_Qpos|].
  apply Rle_Qle. now rewrite Q2R_pow2.
Qed.

Lemma rnd_bounded (m : Q) (hi : Z) :
  (-126 <= hi < 128)%Z -> (0 <= m)%Q -> Q2R m <= powerRZ 2 hi ->
  exists m', rnd false m = Fin false m' /\ 0 <= Q2R m' <= powerRZ 2 hi.
Proof.
  intros Hhi H0 Hm.
  assert (Hr : Q2R (rounded m) <= powerRZ 2 hi).
  { rewrite <- (@rounded_pow2 hi) by lia. apply rounded_mono0; [exact H0|].
    apply Rle_Qle. now rewrite Q2R_pow2. }
  assert (Hlt : powerRZ 2 hi < powerRZ 2 128) by (apply pow2_lt; lia).
  unfold rnd. rewrite round_mag_finite by lra.
  eexists. split; [reflexivity|].
  rewrite (Qeq_eqR _ _ (Qred_correct (rounded m))).
  split; [now apply rounded_nonneg|exact Hr].
Qed.

End RoundExact.

Section AdjustQuantVal32.
Local Open Scope R_scope.

Lemma Qeq_bool_false_pos (a : Q) : (0 < a)%Q -> Qeq_bool a 0 = false.
Proof.
  intros Ha. destruct (Qeq_bool a 0) eqn:E; [|reflexivity].
  apply Qeq_bool_iff in E. rewrite E in Ha. now apply Qlt_irrefl in Ha.
Qed.

Lemma Qinv_le_contravar (a b : Q) : (0 < a)%Q -> (a <= b)%Q -> (1 / b <= 1 / a)%Q.
Proof.
  intros Ha Hab. assert (Hb : (0 < b)%Q) by (eapply Qlt_le_trans; eassumption).
  assert (Ra : 0 < Q2R a) by (rewrite <- Q2R_0; now apply Qlt_Rlt).
  assert (Rb : Q2R a <= Q2R b) by now apply Qle_Rle.
  apply Rle_Qle. rewrite !Q2R_div, Q2R_1.
  - unfold Rdiv. rewrite !Rmult_1_l. apply Rinv_le_contravar; lra.
  - intros E. rewrite E in Ha. now apply Qlt_irrefl in Ha.
  - intros E. rewrite E in Hb. now apply Qlt_irrefl in Hb.
Qed.

Lemma Qinv_nonneg (a : Q) : (0 < a)%Q -> (0 <= 1 / a)%Q.
Proof. intros Ha. apply Qle_shift_div_l; [exact Ha|]. now rewrite Qmult_0_l. Qed.

Lemma recip_form (a : Q) : (0 <= a)%Q -> recip_ok (f32_div (Fin false 1) (Fin false a)).
Proof.
  intros Ha. cbn. destruct (Qeq_bool a 0) eqn:E.
  - left. reflexivity.
  - assert (Hpos : (0 < a)%Q).
    { apply Qeq_bool_neq in E. destruct (Qlt_le_dec 0 a) as [H|H]; [exact H|].
      exfalso. apply E. now apply Qle_antisym. }
    pose proof (rnd_valid false (Qinv_nonneg Hpos)) as Hv.
    cbn [xorb]. destruct (rnd false (1 / a)) as [s m|s|] eqn:Er.
    + unfold rnd in Er. destruct (round_mag (1 / a)); [|discriminate].
      injection Er as <- <-. right. eauto.
    + unfold rnd in Er. destruct (round_mag (1 / a)); [discriminate|].
      injection Er as <-. now left.
    + unfold rnd in Er. destruct (round_mag (1 / a)); discriminate.
Qed.

Lemma recip_ok_nonneg (r : f32) : recip_ok r -> f32_leb (Fin false 0) r = true.
Proof.
  intros [->|(m & -> & Hm)]; [reflexivity|]. now apply Fin_leb.
Qed.

Lemma recip_ok_refl (r : f32) : recip_ok r -> f32_leb r r = true.
Proof.
  intros [->|(m & -> & Hm)]; [reflexivity|]. apply Fin_leb, Qle_refl.
Qed.

(** [1.0f / x] does not increase when [x] does. *)
Lemma recip_antitone (a : Q) (b : f32) :
  (0 <= a)%Q -> valid b -> f32_ltb (Fin false a) b = true ->
  recip_ok (f32_div (Fin false 1) b) /\
  f32_leb (f32_div (Fin false 1) b) (f32_div (Fin false 1) (Fin false a)) = true.
Proof.
  intros Ha Hb Hlt. destruct b as [sb bv|sb|]; cbn in Hb.
  - destruct sb.
    + exfalso. unfold f32_ltb, f32_compare, val in Hlt.
      destruct (Qcompare_spec a (- bv)%Q) as [E|E|E]; try discriminate.
      apply (Qlt_irrefl 0). apply Qle_lt_trans with a; [exact Ha|].
      apply Qlt_le_trans with (- bv)%Q; [exact E|].
      apply Qopp_le_compat in Hb. exact Hb.
    + apply Fin_ltb in Hlt.
      assert (Hbpos : (0 < bv)%Q) by (apply Qle_lt_trans with a; assumption).
      split; [now apply recip_form|].
      cbn. rewrite (Qeq_bool_false_pos Hbpos). cbn [xorb].
      destruct (Qeq_bool a 0) eqn:E.
      * unfold rnd. destruct (round_mag (1 / bv)); reflexivity.
      * assert (Hapos : (0 < a)%Q).
        { apply Qeq_bool_neq in E. destruct (Qlt_le_dec 0 a) as [H|H]; [exact H|].
          exfalso. apply E. now apply Qle_antisym. }
        apply rnd_mono; [now apply Qinv_nonneg|].
        apply Qinv_le_contravar; [exact Hapos|now apply Qlt_le_weak].
  - destruct sb; [discriminate|].
    split; [right; exists 0%Q; split; [reflexivity|apply Qle_refl]|].
    cbn [f32_div xorb]. apply recip_ok_nonneg. now apply recip_form.
  - discriminate.
Qed.

End AdjustQuantVal32.

Section AdjustQuantValPositive.
Local Open Scope R_scope.

Lemma Qneg_false (v : Q) : (0 <= v)%Q -> Qneg v = false.
Proof. intros Hv. unfold Qneg. apply Qle_bool_iff in Hv. now rewrite Hv. Qed.

Lemma Qneg_true (v : Q) : (v < 0)%Q -> Qneg v = true.
Proof.
  intros Hv. unfold Qneg. destruct (Qle_bool 0 v) eqn:E; [|reflexivity].
  apply Qle_bool_iff in E. exfalso. apply (Qlt_irrefl 0).
  eapply Qle_lt_trans; eassumption.
Qed.

Lemma rnd_forms (s : bool) (m : Q) :
  (0 <= m)%Q -> rnd s m = Inf s \/ exists m', rnd s m = Fin s m' /\ (0 <= m')%Q.
Proof.
  intros Hm. pose proof (rnd_valid s Hm) as Hv. unfold rnd in *.
  destruct (round_mag m) as [m'|]; [right; eauto|now left].
Qed.

Lemma Q2R_pos (a : Q) : (0 < a)%Q -> 0 < Q2R a.
Proof. intros Ha. rewrite <- Q2R_0. now apply Qlt_Rlt. Qed.

Lemma Q2R_nonneg (a : Q) : (0 <= a)%Q -> 0 <= Q2R a.
Proof. intros Ha. rewrite <- Q2R_0. now apply Qle_Rle. Qed.

Lemma Qpos_neq (a : Q) : (0 < a)%Q -> ~ (a == 0)%Q.
Proof. intros Ha E. rewrite E in Ha. now apply Qlt_irrefl in Ha. Qed.

Lemma Q2R_recip (a : Q) : (0 < a)%Q -> Q2R (1 / a) = / Q2R a.
Proof.
  intros Ha. rewrite Q2R_div by now apply Qpos_neq. rewrite Q2R_1. unfold Rdiv. lra.
Qed.

Lemma pow2_opp (e : Z) : powerRZ 2 (- e) = / powerRZ 2 e.
Proof.
  pose proof (pow2_pos e). apply Rmult_eq_reg_r with (powerRZ 2 e); [|lra].
  rewrite <- pow2_add, Rinv_l by lra. replace (- e + e)%Z with 0%Z by lia. reflexivity.
Qed.

Lemma pow2_m126 : powerRZ 2 (-126) = / powerRZ 2 126.
Proof. exact (pow2_opp 126). Qed.

Lemma pow2_126 : powerRZ 2 126 = / powerRZ 2 (-126).
Proof. rewrite pow2_m126, Rinv_inv. reflexivity. Qed.

(** The reciprocal of a float in [0, 2^126] is positive. *)
Lemma recip_positive (a : Q) :
  (0 <= a)%Q -> Q2R a <= powerRZ 2 126 ->
  f32_ltb (Fin false 0) (f32_div (Fin false 1) (Fin false a)) = true.
Proof.
  intros Ha Hhi. cbn. destruct (Qeq_bool a 0) eqn:E; [reflexivity|].
  assert (Hpos : (0 < a)%Q).
  { apply Qeq_bool_neq in E. destruct (Qlt_le_dec 0 a) as [H|H]; [exact H|].
    exfalso. apply E. now apply Qle_antisym. }
  cbn [xorb].
  assert (Hlo : powerRZ 2 (-126) <= Q2R (1 / a)).
  { rewrite Q2R_recip by exact Hpos. rewrite pow2_m126.
    apply Rinv_le_contravar; [now apply Q2R_pos|exact Hhi]. }
  destruct (@rnd_normal (1 / a) (-126) ltac:(lia) Hlo) as [->|(m' & -> & Hm')];
    [reflexivity|].
  apply Fin_ltb. apply Rlt_Qlt. rewrite Q2R_0.
  pose proof (pow2_pos (-126)). lra.
Qed.

(** [1.0f / q] of a normal positive float is at most [2^126]. *)
Lemma recip_normal (qv : Q) :
  powerRZ 2 (-126) <= Q2R qv ->
  exists av, f32_div (Fin false 1) (Fin false qv) = Fin false av /\
             0 <= Q2R av <= powerRZ 2 126.
Proof.
  intros Hq. pose proof (pow2_pos (-126)) as Hp.
  assert (Hpos : (0 < qv)%Q) by (apply Rlt_Qlt; rewrite Q2R_0; lra).
  cbn -[powerRZ]. rewrite (Qeq_bool_false_pos Hpos). cbn [xorb].
  apply rnd_bounded; [lia|now apply Qinv_nonneg|].
  rewrite Q2R_recip by exact Hpos.
  rewrite pow2_126. apply Rinv_le_contravar; lra.
Qed.

Lemma flit_1 : flit (F := f32) 1 = Fin false 1.
Proof. reflexivity. Qed.

Lemma flit_0 : flit (F := f32) 0 = Fin false 0.
Proof. reflexivity. Qed.

(** [d + 1.0f] for a float [d] that is not negative. *)
Lemma succ_form (dv : Q) :
  (0 <= dv)%Q ->
  f32_add (Fin false dv) (Fin false 1) = Inf false \/
  exists sv, f32_add (Fin false dv) (Fin false 1) = Fin false sv /\ (0 < sv)%Q.
Proof.
  intros Hd. cbn -[Qplus]. unfold val.
  assert (Hpos : (0 < dv + 1)%Q).
  { apply Rlt_Qlt. rewrite Q2R_0, Q2R_plus, Q2R_1. pose proof (Q2R_nonneg Hd). lra. }
  rewrite (Qeq_bool_false_pos Hpos). unfold rnd_val.
  rewrite (Qneg_false (Qlt_le_weak _ _ Hpos)).
  assert (H1 : powerRZ 2 0 <= Q2R (Qabs (dv + 1))).
  { rewrite (Qeq_eqR _ _ (Qabs_pos _ (Qlt_le_weak _ _ Hpos))), Q2R_plus, Q2R_1.
    pose proof (Q2R_nonneg Hd). cbn. lra. }
  destruct (@rnd_normal (Qabs (dv + 1)) 0 ltac:(lia) H1) as [->|(m' & -> & Hm')];
    [now left|right].
  exists m'. split; [reflexivity|]. apply Rlt_Qlt. rewrite Q2R_0. cbn in Hm'. lra.
Qed.

(** [factor / (d + 1.0f)] for floats that are not negative. *)
Lemma speed_form (fv dv : Q) :
  (0 <= fv)%Q -> (0 <= dv)%Q ->
  let t := f32_div (Fin false fv) (f32_add (Fin false dv) (Fin false 1)) in
  t = Inf false \/ exists tv, t = Fin false tv /\ (0 <= tv)%Q.
Proof.
  intros Hf Hd. cbv zeta.
  destruct (succ_form Hd) as [->|(sv & -> & Hsv)].
  - right. exists 0%Q. split; [reflexivity|apply Qle_refl].
  - cbn. rewrite (Qeq_bool_false_pos Hsv). cbn [xorb].
    apply rnd_forms. apply Rle_Qle. rewrite Q2R_0, Q2R_div by now apply Qpos_neq.
    apply Rmult_le_pos; [now apply Q2R_nonneg|].
    left. apply Rinv_0_lt_compat. now apply Q2R_pos.
Qed.

(** [inv_q - t]: what can exceed a float that is not negative. *)
Lemma adj_form (av tv iv : Q) :
  (0 <= av)%Q -> Q2R av <= powerRZ 2 126 -> (0 <= tv)%Q -> (0 <= iv)%Q ->
  let x := f32_sub (Fin false av) (Fin false tv) in
  f32_ltb (Fin false iv) x = true ->
  exists xv, x = Fin false xv /\ (0 <= xv)%Q /\ Q2R xv <= powerRZ 2 126.
Proof.
  intros Ha Hhi Ht Hi. cbv zeta. unfold f32_sub, f32_opp, f32_add.
  cbn [negb andb]. unfold val.
  destruct (Qeq_bool (av + - tv) 0) eqn:E.
  { intros _. exists 0%Q. split; [reflexivity|]. split; [apply Qle_refl|].
    rewrite Q2R_0. left. apply pow2_pos. }
  unfold rnd_val. destruct (Qlt_le_dec (av + - tv) 0) as [Hneg|Hpos].
  - rewrite (Qneg_true Hneg). intros Hlt. exfalso.
    destruct (@rnd_forms true (Qabs (av + - tv)) (Qabs_nonneg _)) as [Er|(m' & Er & Hm')];
      rewrite Er in Hlt; [discriminate|].
    unfold f32_ltb, f32_compare, val in Hlt.
    destruct (Qcompare_spec iv (- m')%Q) as [C|C|C]; try discriminate.
    apply (Qlt_irrefl 0). apply Qle_lt_trans with iv; [exact Hi|].
    apply Qlt_le_trans with (- m')%Q; [exact C|].
    apply Qopp_le_compat in Hm'. exact Hm'.
  - rewrite (Qneg_false Hpos). intros _.
    assert (Hx : Q2R (Qabs (av + - tv)) <= powerRZ 2 126).
    { rewrite (Qeq_eqR _ _ (Qabs_pos _ Hpos)), Q2R_plus, Q2R_opp.
      pose proof (Q2R_nonneg Ht). lra. }
    destruct (@rnd_bounded (Qabs (av + - tv)) 126 ltac:(lia) (Qabs_nonneg _) Hx)
      as (m' & -> & Hm').
    exists m'. split; [reflexivity|]. split; [apply Rle_Qle; rewrite Q2R_0|]; lra.
Qed.

End AdjustQuantValPositive.

Section AdjustQuantValMain.
Local Open Scope R_scope.

Lemma Inf_not_ltb (x : f32) : f32_ltb (Inf false) x = false.
Proof. destruct x as [s m|[|]|]; reflexivity. Qed.

Lemma recip_Inf : f32_div (Fin false 1) (Inf false) = Fin false 0.
Proof. reflexivity. Qed.

(** The value [AdjustQuantVal] leaves: at most [1.0f / (1.0f / quant_max)]
    and not negative. *)
Lemma adjusted_value_le (c : Q) (x : f32) :
  (0 < c)%Q -> valid x ->
  let inv := f32_div (Fin false 1) (Fin false c) in
  let q' := f32_div (Fin false 1) (if f32_ltb inv x then x else inv) in
  recip_ok q' /\ f32_leb q' (f32_div (Fin false 1) inv) = true.
Proof.
  intros Hc Hx. cbv zeta.
  destruct (recip_form (Qlt_le_weak _ _ Hc)) as [Einv|(iv & Einv & Hiv)]; rewrite Einv.
  - rewrite Inf_not_ltb, recip_Inf. split; [|reflexivity].
    right. exists 0%Q. split; [reflexivity|apply Qle_refl].
  - destruct (f32_ltb (Fin false iv) x) eqn:Elt.
    + now apply recip_antitone.
    + split; [now apply recip_form|]. apply recip_ok_refl. now apply recip_form.
Qed.

(** For the ceilings of the caller, [1.0f / (1.0f / quant_max)] is
    [quant_max] or the float below it. *)
Lemma ceiling_round_trip (quant_max : f32) :
  In quant_max quant_ceilings ->
  exists c r, quant_max = Fin false c /\
              f32_div (Fin false 1) (f32_div (Fin false 1) quant_max) = Fin false r /\
              (r <= c)%Q.
Proof.
  intros Hin. unfold quant_ceilings in Hin. cbn [In] in Hin.
  repeat (destruct Hin as [<-|Hin];
          [eexists; eexists; split; [vm_compute; reflexivity|];
           split; [vm_compute; reflexivity|]; vm_compute; discriminate|]).
  destruct Hin.
Qed.

Lemma recip_ok_le_trans (q' : f32) (r c : Q) :
  recip_ok q' -> f32_leb q' (Fin false r) = true -> (r <= c)%Q ->
  f32_leb q' (Fin false c) = true.
Proof.
  intros [->|(m & -> & Hm)] Hle Hrc; [discriminate|].
  apply Fin_leb. apply Fin_leb in Hle. eapply Qle_trans; eassumption.
Qed.

Lemma adjusted_value_positive (c qv dv fv : Q) :
  powerRZ 2 (-126) <= Q2R c -> powerRZ 2 (-126) <= Q2R qv ->
  (0 <= dv)%Q -> (0 <= fv)%Q ->
  let inv := f32_div (Fin false 1) (Fin false c) in
  let x := f32_sub (f32_div (Fin false 1) (Fin false qv))
             (f32_div (Fin false fv) (f32_add (Fin false dv) (Fin false 1))) in
  f32_ltb (Fin false 0)
    (f32_div (Fin false 1) (if f32_ltb inv x then x else inv)) = true.
Proof.
  intros Hc Hq Hd Hf. cbv zeta.
  destruct (recip_normal Hc) as (iv & -> & Hiv0 & Hiv1).
  destruct (recip_normal Hq) as (av & -> & Hav0 & Hav1).
  assert (Hiv : (0 <= iv)%Q) by (apply Rle_Qle; now rewrite Q2R_0).
  assert (Hav : (0 <= av)%Q) by (apply Rle_Qle; now rewrite Q2R_0).
  destruct (f32_ltb (Fin false iv) _) eqn:Elt; [|now apply recip_positive].
  destruct (speed_form Hf Hd) as [Et|(tv & Et & Htv)]; rewrite Et in *.
  - discriminate.
  - destruct (adj_form Hav Hav1 Htv Hiv Elt) as (xv & -> & Hxv & Hxv1).
    now apply recip_positive.
Qed.

End AdjustQuantValMain.

(** C10, as stated, fails on the float code: with the ceiling 7.625
    the value left in [*q] is 7.62500048, above the ceiling. *)
Lemma AdjustQuantVal_rounding_counterexample :
  exists q', AdjustQuantVal (F := f32) (flit 1) (flit 0) (flit 10) (flit 7.625) = (true, q') /\
             fleb q' (flit 7.625) = false /\
             q' = Fin false (15990785 # 2097152).
Proof. eexists. split; [vm_compute; reflexivity|]. split; vm_compute; reflexivity. Qed.

(** C10, amended.  In binary32, for every [q], [d] and [factor] (NaN and
    the infinities included) and every normal positive [quant_max]:
    [AdjustQuantVal] returns false and leaves [q] when
    [q >= 0.999f * quant_max], and otherwise returns true and leaves a
    [q'] that is not negative and is at most
    [1.0f / (1.0f / quant_max)]; for the ceilings 5, 5.5, ..., 8 that
    bound is at most [quant_max]; and [q'] is positive when [q] is a
    normal positive float and [d] and [factor] are finite and not
    negative. *)
Theorem AdjustQuantVal_ceiling_binary32 (q d factor : f32) (c : Q) :
  (2 ^ (-126) <= c)%Q ->
  let quant_max := Fin false c in
  (fleb (fmul (flit 0.999) quant_max) q = true /\
   AdjustQuantVal q d factor quant_max = (false, q)) \/
  (fleb (fmul (flit 0.999) quant_max) q = false /\
   exists q',
    AdjustQuantVal q d factor quant_max = (true, q') /\
    fleb (flit 0) q' = true /\
    fleb q' (fdiv (flit 1) (fdiv (flit 1) quant_max)) = true /\
    (In quant_max quant_ceilings -> fleb q' quant_max = true) /\
    (forall qv dv fv : Q,
       q = Fin false qv -> (2 ^ (-126) <= qv)%Q ->
       d = Fin false dv -> (0 <= dv)%Q ->
       factor = Fin false fv -> (0 <= fv)%Q ->
       fltb (flit 0) q' = true)).
Proof.
  intros Hc. cbv zeta. unfold AdjustQuantVal, std_max.
  cbn [fadd fsub fmul fdiv fltb fleb F32_ops]. rewrite flit_1, flit_0.
  destruct (f32_leb _ q); [now left|right].
  split; [reflexivity|].
  assert (Hcpos : (0 < c)%Q).
  { eapply Qlt_le_trans; [|exact Hc]. apply pow2_Qpos. }
  set (x := f32_sub _ _).
  assert (Hx : valid x) by apply f32_add_valid.
  destruct (@adjusted_value_le c x Hcpos Hx) as [Hok Hle].
  eexists. split; [reflexivity|].
  split; [now apply recip_ok_nonneg|]. split; [exact Hle|]. split.
  - intros Hin. destruct (ceiling_round_trip Hin) as (c0 & r & Ec & Er & Hrc).
    injection Ec as <-. rewrite Er in Hle. now apply recip_ok_le_trans with r.
  - intros qv dv fv -> Hqv -> Hdv -> Hfv. subst x.
    apply adjusted_value_positive; try assumption.
    + rewrite <- Q2R_pow2. now apply Qle_Rle.
    + rewrite <- Q2R_pow2. now apply Qle_Rle.
Qed.

Lemma AdjustQuantVal_ceiling_binary32_witness :
  (2 ^ (-126) <= 5)%Q /\
  ((fleb (fmul (flit 0.999) (Fin false 5)) (flit (F := f32) 1) = true /\
    AdjustQuantVal (F := f32) (flit 1) (flit 0) (flit 10) (Fin false 5) = (false, flit 1)) \/
   (fleb (fmul (flit 0.999) (Fin false 5)) (flit (F := f32) 1) = false /\
   exists q',
     AdjustQuantVal (F := f32) (flit 1) (flit 0) (flit 10) (Fin false 5) = (true, q') /\
     fleb (flit 0) q' = true /\
     fleb q' (fdiv (flit 1) (fdiv (flit 1) (Fin false 5))) = true /\
     (In (Fin false 5) quant_ceilings -> fleb q' (Fin false 5) = true) /\
     (forall qv dv fv : Q,
        flit 1 = Fin false qv -> (2 ^ (-126) <= qv)%Q ->
        flit 0 = Fin false dv -> (0 <= dv)%Q ->
        flit 10 = Fin false fv -> (0 <= fv)%Q ->
        fltb (flit 0) q' = true))).
Proof.
  split; [vm_compute; discriminate|].
  apply (@AdjustQuantVal_ceiling_binary32 (flit 1) (flit 0) (flit 10) 5).
  vm_compute. discriminate.
Defined.

(* ================================================================== *)
(** * The relative error of a chain of roundings *)

Section Near.
Local Open Scope R_scope.

Lemma eta_gt_1 : 1 < eta.
Proof. unfold eta. lra. Qed.

Lemma eta_pow_ge_1 (k : nat) : 1 <= eta ^ k.
Proof. apply pow_R1_Rle. pose proof eta_gt_1. lra. Qed.

Lemma eta_pow_pos (k : nat) : 0 < eta ^ k.
Proof. pose proof (eta_pow_ge_1 k). lra. Qed.

Lemma eta_pow_mono (j k : nat) : (j <= k)%nat -> eta ^ j <= eta ^ k.
Proof. intros Hjk. apply Rle_pow; [pose proof eta_gt_1; lra|exact Hjk]. Qed.

Lemma near_pos (k : nat) (x y : R) : near k x y -> 0 < x.
Proof.
  intros (Hy & Hlo & _). pose proof (eta_pow_pos k).
  eapply Rlt_le_trans; [|exact Hlo]. apply Rdiv_lt_0_compat; lra.
Qed.

Lemma near_refl (y : R) : 0 < y -> near 0 y y.
Proof. intros Hy. unfold near. cbn. split; [exact Hy|]. split; lra. Qed.

Lemma near_weaken (j k : nat) (x y : R) : (j <= k)%nat -> near j x y -> near k x y.
Proof.
  intros Hjk (Hy & Hlo & Hhi). pose proof (eta_pow_mono Hjk) as Hm.
  pose proof (eta_pow_pos j) as Hj. pose proof (eta_pow_pos k) as Hk.
  split; [exact Hy|]. split.
  - eapply Rle_trans; [|exact Hlo]. unfold Rdiv.
    apply Rmult_le_compat_l; [lra|]. apply Rinv_le_contravar; lra.
  - eapply Rle_trans; [exact Hhi|]. apply Rmult_le_compat_l; lra.
Qed.

Lemma near_mul (j k : nat) (x1 y1 x2 y2 : R) :
  near j x1 y1 -> near k x2 y2 -> near (j + k) (x1 * x2) (y1 * y2).
Proof.
  intros H1 H2. pose proof (near_pos H1) as P1. pose proof (near_pos H2) as P2.
  destruct H1 as (Hy1 & Hlo1 & Hhi1), H2 as (Hy2 & Hlo2 & Hhi2).
  pose proof (eta_pow_pos j) as Hj. pose proof (eta_pow_pos k) as Hk.
  unfold near. rewrite pow_add. split; [now apply Rmult_lt_0_compat|]. split.
  - replace (y1 * y2 / (eta ^ j * eta ^ k)) with ((y1 / eta ^ j) * (y2 / eta ^ k))
      by (field; lra).
    apply Rmult_le_compat; try assumption; left; apply Rdiv_lt_0_compat; lra.
  - replace (y1 * y2 * (eta ^ j * eta ^ k)) with ((y1 * eta ^ j) * (y2 * eta ^ k))
      by ring.
    apply Rmult_le_compat; lra.
Qed.

Lemma near_inv (k : nat) (x y : R) : near k x y -> near k (/ x) (/ y).
Proof.
  intros H. pose proof (near_pos H) as Px. destruct H as (Hy & Hlo & Hhi).
  pose proof (eta_pow_pos k) as Hk.
  split; [now apply Rinv_0_lt_compat|]. split.
  - replace (/ y / eta ^ k) with (/ (y * eta ^ k)) by (field; lra).
    apply Rinv_le_contravar; lra.
  - replace (/ y * eta ^ k) with (/ (y / eta ^ k)) by (field; lra).
    apply Rinv_le_contravar; [apply Rdiv_lt_0_compat; lra|exact Hlo].
Qed.

Lemma near_div (j k : nat) (x1 y1 x2 y2 : R) :
  near j x1 y1 -> near k x2 y2 -> near (j + k) (x1 / x2) (y1 / y2).
Proof. intros H1 H2. apply near_mul; [exact H1|now apply near_inv]. Qed.

Lemma near_trans (j k : nat) (x y z : R) :
  near j x y -> near k y z -> near (j + k) x z.
Proof.
  intros (Hy & Hlo1 & Hhi1) (Hz & Hlo2 & Hhi2).
  pose proof (eta_pow_pos j) as Hj. pose proof (eta_pow_pos k) as Hk.
  unfold near. rewrite pow_add. split; [exact Hz|]. split.
  - eapply Rle_trans; [|exact Hlo1].
    replace (z / (eta ^ j * eta ^ k)) with (z / eta ^ k / eta ^ j) by (field; lra).
    unfold Rdiv at 1 3. apply Rmult_le_compat_r; [left; now apply Rinv_0_lt_compat|exact Hlo2].
  - eapply Rle_trans; [exact Hhi1|].
    replace (z * (eta ^ j * eta ^ k)) with (z * eta ^ k * eta ^ j) by ring.
    apply Rmult_le_compat_r; lra.
Qed.

Lemma near_sqrt (k : nat) (x y : R) : near k x y -> near k (sqrt x) (sqrt y).
Proof.
  intros H. pose proof (near_pos H) as Px. destruct H as (Hy & Hlo & Hhi).
  pose proof (eta_pow_pos k) as Hk. pose proof (eta_pow_ge_1 k) as Hk1.
  assert (Hsy : 0 < sqrt y) by now apply sqrt_lt_R0.
  split; [exact Hsy|]. split.
  - apply Rle_trans with (sqrt (y / eta ^ k)); [|now apply sqrt_le_1_alt].
    rewrite sqrt_div_alt by exact Hk. unfold Rdiv.
    apply Rmult_le_compat_l; [lra|]. apply Rinv_le_contravar.
    + now apply sqrt_lt_R0.
    + rewrite <- (sqrt_square (eta ^ k)) at 2 by lra. apply sqrt_le_1_alt. nra.
  - apply Rle_trans with (sqrt (y * eta ^ k)); [now apply sqrt_le_1_alt|].
    rewrite sqrt_mult by lra. apply Rmult_le_compat_l; [lra|].
    rewrite <- (sqrt_square (eta ^ k)) at 2 by lra. apply sqrt_le_1_alt. nra.
Qed.

(** Twenty-four roundings change a number by less than a factor of
    1.001. *)
Lemma eta_pow_24 : eta ^ 24 <= 1001 / 1000.
Proof. unfold eta. cbn [pow]. lra. Qed.

Lemma near_range (k : nat) (x y lo hi : R) :
  (k <= 24)%nat -> near k x y -> lo <= y <= hi -> 0 < lo ->
  lo / 2 <= x <= 2 * hi.
Proof.
  intros Hk H [Hlo Hhi] Hpos. apply (near_weaken Hk) in H.
  destruct H as (Hy & H1 & H2). pose proof eta_pow_24 as E.
  pose proof (eta_pow_ge_1 24) as E1. split.
  - eapply Rle_trans; [|exact H1].
    apply Rle_trans with (y / 2); [lra|].
    unfold Rdiv. apply Rmult_le_compat_l; [lra|]. apply Rinv_le_contravar; lra.
  - eapply Rle_trans; [exact H2|]. nra.
Qed.

End Near.

Section RoundNear.
Local Open Scope R_scope.

Lemma pow2_m23 : powerRZ 2 (-23) = / 8388608.
Proof. change (powerRZ 2 (-23)) with (/ 2 ^ 23). cbn [pow]. lra. Qed.

Lemma Rabs_le_both (x y : R) : Rabs x <= y -> - y <= x <= y.
Proof. unfold Rabs. destruct (Rcase_abs x); lra. Qed.

(** In the normal range the binade of a number is at most the number. *)
Lemma binade_le (m : Q) : powerRZ 2 (-126) <= Q2R m -> powerRZ 2 (binade m) <= Q2R m.
Proof.
  intros Hm. pose proof (pow2_pos (-126)) as Hp.
  assert (Hpos : (0 < m)%Q) by (apply Rlt_Qlt; rewrite Q2R_0; lra).
  destruct (ilog2_spec Hpos) as [H1 _]. unfold binade.
  destruct (Z.max_spec (ilog2 m) (-126)) as [[_ ->]|[_ ->]]; assumption.
Qed.

(** A number of the normal range is rounded with a relative error of
    at most [2^-24]. *)
Lemma rounded_rel (m : Q) :
  powerRZ 2 (-126) <= Q2R m ->
  Rabs (Q2R (rounded m) - Q2R m) <= Q2R m / 16777216.
Proof.
  intros Hm. eapply Rle_trans; [apply rounded_close|].
  pose proof (binade_le Hm) as Hb.
  replace (binade m - 23)%Z with (binade m + -23)%Z by lia.
  rewrite pow2_add, pow2_m23. lra.
Qed.

Lemma rounded_near (m : Q) :
  powerRZ 2 (-126) <= Q2R m -> near 1 (Q2R (rounded m)) (Q2R m).
Proof.
  intros Hm. pose proof (rounded_rel Hm) as Hr.
  pose proof (pow2_pos (-126)) as Hp.
  assert (Hv : 0 < Q2R m) by lra.
  apply Rabs_le_both in Hr. unfold near, eta. cbn [pow]. rewrite Rmult_1_r.
  split; [exact Hv|]. split.
  - apply Rle_trans with (Q2R m - Q2R m / 16777216); [|lra].
    apply Rmult_le_reg_r with (1 + / 8388608); [lra|].
    unfold Rdiv. rewrite Rmult_assoc, Rinv_l by lra. nra.
  - lra.
Qed.

(** Rounding a number of the normal range gives a finite float. *)
Lemma rnd_near (m : Q) :
  powerRZ 2 (-126) <= Q2R m <= powerRZ 2 127 ->
  exists m', rnd false m = Fin false m' /\ near 1 (Q2R m') (Q2R m).
Proof.
  intros [Hlo Hhi]. pose proof (rounded_near Hlo) as Hn.
  pose proof (rounded_rel Hlo) as Hr. apply Rabs_le_both in Hr.
  pose proof (pow2_pos (-126)) as Hp.
  assert (Hfin : Q2R (rounded m) < powerRZ 2 128).
  { replace 128%Z with (127 + 1)%Z by lia. rewrite pow2_succ. lra. }
  exists (Qred (rounded m)). unfold rnd. rewrite (round_mag_finite Hfin).
  split; [reflexivity|].
  now rewrite (Qeq_eqR _ _ (Qred_correct (rounded m))).
Qed.

Lemma pow2_m125 : powerRZ 2 (-125) = 2 * powerRZ 2 (-126).
Proof. exact (pow2_succ (-126)). Qed.

Lemma pow2_127 : powerRZ 2 127 = 2 * powerRZ 2 126.
Proof. exact (pow2_succ 126). Qed.

(** Rounding a number that is [k] roundings away from a target of the
    range [[2^-125, 2^126]]. *)
Lemma rnd_near_target (k : nat) (m : Q) (y : R) :
  (k <= 23)%nat -> near k (Q2R m) y ->
  powerRZ 2 (-125) <= y <= powerRZ 2 126 ->
  exists m', rnd false m = Fin false m' /\ near (S k) (Q2R m') y.
Proof.
  intros Hk Hn Hy.
  assert (Hr : powerRZ 2 (-125) / 2 <= Q2R m <= 2 * powerRZ 2 126).
  { apply near_range with (k := k) (y := y); [lia|exact Hn|exact Hy|apply pow2_pos]. }
  rewrite pow2_m125 in Hr. rewrite <- pow2_127 in Hr.
  destruct (@rnd_near m) as (m' & E & Hm'); [lra|].
  exists m'. split; [exact E|]. change (S k) with (1 + k)%nat.
  now apply near_trans with (Q2R m).
Qed.

Lemma Q2R_positive (a : Q) : 0 < Q2R a -> (0 < a)%Q.
Proof. intros Ha. apply Rlt_Qlt. now rewrite Q2R_0. Qed.

Lemma f32_mul_near (j k : nat) (a b : Q) (ya yb : R) :
  near j (Q2R a) ya -> near k (Q2R b) yb -> (j + k <= 23)%nat ->
  powerRZ 2 (-125) <= ya * yb <= powerRZ 2 126 ->
  exists m, f32_mul (Fin false a) (Fin false b) = Fin false m /\
            near (S (j + k)) (Q2R m) (ya * yb).
Proof.
  intros Ha Hb Hk Hy. cbn [f32_mul xorb].
  apply rnd_near_target; [exact Hk| |exact Hy].
  rewrite Q2R_mult. now apply near_mul.
Qed.

Lemma f32_div_near (j k : nat) (a b : Q) (ya yb : R) :
  near j (Q2R a) ya -> near k (Q2R b) yb -> (j + k <= 23)%nat ->
  powerRZ 2 (-125) <= ya / yb <= powerRZ 2 126 ->
  exists m, f32_div (Fin false a) (Fin false b) = Fin false m /\
            near (S (j + k)) (Q2R m) (ya / yb).
Proof.
  intros Ha Hb Hk Hy. pose proof (Q2R_positive (near_pos Hb)) as Hbpos.
  cbn [f32_div xorb].
  destruct (Qeq_bool b 0) eqn:E.
  { apply Qeq_bool_iff in E. rewrite E in Hbpos. now apply Qlt_irrefl in Hbpos. }
  apply rnd_near_target; [exact Hk| |exact Hy].
  rewrite Q2R_div by now apply Qpos_neq. now apply near_div.
Qed.

End RoundNear.

Section SqrtNear.
Local Open Scope R_scope.

Lemma Q2R_pow4 (k : Z) : Q2R (4 ^ k) = powerRZ 2 (k + k).
Proof.
  rewrite RMicromega.Q2RpowerRZ by (left; discriminate).
  replace (Q2R 4) with (2 * 2) by (unfold Q2R; cbn; lra).
  now rewrite powerRZ_mult, pow2_add.
Qed.

Lemma pow2_54 : powerRZ 2 54 = IZR (2 ^ 54).
Proof. symmetry. apply pow2_Z. lia. Qed.

(** The scaled square root is one rounding away from the square
    root. *)
Lemma sqrt_mag_near (m : Q) :
  (0 < m)%Q -> near 1 (Q2R (sqrt_mag m)) (sqrt (Q2R m)).
Proof.
  intros Hm. pose proof (Q2R_pos Hm) as Hv.
  destruct (ilog2_spec Hm) as [He _].
  unfold sqrt_mag.
  set (k := (27 - ilog2 m / 2)%Z).
  set (scaled := (m * 4 ^ k)%Q).
  set (s := Z.sqrt (Qfloor scaled)).
  set (st := if Qeq_bool (inject_Z (s * s)) scaled then 0%Z else 1%Z).
  pose proof (pow2_pos k) as Hp. set (p := powerRZ 2 k) in *.
  assert (HS : Q2R scaled = Q2R m * (p * p)).
  { unfold scaled. now rewrite Q2R_mult, Q2R_pow4, pow2_add. }
  assert (H54 : powerRZ 2 54 <= Q2R scaled).
  { rewrite HS. unfold p. rewrite <- pow2_add.
    apply Rle_trans with (powerRZ 2 (ilog2 m) * powerRZ 2 (k + k)).
    - rewrite <- pow2_add. apply pow2_le. unfold k.
      pose proof (Z.mul_div_le (ilog2 m) 2 ltac:(lia)). lia.
    - apply Rmult_le_compat_r; [left; apply pow2_pos|exact He]. }
  destruct (Qfloor_R scaled) as [Hf1 Hf2].
  assert (Hn : (2 ^ 54 <= Qfloor scaled)%Z).
  { rewrite pow2_54 in H54. assert (H : IZR (2 ^ 54) < IZR (Qfloor scaled + 1)).
    { rewrite plus_IZR. lra. }
    apply lt_IZR in H. lia. }
  assert (Hs : (2 ^ 27 <= s)%Z).
  { change (2 ^ 27)%Z with (Z.sqrt (2 ^ 54)). now apply Z.sqrt_le_mono. }
  destruct (Z.sqrt_spec (Qfloor scaled) ltac:(lia)) as [Hs1 Hs2]. fold s in Hs1, Hs2.
  assert (R1 : IZR s * IZR s <= Q2R scaled).
  { rewrite <- mult_IZR. eapply Rle_trans; [apply IZR_le; exact Hs1|exact Hf1]. }
  assert (R2 : Q2R scaled < (IZR s + 1) * (IZR s + 1)).
  { eapply Rlt_le_trans; [exact Hf2|].
    replace (IZR (Qfloor scaled) + 1) with (IZR (Qfloor scaled + 1)) by (rewrite plus_IZR; lra).
    replace ((IZR s + 1) * (IZR s + 1)) with (IZR (Z.succ s * Z.succ s))
      by (rewrite mult_IZR, succ_IZR; lra).
    apply IZR_le. lia. }
  assert (R3 : 134217728 <= IZR s) by (apply IZR_le in Hs; exact Hs).
  set (w := sqrt (Q2R scaled)).
  assert (Hw0 : 0 <= w) by apply sqrt_pos.
  assert (Hww : w * w = Q2R scaled) by (apply sqrt_sqrt; nra).
  assert (Hw1 : IZR s <= w) by nra.
  assert (Hw2 : w < IZR s + 1) by nra.
  assert (Hroot : sqrt (Q2R m) = w / p).
  { unfold w. rewrite HS, sqrt_mult, sqrt_square by nra. field. lra. }
  assert (Hst : 0 <= IZR st <= 1).
  { unfold st. destruct (Qeq_bool _ _); lra. }
  assert (Hres : Q2R (inject_Z (2 * s + st) / 2 ^ (k + 1)) = (IZR s + IZR st / 2) / p).
  { rewrite Q2R_div by (apply Qpos_neq, pow2_Qpos).
    rewrite Q2R_inject_Z, Q2R_pow2, pow2_succ, plus_IZR, mult_IZR. fold p. field. lra. }
  rewrite Hres, Hroot. unfold near, eta. cbn [pow]. rewrite Rmult_1_r.
  assert (Hpi : 0 < / p) by now apply Rinv_0_lt_compat.
  split; [apply Rdiv_lt_0_compat; lra|]. split.
  - unfold Rdiv. rewrite (Rmult_assoc w), (Rmult_comm (/ p)), <- (Rmult_assoc w).
    apply Rmult_le_compat_r; [lra|].
    apply Rmult_le_reg_r with (1 + / 8388608); [lra|].
    rewrite Rmult_assoc, Rinv_l by lra. nra.
  - unfold Rdiv. rewrite (Rmult_assoc w), (Rmult_comm (/ p)), <- (Rmult_assoc w).
    apply Rmult_le_compat_r; [lra|]. nra.
Qed.

Lemma f32_sqrt_near (k : nat) (a : Q) (y : R) :
  near k (Q2R a) y -> (k <= 22)%nat ->
  powerRZ 2 (-125) <= sqrt y <= powerRZ 2 126 ->
  exists m, f32_sqrt (Fin false a) = Fin false m /\
            near (S (S k)) (Q2R m) (sqrt y).
Proof.
  intros Ha Hk Hy. pose proof (Q2R_positive (near_pos Ha)) as Hapos.
  cbn [f32_sqrt].
  destruct (Qeq_bool a 0) eqn:E.
  { apply Qeq_bool_iff in E. rewrite E in Hapos. now apply Qlt_irrefl in Hapos. }
  apply rnd_near_target; [lia| |exact Hy].
  change (S k) with (1 + k)%nat.
  apply near_trans with (sqrt (Q2R a)); [now apply sqrt_mag_near|now apply near_sqrt].
Qed.

End SqrtNear.

(* ================================================================== *)
(** * The assertion of FindBestQuantization in binary32 *)

Section QfBounds32.
Local Open Scope R_scope.

Lemma qf_bounds_f32 (powf : f32 -> f32 -> f32) (field : ImageF f32) :
  qf_bounds (H0 := F32_libm powf) field =
  let '(mn, mx) := ImageMinMax field in
  let ratio := f32_div mx mn in
  let dev := f32_sqrt (f32_div (Fin false 250) ratio) in
  let asym := if f32_ltb dev (Fin false 2) then dev else Fin false 2 in
  let lo := f32_div mn (f32_mul asym dev) in
  let hi := f32_mul mx (f32_div dev asym) in
  if f32_ltb (f32_div hi lo) (Fin false 253) then Some (lo, hi) else None.
Proof. reflexivity. Qed.

Lemma qf_in_range_inv (x : f32) :
  qf_in_range x = true ->
  exists v, x = Fin false v /\ (2 ^ (-60) <= v)%Q /\ (v <= 2 ^ 60)%Q.
Proof.
  destruct x as [[|] v| |]; try discriminate. cbn.
  intros H. apply andb_true_iff in H. destruct H as [H1 H2].
  apply Qle_bool_iff in H1, H2. eauto.
Qed.

(** The least and the greatest cell of a field in range. *)
Lemma ImageMinMax_in_range (field : ImageF f32) :
  (1 <= xsize field)%nat -> (1 <= ysize field)%nat ->
  (forall y x, (y < ysize field)%nat -> (x < xsize field)%nat ->
               qf_in_range (Row field y x) = true) ->
  exists a b, ImageMinMax field = (Fin false a, Fin false b) /\
              (2 ^ (-60) <= a)%Q /\ (a <= b)%Q /\ (b <= 2 ^ 60)%Q.
Proof.
  intros Hx Hy Hr. unfold ImageMinMax.
  set (P := fun mm : f32 * f32 =>
              exists a b, mm = (Fin false a, Fin false b) /\
                          (2 ^ (-60) <= a)%Q /\ (a <= b)%Q /\ (b <= 2 ^ 60)%Q).
  apply for_loop_inv' with (P := P).
  - destruct (qf_in_range_inv _ (Hr 0%nat 0%nat ltac:(lia) ltac:(lia))) as (v & -> & H1 & H2).
    exists v, v. repeat split; auto. apply Qle_refl.
  - intros y mm Hyr Hmm. apply for_loop_inv' with (P := P); [exact Hmm|].
    intros x mm' Hxr (a & b & -> & Ha & Hab & Hb). cbn [fst snd].
    destruct (qf_in_range_inv _ (Hr y x ltac:(lia) ltac:(lia))) as (v & -> & H1 & H2).
    unfold std_min, std_max. cbn [fltb F32_ops].
    destruct (f32_ltb (Fin false v) (Fin false a)) eqn:C1;
      destruct (f32_ltb (Fin false b) (Fin false v)) eqn:C2.
    + apply Fin_ltb in C1, C2. exists v, v. repeat split; auto. apply Qle_refl.
    + apply Fin_ltb in C1. exists v, b. repeat split; auto.
      apply Qle_trans with a; [now apply Qlt_le_weak|exact Hab].
    + apply Fin_ltb in C2. exists a, v. repeat split; auto.
      apply Qle_trans with b; [exact Hab|now apply Qlt_le_weak].
    + exists a, b. repeat split; auto.
Qed.

Lemma pow2_60 : powerRZ 2 60 = 1152921504606846976.
Proof. rewrite <- pow2_Z by lia. reflexivity. Qed.

Lemma pow2_m60 : powerRZ 2 (-60) = / 1152921504606846976.
Proof. rewrite <- pow2_60. exact (pow2_opp 60). Qed.

Lemma pow2_126_val : powerRZ 2 126 = 85070591730234615865843651857942052864.
Proof. rewrite <- pow2_Z by lia. reflexivity. Qed.

Lemma pow2_m125_val : powerRZ 2 (-125) = / 42535295865117307932921825928971026432.
Proof.
  transitivity (/ powerRZ 2 125); [exact (pow2_opp 125)|].
  f_equal. rewrite <- pow2_Z by lia. reflexivity.
Qed.

(** What lies between [2^-120] and [2^120] is in the range of the
    rounding lemmas. *)
Lemma normal_range (y : R) :
  / 1329227995784915872903807060280344576 <= y <= 1329227995784915872903807060280344576 ->
  powerRZ 2 (-125) <= y <= powerRZ 2 126.
Proof. rewrite pow2_m125_val, pow2_126_val. lra. Qed.

Lemma div_bounds (x y l1 u1 l2 u2 : R) :
  0 <= l1 <= x -> x <= u1 -> 0 < l2 <= y -> y <= u2 ->
  l1 / u2 <= x / y <= u1 / l2.
Proof.
  intros [H1 H2] H3 [H4 H5] H6. unfold Rdiv. split.
  - apply Rmult_le_compat; try lra.
    + left. apply Rinv_0_lt_compat. lra.
    + apply Rinv_le_contravar; lra.
  - apply Rmult_le_compat; try lra.
    + left. apply Rinv_0_lt_compat. lra.
    + apply Rinv_le_contravar; lra.
Qed.

Lemma mul_bounds (x y l1 u1 l2 u2 : R) :
  0 <= l1 <= x -> x <= u1 -> 0 <= l2 <= y -> y <= u2 ->
  l1 * l2 <= x * y <= u1 * u2.
Proof. intros [H1 H2] H3 [H4 H5] H6. split; apply Rmult_le_compat; lra. Qed.

Lemma Q2R_250 : Q2R 250 = 250.
Proof. exact (Q2R_inject_Z 250). Qed.

Lemma Q2R_2 : Q2R 2 = 2.
Proof. exact (Q2R_inject_Z 2). Qed.

Lemma Q2R_252 : Q2R 252 = 252.
Proof. exact (Q2R_inject_Z 252). Qed.

(** The test of the assertion, for two floats whose quotient is 250 up
    to rounding. *)
Lemma quotient_below_253 (k : nat) (hi lo : Q) :
  (k <= 24)%nat -> (0 < lo)%Q -> near k (Q2R hi / Q2R lo) 250 ->
  f32_ltb (f32_div (Fin false hi) (Fin false lo)) (Fin false 253) = true /\
  (249 * lo <= hi)%Q /\ (hi <= 251 * lo)%Q.
Proof.
  intros Hk Hlo Hn. apply (near_weaken Hk) in Hn.
  pose proof (near_pos Hn) as Hq. destruct Hn as (_ & H1 & H2).
  pose proof eta_pow_24 as E. pose proof (eta_pow_ge_1 24) as E1.
  pose proof (Q2R_pos Hlo) as Hl.
  assert (Hup : Q2R hi / Q2R lo <= 251) by nra.
  assert (Hdn : 249 <= Q2R hi / Q2R lo).
  { eapply Rle_trans; [|exact H1]. apply Rmult_le_reg_r with (eta ^ 24); [lra|].
    unfold Rdiv. rewrite Rmult_assoc, Rinv_l by lra. nra. }
  assert (Hhi : 249 * Q2R lo <= Q2R hi <= 251 * Q2R lo).
  { replace (Q2R hi) with (Q2R hi / Q2R lo * Q2R lo) by (field; lra). split; nra. }
  assert (I249 : Q2R 249 = 249) by exact (Q2R_inject_Z 249).
  assert (I251 : Q2R 251 = 251) by exact (Q2R_inject_Z 251).
  split; [|split; apply Rle_Qle; rewrite Q2R_mult, ?I249, ?I251; lra].
  cbn [f32_div xorb]. rewrite (Qeq_bool_false_pos Hlo).
  assert (Hq0 : (0 <= hi / lo)%Q).
  { apply Rle_Qle. rewrite Q2R_0, Q2R_div by now apply Qpos_neq. lra. }
  assert (Hq252 : (hi / lo <= 252)%Q).
  { apply Rle_Qle. rewrite Q2R_252, Q2R_div by now apply Qpos_neq. lra. }
  pose proof (rnd_mono Hq0 Hq252) as Hm.
  change (rnd false 252) with (Fin false 252) in Hm.
  destruct (@rnd_forms false (hi / lo)%Q Hq0) as [Ei|(m' & Ef & _)].
  - rewrite Ei in Hm. discriminate.
  - rewrite Ef in *. apply Fin_leb in Hm. apply Fin_ltb.
    eapply Qle_lt_trans; [exact Hm|]. reflexivity.
Qed.

(** The set-up of the search on two floats [a <= b] of the range. *)
Lemma qf_bounds_chain (a b : Q) :
  (2 ^ (-60) <= a)%Q -> (a <= b)%Q -> (b <= 2 ^ 60)%Q ->
  let mn := Fin false a in
  let mx := Fin false b in
  let ratio := f32_div mx mn in
  let dev := f32_sqrt (f32_div (Fin false 250) ratio) in
  let asym := if f32_ltb dev (Fin false 2) then dev else Fin false 2 in
  let lo := f32_div mn (f32_mul asym dev) in
  let hi := f32_mul mx (f32_div dev asym) in
  exists lov hiv,
    lo = Fin false lov /\ hi = Fin false hiv /\ (0 < lov)%Q /\
    f32_ltb (f32_div hi lo) (Fin false 253) = true /\
    (249 * lov <= hiv)%Q /\ (hiv <= 251 * lov)%Q.
Proof.
  intros Ha Hab Hb. cbv zeta.
  apply Qle_Rle in Ha, Hab, Hb. rewrite Q2R_pow2, pow2_m60 in Ha.
  rewrite Q2R_pow2, pow2_60 in Hb.
  set (A := Q2R a) in *. set (B := Q2R b) in *.
  assert (HA : 0 < A) by lra. assert (HB : 0 < B) by lra.
  set (rho := B / A).
  assert (Hrho : 1 <= rho <= 1152921504606846976 / / 1152921504606846976).
  { split.
    - unfold rho. apply Rmult_le_reg_r with A; [exact HA|].
      unfold Rdiv. rewrite Rmult_assoc, Rinv_l by lra. lra.
    - apply (@div_bounds B A 0 1152921504606846976 (/ 1152921504606846976) 1152921504606846976); lra. }
  set (tau := 250 / rho).
  assert (Htau : 250 / (1152921504606846976 / / 1152921504606846976) <= tau <= 250 / 1).
  { apply (@div_bounds 250 rho 250 250 1 (1152921504606846976 / / 1152921504606846976)); lra. }
  assert (Htau0 : 0 < tau) by (apply Rdiv_lt_0_compat; lra).
  set (D := sqrt tau).
  assert (HD0 : 0 < D) by now apply sqrt_lt_R0.
  assert (HDD : D * D = tau) by (apply sqrt_sqrt; lra).
  assert (HD : / 144115188075855872 <= D <= 16).
  { split.
    - destruct (Rle_lt_dec (/ 144115188075855872) D) as [H|H]; [exact H|exfalso].
      assert (D * D < / 144115188075855872 * / 144115188075855872) by nra.
      lra.
    - destruct (Rle_lt_dec D 16) as [H|H]; [exact H|exfalso].
      assert (16 * 16 < D * D) by nra. lra. }
  (* ratio *)
  destruct (@f32_div_near 0 0 b a B A (near_refl HB) (near_refl HA) ltac:(lia))
    as (r & Er & Nr).
  { apply normal_range. fold rho. lra. }
  rewrite Er. fold rho in Nr. cbn [Nat.add] in Nr.
  (* 250 / ratio *)
  assert (N250 : near 0 (Q2R 250) 250) by (rewrite Q2R_250; apply near_refl; lra).
  destruct (@f32_div_near 0 1 250 r 250 rho N250 Nr ltac:(lia)) as (t & Et & Nt).
  { apply normal_range. fold tau. lra. }
  rewrite Et. fold tau in Nt. cbn [Nat.add] in Nt.
  (* the square root *)
  destruct (@f32_sqrt_near 2 t tau Nt ltac:(lia)) as (dv & Ed & Nd).
  { apply normal_range. fold D. lra. }
  rewrite Ed. fold D in Nd.
  assert (N2 : near 0 (Q2R 2) 2) by (rewrite Q2R_2; apply near_refl; lra).
  destruct (f32_ltb (Fin false dv) (Fin false 2)) eqn:C.
  - (* asymmetry = dev *)
    destruct (@f32_mul_near 4 4 dv dv D D Nd Nd ltac:(lia)) as (p & Ep & Np).
    { apply normal_range. rewrite HDD. lra. }
    rewrite Ep. cbn [Nat.add] in Np.
    assert (T1 : A / (D * D) = B / 250).
    { rewrite HDD. unfold tau, rho. field. lra. }
    destruct (@f32_div_near 0 9 a p A (D * D) (near_refl HA) Np ltac:(lia))
      as (lov & El & Nl).
    { apply normal_range. rewrite T1. lra. }
    rewrite El. cbn [Nat.add] in Nl.
    assert (T2 : D / D = 1) by (field; lra).
    destruct (@f32_div_near 4 4 dv dv D D Nd Nd ltac:(lia)) as (e & Ee & Ne).
    { apply normal_range. rewrite T2. lra. }
    rewrite Ee. cbn [Nat.add] in Ne.
    destruct (@f32_mul_near 0 9 b e B (D / D) (near_refl HB) Ne ltac:(lia))
      as (hiv & Eh & Nh).
    { apply normal_range. rewrite T2. lra. }
    rewrite Eh. cbn [Nat.add] in Nh.
    pose proof (near_div Nh Nl) as Nq. cbn [Nat.add] in Nq.
    replace (B * (D / D) / (A / (D * D))) with 250 in Nq
      by (rewrite T1, T2; field; lra).
    pose proof (Q2R_positive (near_pos Nl)) as Hlov.
    destruct (@quotient_below_253 20 hiv lov ltac:(lia) Hlov Nq) as (Q1 & Q2 & Q3).
    exists lov, hiv. repeat split; assumption.
  - (* asymmetry = 2 *)
    destruct (@f32_mul_near 0 4 2 dv 2 D N2 Nd ltac:(lia)) as (p & Ep & Np).
    { apply normal_range. lra. }
    rewrite Ep. cbn [Nat.add] in Np.
    destruct (@f32_div_near 0 5 a p A (2 * D) (near_refl HA) Np ltac:(lia))
      as (lov & El & Nl).
    { apply normal_range.
      pose proof (@div_bounds A (2 * D) (/ 1152921504606846976) 1152921504606846976
                    (2 * / 144115188075855872) 32) as Hb'.
      lra. }
    rewrite El. cbn [Nat.add] in Nl.
    destruct (@f32_div_near 4 0 dv 2 D 2 Nd N2 ltac:(lia)) as (e & Ee & Ne).
    { apply normal_range. lra. }
    rewrite Ee. cbn [Nat.add] in Ne.
    destruct (@f32_mul_near 0 5 b e B (D / 2) (near_refl HB) Ne ltac:(lia))
      as (hiv & Eh & Nh).
    { apply normal_range.
      pose proof (@mul_bounds B (D / 2) (/ 1152921504606846976) 1152921504606846976
                    (/ 144115188075855872 / 2) 8) as Hb'.
      lra. }
    rewrite Eh. cbn [Nat.add] in Nh.
    pose proof (near_div Nh Nl) as Nq. cbn [Nat.add] in Nq.
    replace (B * (D / 2) / (A / (2 * D))) with 250 in Nq.
    2:{ replace (B * (D / 2) / (A / (2 * D))) with (B / A * (D * D)) by (field; lra).
        rewrite HDD. unfold tau, rho. field. lra. }
    pose proof (Q2R_positive (near_pos Nl)) as Hlov.
    destruct (@quotient_below_253 12 hiv lov ltac:(lia) Hlov Nq) as (Q1 & Q2 & Q3).
    exists lov, hiv. repeat split; assumption.
Qed.

End QfBounds32.

(* ================================================================== *)
(** * The claims that depend on the rounding *)

(** C3, as stated, fails in binary32: the cells of [field_wide] are
    positive and finite, [qf_max / qf_min] overflows to infinity, the
    deviation is 0, [qf_lower] is infinite and [qf_higher] is a NaN, and
    the assertion fails, whatever [std::pow] computes. *)
Lemma qf_bounds_overflow_counterexample :
  (fltb (flit 0) (Row field_wide 0 0) && fltb (Row field_wide 0 0) (Inf false) &&
   fltb (flit 0) (Row field_wide 0 1) && fltb (Row field_wide 0 1) (Inf false) = true) /\
  ImageMinMax field_wide = (flit (2 ^ (-100)), flit (250 * 2 ^ 100)) /\
  fdiv (flit (250 * 2 ^ 100)) (flit (F := f32) (2 ^ (-100))) = Inf false /\
  (fun powf => qf_bounds (H0 := F32_libm powf) field_wide) = (fun _ => None).
Proof. repeat split; vm_compute; reflexivity. Qed.

(** C3, amended.  In binary32, for every non-empty field whose cells are
    finite floats between [2^-60] and [2^60]: the set-up of
    [FindBestQuantization] yields two finite positive floats, the test
    [qf_higher / qf_lower < 253] of the assertion holds, and the
    quotient of the two floats lies between 249 and 251. *)
Theorem qf_bounds_assertion_binary32 (powf : f32 -> f32 -> f32)
  (initial_quant_field : ImageF f32) :
  (1 <= xsize initial_quant_field)%nat ->
  (1 <= ysize initial_quant_field)%nat ->
  (forall y x, (y < ysize initial_quant_field)%nat ->
               (x < xsize initial_quant_field)%nat ->
               qf_in_range (Row initial_quant_field y x) = true) ->
  exists qf_lower qf_higher : Q,
    qf_bounds (H0 := F32_libm powf) initial_quant_field =
      Some (Fin false qf_lower, Fin false qf_higher) /\
    (0 < qf_lower)%Q /\
    fltb (fdiv (Fin false qf_higher) (Fin false qf_lower)) (flit 253) = true /\
    (249 * qf_lower <= qf_higher)%Q /\ (qf_higher <= 251 * qf_lower)%Q.
Proof.
  intros Hx Hy Hr.
  destruct (ImageMinMax_in_range initial_quant_field Hx Hy Hr) as (a & b & E & Ha & Hab & Hb).
  destruct (qf_bounds_chain Ha Hab Hb) as (lo & hi & El & Eh & Hlo & Hlt & H1 & H2).
  exists lo, hi. rewrite qf_bounds_f32, E. cbv zeta in El, Eh, Hlt |- *.
  rewrite El, Eh in *. rewrite Hlt. repeat split; assumption.
Qed.

Lemma qf_bounds_assertion_binary32_witness :
  ((1 <= xsize (field_1234 (F := f32)))%nat /\
   (1 <= ysize (field_1234 (F := f32)))%nat /\
   (forall y x, (y < ysize (field_1234 (F := f32)))%nat ->
                (x < xsize (field_1234 (F := f32)))%nat ->
                qf_in_range (Row field_1234 y x) = true)) /\
  exists qf_lower qf_higher : Q,
    qf_bounds (H0 := F32_libm powf_nan) field_1234 =
      Some (Fin false qf_lower, Fin false qf_higher) /\
    (0 < qf_lower)%Q /\
    fltb (fdiv (Fin false qf_higher) (Fin false qf_lower)) (flit 253) = true /\
    (249 * qf_lower <= qf_higher)%Q /\ (qf_higher <= 251 * qf_lower)%Q.
Proof.
  assert (Hr : forall y x, (y < 2)%nat -> (x < 2)%nat ->
                           qf_in_range (Row (field_1234 (F := f32)) y x) = true).
  { intros [|[|y]] [|[|x]] Hy Hx; try lia; vm_compute; reflexivity. }
  split; [cbn; repeat split; try lia; exact Hr|].
  apply (@qf_bounds_assertion_binary32 powf_nan field_1234); cbn; try lia. exact Hr.
Defined.

(** C7 fails in binary32.  On [flat_dark] with four lanes, column 1 of
    row 0 is written by the vector loop: the argument of the ratio is
    clamped to 0, [den / num] is [+inf], [diff] is [0 * inf], a NaN, and
    [IfThenElse(diff > cutoff, cutoff, diff)] stores it.  The scalar
    code of the same pixel stores [cutoff]: [std::min(cutoff, NaN)] is
    [cutoff].  The NaN is copied below the frame by the padding. *)
Lemma DiffPrecompute_vector_lane_NaN :
  let out := DiffPrecompute flat_dark 8 2 kDiffCutoff 4 (fun _ _ => flit 0) in
  let row_in := PlaneRow flat_dark 1 0 in
  let row_in1 := PlaneRow flat_dark 1 1 in
  Row out 0 1 = NaN /\
  fleb (Row out 0 1) kDiffCutoff = false /\
  Row out 0 1 = simd_pixel kDiffCutoff row_in row_in1 row_in1 1 /\
  scalar_pixel kDiffCutoff row_in row_in1 row_in1 1 0 2 = kDiffCutoff /\
  Row out 2 1 = NaN.
Proof. cbv zeta. repeat split; vm_compute; reflexivity. Qed.

(** The scalar clamp never stores more than a cutoff that is not a NaN. *)
Lemma std_min_at_most_cutoff (cutoff diff : f32) :
  cutoff <> NaN -> fleb (std_min cutoff diff) cutoff = true.
Proof.
  intros Hc. unfold std_min. cbn [fltb fleb F32_ops].
  destruct (f32_ltb diff cutoff) eqn:E.
  - unfold f32_ltb, f32_leb in *. destruct (f32_compare diff cutoff) as [[| |]|];
      try discriminate; reflexivity.
  - unfold f32_leb, f32_compare. destruct cutoff as [s m|[|]|]; try reflexivity.
    + rewrite (proj1 (Qeq_alt (val s m) (val s m)) (Qeq_refl _)). reflexivity.
    + now destruct Hc.
Qed.

(** The mean of the padding can exceed the cutoff by an ulp: with the
    cutoff 0.1f the three last pixels of row 0 are at the cutoff, and
    [(c + c + c) * (1.0f / 3)] is the next float. *)
Example padding_mean_above_cutoff :
  let out := DiffPrecompute checkerboard 3 2 (flit 0.1) 4 (fun _ _ => flit 0) in
  map (Row out 0) [0; 1; 2]%nat = [flit 0.1; flit 0.1; flit 0.1] /\
  Row out 0 3 = Fin false (6710887 # 67108864) /\
  flit 0.1 = Fin false (13421773 # 134217728) /\
  fleb (Row out 0 3) (flit 0.1) = false.
Proof. cbv zeta. repeat split; vm_compute; reflexivity. Qed.

(** C4 fails on the last row.  On a 2x2 frame whose Y plane is
    [corner_step], in binary32: the block "Last row" leaves 0 in both
    pixels of row 1, so the mean of the last two valid cells is 0; the
    cell right of them (row 1, column 2) still holds the mean the row
    task computed before, which is not 0. *)
Lemma last_row_padding_stale :
  let fresh := fun _ _ : nat => flit (F := f32) 0 in
  let rows := DiffPrecomputeRows corner_step 2 2 kDiffCutoff 4 fresh in
  let out := DiffPrecompute corner_step 2 2 kDiffCutoff 4 fresh in
  Row out 1 0 = flit 0 /\ Row out 1 1 = flit 0 /\
  row_lastval (Row out 1) 2 = flit 0 /\
  Row out 1 2 = row_lastval (Row rows 1) 2 /\
  feqb (Row out 1 2) (row_lastval (Row out 1) 2) = false.
Proof. cbv zeta. repeat split; vm_compute; reflexivity. Qed.

(** The operations of [f32] and those of the Standard Library's
    [SpecFloat] at precision 24 and [emax = 128] agree on every pair of
    [samples]: normal and subnormal numbers, ties, overflow, zeros of
    both signs, infinities and NaN. *)
Example f32_agrees_with_spec_float :
  all_pairs (check2 f32_add (SFadd 24 128)) &&
  all_pairs (check2 f32_sub (SFsub 24 128)) &&
  all_pairs (check2 f32_mul (SFmul 24 128)) &&
  all_pairs (check2 f32_div (SFdiv 24 128)) &&
  all_pairs (check2 (fun x _ => f32_sqrt x) (fun x _ => SFsqrt 24 128 x)) = true.
Proof. vm_compute. reflexivity. Qed.

(** Rounding the literal of [match_gamma_offset] to [double] and then to
    [float] gives the float nearest to the literal. *)
Example match_gamma_offset_literal :
  rnd_val (round_double 0.6542639346391887) = match_gamma_offset (F := f32).
Proof. vm_compute. reflexivity. Qed.
